(** * Read-only code folding of solid-prism-editor: a shallow embedding

    The development follows the source of the folding extension
    ([readOnlyCodeFolding], [blockCommentFolding], [markdownFolding]) and of
    the line patching effect of the core [Editor] component.

    Conventions:
    - text offsets are JavaScript numbers holding integers, modelled as [Z];
    - line numbers index the sparse array [foldPositions], modelled as a
      [gmap nat range];
    - a JavaScript string is its sequence of code units ([list ascii]);
    - [Set<number>] and [Set<[number, number]>] iterate in insertion order:
      both are lists, and the in-place mutation of a range stored in the set
      is a replacement at its position in the list. *)

From Stdlib Require Import ZArith Lia List Bool Ascii String Permutation Sorted.
From stdpp Require Import base option list gmap strings.
Import ListNotations.
Local Open Scope Z_scope.

(** ** JavaScript strings *)

Definition jsstring : Type := list ascii.

(** A string literal of the source. *)
Definition js (s : string) : jsstring := list_ascii_of_string s.

(** ["\n"] *)
Definition LF : ascii := ascii_of_nat 10.

Module Js.

Definition len (str : jsstring) : Z := Z.of_nat (length str).

(** Resolution of a relative index by [String.prototype.slice]: a negative
    index counts from the end, and the result is clamped to the string. *)
Definition relIndex (n i : Z) : Z :=
  if i <? 0 then Z.max (n + i) 0 else Z.min i n.

(** [str.slice(start, end)] *)
Definition slice (str : jsstring) (start end_ : Z) : jsstring :=
  let from := relIndex (len str) start in
  let to := relIndex (len str) end_ in
  take (Z.to_nat (to - from)) (drop (Z.to_nat from) str).

(** [str.slice(start)] *)
Definition sliceFrom (str : jsstring) (start : Z) : jsstring :=
  drop (Z.to_nat (relIndex (len str) start)) str.

Fixpoint startsWith (pat str : jsstring) : bool :=
  match pat, str with
  | [], _ => true
  | _ :: _, [] => false
  | p :: pat', c :: str' => bool_decide (p = c) && startsWith pat' str'
  end.

(** Search of [pat] in [str], the suffix of the subject that starts at
    index [i]. *)
Fixpoint indexOf_at (pat str : jsstring) (i : Z) : Z :=
  if startsWith pat str then i
  else match str with
       | [] => -1
       | _ :: str' => indexOf_at pat str' (i + 1)
       end.

(** [str.indexOf(pat, position)]: the position is clamped to the string. *)
Definition indexOf (str pat : jsstring) (position : Z) : Z :=
  let k := Z.min (Z.max position 0) (len str) in
  indexOf_at pat (drop (Z.to_nat k) str) k.

(** [str.includes(pat)] *)
Definition includes (str pat : jsstring) : bool :=
  negb (indexOf str pat 0 =? -1).

(** White space and line terminators among the code units below 256. *)
Definition isWhiteSpace (c : ascii) : bool :=
  let n := nat_of_ascii c in
  ((9 <=? n) && (n <=? 13) || (n =? 32) || (n =? 160))%nat.

(** [str.trimEnd()] *)
Fixpoint trimEnd (str : jsstring) : jsstring :=
  match str with
  | [] => []
  | c :: rest =>
      match trimEnd rest with
      | [] => if isWhiteSpace c then [] else [c]
      | t => c :: t
      end
  end.

(** Array element read with a numeric index: [undefined] out of range. *)
Definition nth {A} (l : list A) (i : Z) : option A :=
  if i <? 0 then None else l !! Z.to_nat i.

End Js.

(** [numLines(str, start, end)] of the core: [end_ = None] is the default
    [Infinity].  The loop runs at most once per line feed, so
    [S (length str)] rounds are enough (lemma [numLines_fuel]). *)
Fixpoint numLines_loop (fuel : nat) (str : jsstring) (start : Z)
    (end_ : option Z) (count : Z) : Z :=
  match fuel with
  | O => count
  | S fuel' =>
      let start' := Js.indexOf str [LF] start + 1 in
      if negb (start' =? 0)
         && match end_ with None => true | Some e => start' <=? e end
      then numLines_loop fuel' str start' end_ (count + 1)
      else count
  end.

Definition numLines (str : jsstring) (start : Z) (end_ : option Z) : Z :=
  numLines_loop (S (length str)) str start end_ 1.

(** [isMultiline(str, start, end)] *)
Definition isMultiline (str : jsstring) (start end_ : Z) : bool :=
  Js.includes (Js.slice str start end_) [LF].

(** ** Data model *)

(** [[number, number]]: a pair of offsets into the unfolded text. *)
Abbreviation range := (Z * Z)%type (only parsing).

(** The two sets owned by one instance of the extension. *)
Record store : Type := mkStore {
  foldedLines : list nat;
  foldedRanges : list range
}.

(** State right after [createFolds] cleared both sets. *)
Definition emptyStore : store := mkStore [] [].

(** How a call ends: normally, or with the [TypeError] raised by reading a
    component of [undefined] (the non-null assertions [foldPositions[line]!]). *)
Inductive completion : Type := Normal | TypeError.

(** Outcome of the public [toggleFold]. *)
Inductive result : Type := Returned (b : bool) | Thrown.

(** ** [Set<number>] in insertion order *)

Definition Set_has (x : nat) (s : list nat) : bool := bool_decide (x ∈ s).

Definition Set_add (x : nat) (s : list nat) : list nat :=
  if Set_has x s then s else s ++ [x].

Definition Set_delete (x : nat) (s : list nat) : list nat :=
  filter (λ y, y ≠ x) s.

(** ** CoordinateMapper: [getPosition] *)

Fixpoint getPosition_loop (pos result : Z) (ranges : list range) : Z :=
  match ranges with
  | [] => result
  | (start, end_) :: rest =>
      if pos >? start then
        if pos <? end_ then -1
        else getPosition_loop pos (result - (end_ - start - 3)) rest
      else getPosition_loop pos result rest
  end.

Definition getPosition (foldedRanges : list range) (pos : Z) : Z :=
  getPosition_loop pos pos foldedRanges.

(** ** FoldStore: [addFold] and [toggleFold] *)

(** The test of the scan in [addFold]: [start <= range[0] && end > range[0]]. *)
Definition covers_start (start end_ : Z) (r : range) : bool :=
  (start <=? r.1) && (end_ >? r.1).

(** The [for ... of foldedRanges] loop of [addFold]; [expanded] is the flag of
    the source, the result is the set after the loop with the final flag. *)
Fixpoint addFold_scan (start end_ : Z) (expanded : bool) (ranges : list range)
  : list range * bool :=
  match ranges with
  | [] => ([], expanded)
  | r :: rest =>
      if covers_start start end_ r then
        if expanded then addFold_scan start end_ true rest
        else
          let r' := (start, if end_ >? r.2 then end_ else r.2) in
          (r' :: fst (addFold_scan start end_ true rest), true)
      else
        let out := addFold_scan start end_ expanded rest in
        (r :: fst out, snd out)
  end.

(** Body of [addFold] once the anchor [[start, end]] of the line is read. *)
Definition addFold_range (start end_ : Z) (ranges : list range) : list range :=
  let out := addFold_scan start end_ false ranges in
  if snd out then fst out else fst out ++ [(start, end_)].

(** The first range whose start is [start] is deleted; [None] when the loop
    of the unfold branch finds no such range. *)
Fixpoint deleteFirst (start : Z) (ranges : list range) : option (list range) :=
  match ranges with
  | [] => None
  | r :: rest =>
      if start =? r.1 then Some rest
      else option_map (cons r) (deleteFirst start rest)
  end.

Section FoldStore.

(** The anchor table, fixed between two runs of [createFolds]. *)
Variable foldPositions : gmap nat range.

Definition addFold (line : nat) (ranges : list range) : option (list range) :=
  match foldPositions !! line with
  | None => None
  | Some (start, end_) => Some (addFold_range start end_ ranges)
  end.

(** [for (let currentLine of foldedLines)] of the unfold branch. *)
Fixpoint reAdd (start : Z) (lines : list nat) (ranges : list range)
  : completion * list range :=
  match lines with
  | [] => (Normal, ranges)
  | currentLine :: rest =>
      match foldPositions !! currentLine with
      | None => (TypeError, ranges)
      | Some (pos, _) =>
          if pos >? start then
            match addFold currentLine ranges with
            | Some ranges' => reAdd start rest ranges'
            | None => (TypeError, ranges)
            end
          else reAdd start rest ranges
      end
  end.

(** The inner [toggleFold (line)] of the closure. *)
Definition toggleFold (line : nat) (st : store) : completion * store :=
  match foldPositions !! line with
  | None => (TypeError, st)
  | Some (start, _) =>
      if Set_has line (foldedLines st) then
        let lines' := Set_delete line (foldedLines st) in
        match deleteFirst start (foldedRanges st) with
        | None => (Normal, mkStore lines' (foldedRanges st))
        | Some ranges' =>
            let out := reAdd start lines' ranges' in
            (fst out, mkStore lines' (snd out))
        end
      else
        let lines' := Set_add line (foldedLines st) in
        match addFold line (foldedRanges st) with
        | Some ranges' => (Normal, mkStore lines' ranges')
        | None => (TypeError, mkStore lines' (foldedRanges st))
        end
  end.

End FoldStore.

(** ** View materialization: [update] *)

(** [[...foldedRanges].sort((a, b) => a[0] - b[0])]; the sort of an array is
    stable, as is this insertion sort. *)
Fixpoint insert_by_start (r : range) (sorted : list range) : list range :=
  match sorted with
  | [] => [r]
  | r' :: rest =>
      if r.1 <=? r'.1 then r :: sorted else r' :: insert_by_start r rest
  end.

Definition sort_by_start (ranges : list range) : list range :=
  foldr insert_by_start [] ranges.

(** The code unit of U+00A0 NO-BREAK SPACE. *)
Definition NBSP : ascii := ascii_of_nat 160.

(** The marker written in place of a folded range, the string literal of
    [update]: three code units U+00A0. *)
Definition placeholder : jsstring := [NBSP; NBSP; NBSP].

(** Locals of [update] while it walks [sortedRanges]. *)
Record view : Type := mkView {
  v_value : jsstring;
  v_pos : Z;
  v_ln : Z;
  v_skippedLines : gmap Z Z
}.

(** One round of [for (let [start, end] of sortedRanges)]: the index of the
    assignment to [skippedLines] is evaluated before [pos = end]. *)
Definition update_step (code : jsstring) (v : view) (r : range) : view :=
  let ln' := v_ln v + numLines code (v_pos v) (Some r.1) - 1 in
  mkView (v_value v ++ Js.slice code (v_pos v) r.1 ++ placeholder)
         r.2
         ln'
         (<[ln' := numLines code r.1 (Some r.2)]> (v_skippedLines v)).

Definition update_loop (code : jsstring) (sortedRanges : list range) : view :=
  fold_left (update_step code) sortedRanges (mkView [] 0 1 ∅).

(** The text assigned to [value] and to the textarea by [update]. *)
Definition update_value (code : jsstring) (foldedRanges : list range) : jsstring :=
  let v := update_loop code (sort_by_start foldedRanges) in
  v_value v ++ Js.sliceFrom code (v_pos v).

(** The variables of one instance of the extension. *)
Record closure : Type := mkClosure {
  value : jsstring;
  code : jsstring;
  foldPositions : gmap nat range;
  sets : store
}.

Definition update (c : closure) : closure :=
  mkClosure (update_value (code c) (foldedRanges (sets c)))
            (code c) (foldPositions c) (sets c).

(** ** FoldRangeCollector: [createFolds] *)

(** The components of a tag and of a bracket that [createFolds] reads:
    [tags[i][1]], [tags[i][2]], [brackets[i][1]] and [brackets[i][3]]. *)
Record Tag : Type := mkTag { tag_start : Z; tag_end : Z }.
Record Bracket : Type := mkBracket { bracket_start : Z; bracket_text : jsstring }.

Record TagMatcher : Type := mkTagMatcher {
  tags : list Tag;
  tag_pairs : list (option nat)
}.

Record BracketMatcher : Type := mkBracketMatcher {
  brackets : list Bracket;
  bracket_pairs : list (option nat)
}.

(** A provider with the editor it is called on already supplied: it maps the
    folds collected so far to the folds to append. *)
Definition FoldingRangeProvider : Type := list range → list range.

(** The loop over tag pairs from index [i] on; [None] is the [TypeError] of
    reading a tag that does not exist. *)
Fixpoint tagFolds (value : jsstring) (tags : list Tag)
    (pairs : list (option nat)) (i : nat) (folds : list range)
  : option (list range) :=
  match pairs with
  | [] => Some folds
  | p :: rest =>
      match p with
      | Some j =>
          if (i <? j)%nat then
            ti ← tags !! i;
            tj ← tags !! j;
            if isMultiline value (tag_end ti) (tag_start tj)
            then tagFolds value tags rest (S i) (folds ++ [(tag_end ti, tag_start tj)])
            else tagFolds value tags rest (S i) folds
          else tagFolds value tags rest (S i) folds
      | None => tagFolds value tags rest (S i) folds
      end
  end.

Fixpoint bracketFolds (value : jsstring) (brackets : list Bracket)
    (pairs : list (option nat)) (i : nat) (folds : list range)
  : option (list range) :=
  match pairs with
  | [] => Some folds
  | p :: rest =>
      match p with
      | Some j =>
          if (i <? j)%nat then
            bi ← brackets !! i;
            if bool_decide (bracket_text bi ≠ js "(") then
              bj ← brackets !! j;
              if isMultiline value (bracket_start bi) (bracket_start bj)
              then bracketFolds value brackets rest (S i)
                     (folds ++ [(bracket_start bi + Js.len (bracket_text bi),
                                 bracket_start bj)])
              else bracketFolds value brackets rest (S i) folds
            else bracketFolds value brackets rest (S i) folds
          else bracketFolds value brackets rest (S i) folds
      | None => bracketFolds value brackets rest (S i) folds
      end
  end.

(** [providers.forEach(clb => folds.push(...clb(editor, folds)))] *)
Definition providerFolds (providers : list FoldingRangeProvider)
    (folds : list range) : list range :=
  fold_left (λ acc clb, acc ++ clb acc) providers folds.

(** One round of the loop that fills [foldPositions]. *)
Definition anchor (value : jsstring) (fp : gmap nat range) (r : range)
  : gmap nat range :=
  let index := Z.to_nat (numLines value 0 (Some r.1)) in
  match fp !! index with
  | None => <[index := r]> fp
  | Some cur => if r.2 >? cur.2 then <[index := r]> fp else fp
  end.

Definition anchorTable (value : jsstring) (folds : list range) : gmap nat range :=
  fold_left (anchor value) folds ∅.

(** The candidates in the order [createFolds] collects them. *)
Definition collectFolds (value : jsstring) (matchTags : option TagMatcher)
    (matchBrackets : option BracketMatcher)
    (providers : list FoldingRangeProvider) : option (list range) :=
  folds1 ← match matchTags with
           | Some m => tagFolds value (tags m) (tag_pairs m) 0 []
           | None => Some []
           end;
  folds2 ← match matchBrackets with
           | Some m => bracketFolds value (brackets m) (bracket_pairs m) 0 folds1
           | None => Some folds1
           end;
  Some (providerFolds providers folds2).

(** [createFolds], on the value of the editor; [None] when it throws. *)
Definition createFolds (editorValue : jsstring) (matchTags : option TagMatcher)
    (matchBrackets : option BracketMatcher)
    (providers : list FoldingRangeProvider) : option closure :=
  folds ← collectFolds editorValue matchTags matchBrackets providers;
  Some (mkClosure editorValue editorValue (anchorTable editorValue folds) emptyStore).

(** ** FoldingFacade: the object stored in [extensions.folding] *)

Module folding.

(** [get fullCode() { return code }] *)
Definition fullCode (c : closure) : jsstring := code c.

(** [foldedLines.has(lineNumber) != force], with [force] possibly
    [undefined]: a boolean is never loosely equal to [undefined]. *)
Definition differs (has : bool) (force : option bool) : bool :=
  match force with
  | None => true
  | Some f => negb (eqb has f)
  end.

(** [toggleFold: (lineNumber, force) => !!foldPositions[lineNumber] &&
    foldedLines.has(lineNumber) != force && !toggleFold(lineNumber)];
    the inner call returns [undefined], whose negation is [true]. *)
Definition toggleFold (c : closure) (lineNumber : nat) (force : option bool)
  : result * closure :=
  match foldPositions c !! lineNumber with
  | None => (Returned false, c)
  | Some _ =>
      if differs (Set_has lineNumber (foldedLines (sets c))) force then
        let out := toggleFold (foldPositions c) lineNumber (sets c) in
        let c' := mkClosure (value c) (code c) (foldPositions c) (snd out) in
        match fst out with
        | Normal => (Returned true, c')
        | TypeError => (Thrown, c')
        end
      else (Returned false, c)
  end.

(** [updateFolds: () => update()] *)
Definition updateFolds (c : closure) : closure := update c.

End folding.

(** A batch of public [toggleFold] calls, applied in order. *)
Definition run (calls : list (nat * option bool)) (c : closure) : closure :=
  fold_left (λ c' call, snd (folding.toggleFold c' call.1 call.2)) calls c.

(** An instance as [createFolds] leaves it, for a given anchor table. *)
Definition fresh (code : jsstring) (fp : gmap nat range) : closure :=
  mkClosure code code fp emptyStore.

(** ** Token streams *)

(** An element of a [TokenStream]: a string, or a [Token] with its [type],
    [alias], [content] (a string or a nested stream) and [length]. *)
#[warnings="-register-all"]
Inductive token : Type :=
| Chars (s : jsstring)
| Token (type : jsstring) (alias : option jsstring)
        (content : jsstring + list token) (length : Z).

(** [.length] of an element of a stream. *)
Definition token_length (t : token) : Z :=
  match t with
  | Chars s => Js.len s
  | Token _ _ _ n => n
  end.

(** [.type] of an element: [undefined] on a string. *)
Definition token_type (t : token) : option jsstring :=
  match t with
  | Chars _ => None
  | Token ty _ _ _ => Some ty
  end.

(** Truthiness of a string or [undefined]. *)
Definition truthy (o : option jsstring) : bool :=
  match o with
  | Some (_ :: _) => true
  | _ => false
  end.

(** ** Provider [blockCommentFolding] *)

Section BlockComments.

(** [languageMap[language]?.comments?.block] *)
Variable blockComment : jsstring → option (jsstring * jsstring).
Variable value : jsstring.

(** [token.alias || token.type] *)
Definition aliasType (ty : jsstring) (alias : option jsstring) : jsstring :=
  if truthy alias then default ty alias else ty.

(** One round of the loop of [findBlockComments], without the final
    [position += length]. *)
Fixpoint findBlockComments_token (t : token) (position : Z)
    (language : jsstring) (folds : list range) {struct t} : list range :=
  match t with
  | Chars _ => folds
  | Token ty alias content length =>
      let at_ := aliasType ty alias in
      if bool_decide (at_ = js "comment")
         && isMultiline value position (position + length) then
        match blockComment language with
        | Some (open, close) =>
            if Js.indexOf value open position =? position
            then folds ++ [(position + Js.len open,
                            position + length - Js.len close)]
            else folds
        | None => folds
        end
      else
        match content with
        | inl _ => folds
        | inr stream =>
            let language' :=
              if bool_decide (Js.slice at_ 0 9 = js "language-")
              then Js.sliceFrom at_ 9 else language in
            (fix loop (tokens : list token) (position : Z)
                 (folds : list range) {struct tokens} : list range :=
               match tokens with
               | [] => folds
               | t' :: rest =>
                   loop rest (position + token_length t')
                        (findBlockComments_token t' position language' folds)
               end) stream position folds
        end
  end.

Fixpoint findBlockComments (tokens : list token) (position : Z)
    (language : jsstring) (folds : list range) : list range :=
  match tokens with
  | [] => folds
  | t :: rest =>
      findBlockComments rest (position + token_length t) language
        (findBlockComments_token t position language folds)
  end.

Definition blockCommentFolding (tokens : list token) (language : jsstring)
  : list range :=
  findBlockComments tokens 0 language [].

End BlockComments.

(** ** Provider [markdownFolding] *)

(** A fold pushed by [markdownFolding]: its start is read from the sparse
    array [openTitles], and is [None] when that read gives [undefined]. *)
Definition mdFold : Type := option Z * Z.

(** The variables [folds], [pos], [openTitles] and [levels] of the provider;
    [levels] is [undefined] until a first title is seen. *)
Record mdState : Type := mkMd {
  md_folds : list mdFold;
  md_pos : Z;
  md_openTitles : gmap Z Z;
  md_levels : option Z
}.

Section Markdown.

Variable value : jsstring.

(** [closeTitles(level)]: the folds after the call.  A comparison with
    [undefined] is false, so nothing is pushed before the first title. *)
Definition closeTitles (st : mdState) (level : Z) : list mdFold :=
  let end_ := Js.len (Js.trimEnd (Js.slice value 0 (md_pos st))) in
  match md_levels st with
  | None => md_folds st
  | Some levels =>
      md_folds st
      ++ map (λ k, (md_openTitles st !! k, end_)) (seqZ level (levels - level + 1))
  end.

(** [(<string>token2.content)[0] == "="] *)
Definition startsWithEquals (token2 : token) : option bool :=
  match token2 with
  | Chars _ => None
  | Token _ _ (inl s) _ => Some (bool_decide (head s = Some "="%char))
  | Token _ _ (inr items) _ =>
      Some match items with
           | Chars s :: _ => bool_decide (s = js "=")
           | _ => false
           end
  end.

(** The level of a title and the offset stored for it in [openTitles]. *)
Definition titleLevel (content : jsstring + list token) (pos length : Z)
  : option (Z * Z) :=
  match content with
  | inl _ => None
  | inr items =>
      token1 ← items !! 0%nat;
      if truthy (token_type token1) then
        Some (token_length token1 - 1, pos + length)
      else
        token2 ← items !! 1%nat;
        match startsWithEquals token2 with
        | Some true => Some (0, pos + (token_length token1 - 1))
        | Some false => Some (1, pos + (token_length token1 - 1))
        | None => None
        end
  end.

(** [(content[1].content || "").length] *)
Definition contentLength (t : token) : Z :=
  match t with
  | Chars _ => 0
  | Token _ _ (inl s) _ => Js.len s
  | Token _ _ (inr items) _ => Z.of_nat (List.length items)
  end.

(** The fold pushed for a code block. *)
Definition codeFold (content : jsstring + list token) (pos length : Z)
  : option mdFold :=
  match content with
  | inl s =>
      match s with
      | _ :: _ :: _ => Some (Some (pos + 1 + 0), pos + length - 1 - 1)
      | _ => None
      end
  | inr items =>
      c0 ← items !! 0%nat;
      c1 ← items !! 1%nat;
      cl ← last items;
      Some (Some (pos + token_length c0 + contentLength c1),
            pos + length - token_length cl - 1)
  end.

(** One round of the loop over [tokenList]; [None] is a [TypeError]. *)
Definition markdown_step (st : mdState) (t : token) : option mdState :=
  match t with
  | Chars s => Some (mkMd (md_folds st) (md_pos st + Js.len s)
                          (md_openTitles st) (md_levels st))
  | Token type alias content length =>
      st1 ← (if bool_decide (type = js "code") && negb (truthy alias) then
               f ← codeFold content (md_pos st) length;
               Some (mkMd (md_folds st ++ [f]) (md_pos st)
                          (md_openTitles st) (md_levels st))
             else Some st);
      st2 ← (if bool_decide (type = js "title") then
               '(level, offset) ← titleLevel content (md_pos st1) length;
               Some (mkMd (closeTitles st1 level) (md_pos st1)
                          (<[level := offset]> (md_openTitles st1)) (Some level))
             else Some st1);
      Some (mkMd (md_folds st2) (md_pos st2 + length)
                 (md_openTitles st2) (md_levels st2))
  end.

Fixpoint markdown_loop (st : mdState) (tokenList : list token)
  : option mdState :=
  match tokenList with
  | [] => Some st
  | t :: rest => st' ← markdown_step st t; markdown_loop st' rest
  end.

Definition markdownFolding (tokenList : list token) (language : jsstring)
  : option (list mdFold) :=
  if bool_decide (language = js "markdown") || bool_decide (language = js "md")
  then st ← markdown_loop (mkMd [] 0 ∅ None) tokenList;
       Some (closeTitles st 0)
  else Some [].

End Markdown.

(** ** The line patching effect of [Editor] *)

Module Editor.

(** [newLines[i] == prevLines[j]], either side possibly [undefined]. *)
Definition same (a b : option jsstring) : bool := bool_decide (a = b).

(** [while (newLines[start] == prevLines[start] && start < end1) ++start];
    [start] grows up to [end1], so [end1] rounds are enough (lemma
    [commonPrefix_fuel]). *)
Fixpoint commonPrefix (fuel : nat) (newLines prevLines : list jsstring)
    (end1 start : nat) : nat :=
  match fuel with
  | O => start
  | S fuel' =>
      if same (newLines !! start) (prevLines !! start) && (start <? end1)%nat
      then commonPrefix fuel' newLines prevLines end1 (S start)
      else start
  end.

(** [while (end1 && newLines[--end1] == prevLines[--end2]);] with the
    values of [end1] and [end2] when it stops. *)
Fixpoint commonSuffix (newLines prevLines : list jsstring)
    (end1 : nat) (end2 : Z) : nat * Z :=
  match end1 with
  | O => (O, end2)
  | S end1' =>
      if same (newLines !! end1') (Js.nth prevLines (end2 - 1))
      then commonSuffix newLines prevLines end1' (end2 - 1)
      else (end1', end2 - 1)
  end.

(** What the effect does to the line elements. *)
Inductive patch : Type :=
| SetLine (index : nat) (line : option jsstring)
    (** [lines[index + 1].innerHTML = line + "\n"] *)
| Splice (removeAt : nat) (removeCount : Z) (insertStart : Z)
         (inserted : list (option jsstring)).
    (** [removeCount] times [lines[removeAt + 1].remove()], then the new
        elements are inserted after [lines[insertStart + 1]] *)

(** The three cursors after both loops. *)
Definition cursors (prevLines : list jsstring) (lineCount : Z)
    (newLines : list jsstring) : nat * nat * Z :=
  let end1 := List.length newLines in
  let start := commonPrefix end1 newLines prevLines end1 0 in
  let out := commonSuffix newLines prevLines end1 lineCount in
  (start, fst out, snd out).

Definition diff (prevLines : list jsstring) (lineCount : Z)
    (newLines : list jsstring) : patch :=
  let '(start, end1, end2) := cursors prevLines lineCount newLines in
  if (start =? end1)%nat && (Z.of_nat start =? end2) then
    SetLine start (newLines !! start)
  else
    let insertStart := if end2 <? Z.of_nat start then end2 else Z.of_nat start - 1 in
    let removeFrom := if (end1 <? start)%nat then Z.of_nat end1 else Z.of_nat start - 1 in
    Splice start (end2 - removeFrom) insertStart
           (map (Js.nth newLines) (seqZ (insertStart + 1) (Z.of_nat end1 - insertStart))).

(** The line elements after the patch, each given by the string it was
    built from; [None] when an element that does not exist is used. *)
Definition applyPatch (p : patch) (dom : list (option jsstring))
  : option (list (option jsstring)) :=
  match p with
  | SetLine index line =>
      if (index <? List.length dom)%nat then Some (<[index := line]> dom) else None
  | Splice removeAt removeCount insertStart inserted =>
      let n := Z.to_nat removeCount in
      if (n =? 0)%nat || (removeAt + n <=? List.length dom)%nat then
        let dom' := take removeAt dom ++ drop (removeAt + n) dom in
        match inserted with
        | [] => Some dom'
        | _ =>
            if (-1 <=? insertStart) && (insertStart <? Z.of_nat (List.length dom'))
            then let k := Z.to_nat (insertStart + 1) in
                 Some (take k dom' ++ inserted ++ drop k dom')
            else None
        end
      else None
  end.

End Editor.

(** ** Properties the statements below are about *)

(** The invariant of a [Range]: it is not empty. *)
Definition valid (r : range) : Prop := r.1 < r.2.

(** Two ranges share no offset. *)
Definition disjoint (a b : range) : Prop := a.2 <= b.1 ∨ b.2 <= a.1.

(** The ranges of a set are pairwise disjoint. *)
Fixpoint non_overlapping (l : list range) : Prop :=
  match l with
  | [] => True
  | r :: rest => Forall (disjoint r) rest ∧ non_overlapping rest
  end.

(** The set is enumerated in ascending order of start. *)
Definition ascending (l : list range) : Prop :=
  Sorted (λ a b : range, a.1 <= b.1) l.

Definition strictly_ascending (l : list range) : Prop :=
  Sorted (λ a b : range, a.1 < b.1) l.

(** [pos] lies strictly inside [r]: the case in which [getPosition] gives
    the sentinel. *)
Definition inside (pos : Z) (r : range) : bool := (r.1 <? pos) && (pos <? r.2).

Definition hidden (ranges : list range) (pos : Z) : Prop :=
  ∃ r : range, r ∈ ranges ∧ r.1 < pos ∧ pos < r.2.

(** Total of [end - start - 3] over the ranges with [start < pos] and
    [pos >= end]. *)
Fixpoint shrinkage (pos : Z) (ranges : list range) : Z :=
  match ranges with
  | [] => 0
  | r :: rest =>
      (if (r.1 <? pos) && (r.2 <=? pos) then r.2 - r.1 - 3 else 0)
      + shrinkage pos rest
  end.

(** The same total over the ranges with [end <= pos]. *)
Fixpoint shrinkage_upto (pos : Z) (ranges : list range) : Z :=
  match ranges with
  | [] => 0
  | r :: rest =>
      (if r.2 <=? pos then r.2 - r.1 - 3 else 0) + shrinkage_upto pos rest
  end.

(** The offset mapping in the words of the specification: the walk is made
    over the set sorted by start. *)
Definition toViewOffset_sorted (ranges : list range) (rawOffset : Z) : Z :=
  getPosition_loop rawOffset rawOffset (sort_by_start ranges).

(** A range replaced by the marker in a text, and all the ranges of a list
    replaced, the last one first, so that the offsets of the ranges still to
    replace are those of the original text. *)
Definition replace_range (r : range) (text : jsstring) : jsstring :=
  take (Z.to_nat r.1) text ++ placeholder ++ drop (Z.to_nat r.2) text.

Definition replace_ranges (text : jsstring) (ranges : list range) : jsstring :=
  foldr replace_range text ranges.

(** The ranges of a list follow each other between [lo] and [hi]. *)
Fixpoint chained (lo : Z) (l : list range) (hi : Z) : Prop :=
  match l with
  | [] => lo <= hi
  | r :: rest => lo <= r.1 ∧ r.1 <= r.2 ∧ chained r.2 rest hi
  end.

(** The anchor line of a candidate: the index at which [createFolds]
    stores it. *)
Definition anchorLine (value : jsstring) (r : range) : nat :=
  Z.to_nat (numLines value 0 (Some r.1)).

(** What a bracket matcher gives for an opening bracket: an offset of the
    text at which the text of the bracket stands, without line feed. *)
Definition bracket_wf (value : jsstring) (b : Bracket) : Prop :=
  0 <= bracket_start b
  ∧ Js.slice value (bracket_start b) (bracket_start b + Js.len (bracket_text b))
    = bracket_text b
  ∧ LF ∉ bracket_text b.

(** Every anchor of the table is stored at its anchor line, as
    [createFolds] does: two lines never anchor ranges with the same start. *)
Definition anchored_by_line (value : jsstring) (fp : gmap nat range) : Prop :=
  ∀ line r, fp !! line = Some r → anchorLine value r = line.

(** Every anchor of the table is a valid range. *)
Definition valid_table (fp : gmap nat range) : Prop :=
  ∀ line r, fp !! line = Some r → valid r.

(** The ranges of a set that are valid and start at distinct offsets. *)
Definition ranges_ok (l : list range) : Prop := Forall valid l ∧ NoDup l.*1.

(** What holds of the two sets between two calls. *)
Record store_inv (fp : gmap nat range) (st : store) : Prop := mkInv {
  inv_lines : NoDup (foldedLines st);
  inv_anchored : ∀ line, line ∈ foldedLines st → is_Some (fp !! line);
  inv_valid : Forall valid (foldedRanges st);
  inv_starts : NoDup (foldedRanges st).*1
}.

(** Number of line feeds of a text. *)
Definition countLF (text : list ascii) : Z :=
  Z.of_nat (length (filter (λ c, c = LF) text)).

(** The part of a text that [numLines (text, start, end)] looks at: from
    [start], clamped to the text, up to [end] excluded. *)
Definition lineWindow (text : jsstring) (start : Z) (end_ : option Z) : jsstring :=
  let k := Z.min (Z.max start 0) (Js.len text) in
  match end_ with
  | None => drop (Z.to_nat k) text
  | Some e => take (Z.to_nat (e - k)) (drop (Z.to_nat k) text)
  end.

(** [selection[2]], the direction of the selection. *)
Inductive direction : Type := forward | backward | none.

(** [numLines(value, 0, selection[selection[2] < "f" ? 0 : 1])] of
    [updateSelection]: only ["backward"] sorts before ["f"]. *)
Definition activeLineNumber (value : jsstring) (selectionStart selectionEnd : Z)
    (d : direction) : Z :=
  numLines value 0
    (Some match d with backward => selectionStart | _ => selectionEnd end).

(** The text that the copy button writes to the clipboard:
    [editor.extensions.folding?.fullCode ?? editor.value]. *)
Definition copiedText (folding : option closure) (editorValue : jsstring)
  : jsstring :=
  match folding with
  | Some c => folding.fullCode c
  | None => editorValue
  end.

(** The run of [createFolds] that the effect of the extension queues when
    [props.language] changes, on an editor whose textarea holds the view
    that the last [update] of the instance [c] wrote: the editor reads its
    [value] from the textarea, and [createFolds] takes [editor.value] for
    the text. *)
Definition createFolds_again (c : closure) (matchTags : option TagMatcher)
    (matchBrackets : option BracketMatcher)
    (providers : list FoldingRangeProvider) : option closure :=
  createFolds (value c) matchTags matchBrackets providers.

(** ** Line boundaries of [utils/local] *)

(** [str.lastIndexOf(pat, position)]: the greatest index, not above the
    position clamped to the string, at which [pat] stands; [i] is the index
    of [str] in the subject, [found] the last match so far. *)
Fixpoint lastIndexOf_at (pat str : jsstring) (i limit found : Z) : Z :=
  let found' := if Js.startsWith pat str && (i <=? limit) then i else found in
  match str with
  | [] => found'
  | _ :: str' => lastIndexOf_at pat str' (i + 1) limit found'
  end.

Definition lastIndexOf (str pat : jsstring) (position : Z) : Z :=
  lastIndexOf_at pat str 0 (Z.max position 0) (-1).

(** [getLineStart(text, position)] *)
Definition getLineStart (text : jsstring) (position : Z) : Z :=
  if negb (position =? 0) then lastIndexOf text [LF] (position - 1) + 1 else 0.

(** [getLineEnd(text, position)] *)
Definition getLineEnd (text : jsstring) (position : Z) : Z :=
  let position' := Js.indexOf text [LF] position in
  if negb (position' + 1 =? 0) then position' else Js.len text.

(** [value.slice(position, getLineEnd(value, position))]: the text that
    [updateFolds] shows after the placeholder of a fold, and the cursor
    extension after the caret. *)
Definition lineAfter (value : jsstring) (position : Z) : jsstring :=
  Js.slice value position (getLineEnd value position).

(** Every folded range starts where the anchor of a folded line starts. *)
Definition starts_anchored (fp : gmap nat range) (st : store) : Prop :=
  ∀ r : range, r ∈ foldedRanges st →
    ∃ line e, line ∈ foldedLines st ∧ fp !! line = Some (r.1, e).

(** ** Concrete inputs used in examples *)

(** A text of three blocks in braces, the second inside the first, with
    the brackets and pairs that a bracket matcher gives for it.  The table
    that [createFolds] builds anchors [(1, 13)] on line 1, the nested
    [(3, 11)] on line 2 and [(16, 19)] on line 6. *)
Definition braces_text : jsstring :=
  js "{" ++ [LF] ++ js "{" ++ [LF] ++ js "xxxxxx" ++ [LF] ++ js "}" ++ [LF]
  ++ js "}" ++ [LF] ++ js "{" ++ [LF] ++ js "y" ++ [LF] ++ js "}".

Definition braces_matcher : BracketMatcher :=
  mkBracketMatcher
    [ mkBracket 0 (js "{"); mkBracket 2 (js "{"); mkBracket 11 (js "}");
      mkBracket 13 (js "}"); mkBracket 15 (js "{"); mkBracket 19 (js "}") ]
    [ Some 3%nat; Some 2%nat; Some 1%nat; Some 0%nat; Some 5%nat; Some 4%nat ].

Definition braces_table : gmap nat range :=
  {[ 1%nat := (1, 13); 2%nat := (3, 11); 6%nat := (16, 19) ]}.

Definition braces : closure := fresh braces_text braces_table.

(** The scenario of the block comment: the text, its tokens, the
    delimiters of the language, and the instance that [createFolds] builds
    with [blockCommentFolding] as only provider. *)
Definition comment_text : jsstring :=
  js "A" ++ [LF] ++ js "/* x" ++ [LF] ++ js "y */" ++ [LF] ++ js "B".

Definition comment_tokens : list token :=
  [ Chars (js "A" ++ [LF]);
    Token (js "comment") None (inl (js "/* x" ++ [LF] ++ js "y */")) 9;
    Chars ([LF] ++ js "B") ].

Definition clike_comments (language : jsstring) : option (jsstring * jsstring) :=
  if bool_decide (language = js "javascript") then Some (js "/*", js "*/")
  else None.

Definition comment_instance : option closure :=
  createFolds comment_text None None
    [λ _, blockCommentFolding clike_comments comment_text comment_tokens
            (js "javascript")].

(** A block comment that is not closed: the token runs to the end of the
    text. *)
Definition unterminated_text : jsstring := js "/*" ++ [LF].

Definition unterminated_tokens : list token :=
  [ Token (js "comment") None (inl unterminated_text) 3 ].

Definition unterminated_instance : option closure :=
  createFolds unterminated_text None None
    [λ _, blockCommentFolding clike_comments unterminated_text
            unterminated_tokens (js "javascript")].

(** A markdown text with the headings A (level 0), B (level 1), C (level 2),
    D (level 0) and E (level 2), each followed by one line of text, and its
    tokens: a title holds the punctuation token of its marks and the text
    that follows them. *)
Definition md_title (marks rest : string) : token :=
  Token (js "title") (Some (js "important"))
        (inr [ Token (js "punctuation") None (inl (js marks)) (Js.len (js marks));
               Chars (js rest) ])
        (Js.len (js marks) + Js.len (js rest)).

Definition md_text : jsstring :=
  js "# A" ++ [LF] ++ js "a" ++ [LF] ++ js "## B" ++ [LF] ++ js "b" ++ [LF]
  ++ js "### C" ++ [LF] ++ js "c" ++ [LF] ++ js "# D" ++ [LF] ++ js "d" ++ [LF]
  ++ js "### E" ++ [LF] ++ js "e".

Definition md_tokens : list token :=
  [ md_title "#" " A"; Chars ([LF] ++ js "a" ++ [LF]);
    md_title "##" " B"; Chars ([LF] ++ js "b" ++ [LF]);
    md_title "###" " C"; Chars ([LF] ++ js "c" ++ [LF]);
    md_title "#" " D"; Chars ([LF] ++ js "d" ++ [LF]);
    md_title "###" " E"; Chars ([LF] ++ js "e") ].

(** Tokens for which [markdownFolding] opens a title, and for which it
    pushes the fold of a code block. *)
Definition isTitle (t : token) : bool :=
  match t with
  | Token type _ _ _ => bool_decide (type = js "title")
  | Chars _ => false
  end.

Definition isCodeBlock (t : token) : bool :=
  match t with
  | Token type alias _ _ => bool_decide (type = js "code") && negb (truthy alias)
  | Chars _ => false
  end.

(** The titles of a token list start at level 0 and never go more than one
    level deeper than the title before them; [prev] is the level of the last
    title seen. *)
Fixpoint levels_in_steps (prev : option Z) (tokenList : list token) : Prop :=
  match tokenList with
  | [] => True
  | Token type _ content length :: rest =>
      if bool_decide (type = js "title") then
        match titleLevel content 0 length with
        | Some (level, _) =>
            match prev with
            | None => level = 0
            | Some p => 0 <= level ∧ level <= p + 1
            end
            ∧ levels_in_steps (Some level) rest
        | None => True
        end
      else levels_in_steps prev rest
  | Chars _ :: rest => levels_in_steps prev rest
  end.

(** Headings A (level 0), B (level 1) and C (level 0), each followed by one
    line of text. *)
Definition md_steps_text : jsstring :=
  js "# A" ++ [LF] ++ js "a" ++ [LF] ++ js "## B" ++ [LF] ++ js "b" ++ [LF]
  ++ js "# C" ++ [LF] ++ js "c".

Definition md_steps_tokens : list token :=
  [ md_title "#" " A"; Chars ([LF] ++ js "a" ++ [LF]);
    md_title "##" " B"; Chars ([LF] ++ js "b" ++ [LF]);
    md_title "#" " C"; Chars ([LF] ++ js "c") ].

(** What holds of the variables of [markdownFolding] after [n] titles and
    code blocks: every fold has a start, the open titles are those of the
    levels up to [levels], each with its offset, and each title or code
    block is either folded or open. *)
Definition md_inv (st : mdState) (n : Z) : Prop :=
  Forall (λ f : mdFold, is_Some f.1) (md_folds st)
  ∧ match md_levels st with
    | None => Z.of_nat (length (md_folds st)) = n
    | Some levels =>
        0 <= levels
        ∧ Z.of_nat (length (md_folds st)) + levels + 1 = n
        ∧ ∀ k, 0 <= k → k <= levels → is_Some (md_openTitles st !! k)
    end.

(** The offsets stored for the titles that are open: the entries of
    [openTitles] for the levels up to [levels]. *)
Definition openStarts (st : mdState) : list (option Z) :=
  match md_levels st with
  | None => []
  | Some levels => map (λ k, md_openTitles st !! k) (seqZ 0 (levels + 1))
  end.

(** The starts that a token list calls for, in the order of the tokens:
    the start of the fold of each code block and the offset of each title,
    at the position of the token. *)
Fixpoint expectedStarts (pos : Z) (tokenList : list token) : list (option Z) :=
  match tokenList with
  | [] => []
  | Chars s :: rest => expectedStarts (pos + Js.len s) rest
  | Token type alias content length :: rest =>
      (if bool_decide (type = js "code") && negb (truthy alias) then
         match codeFold content pos length with
         | Some f => [f.1]
         | None => []
         end
       else [])
      ++ (if bool_decide (type = js "title") then
            match titleLevel content pos length with
            | Some (_, offset) => [Some offset]
            | None => []
            end
          else [])
      ++ expectedStarts (pos + length) rest
  end.

(** The pairs of a matcher point to elements of its array: there is an
    element for each index of [pairs], and for each partner. *)
Definition pairs_in_range {A} (elements : list A) (pairs : list (option nat))
  : Prop :=
  (length pairs <= length elements)%nat
  ∧ ∀ i j, pairs !! i = Some (Some j) → (j < length elements)%nat.

(** The instance that [createFolds] builds for a text without matchers,
    with one provider that returns the given ranges. *)
Definition provided (text : jsstring) (ranges : list range) : option closure :=
  createFolds text None None [λ _, ranges].

(** ** Toggles of the view *)

(** [a] lies inside [b] and starts later; [a] lies within [b]. *)
Definition nested (a b : range) : Prop := b.1 < a.1 ∧ a.2 <= b.2.

Definition within (a b : range) : Prop := b.1 <= a.1 ∧ a.2 <= b.2.

(** The anchors of two lines are disjoint, or one lies inside the other
    and starts later: the table of the brackets or tags of a well-formed
    text. *)
Definition laminar (fp : gmap nat range) : Prop :=
  ∀ l1 l2 (r1 r2 : range), fp !! l1 = Some r1 → fp !! l2 = Some r2 →
    l1 = l2 ∨ disjoint r1 r2 ∨ nested r1 r2 ∨ nested r2 r1.

(** In the order of the set, no line comes after a line whose anchor its
    own anchor lies inside. *)
Fixpoint inner_first (fp : gmap nat range) (lines : list nat) : Prop :=
  match lines with
  | [] => True
  | l :: rest =>
      (∀ l' (r r' : range), l' ∈ rest → fp !! l = Some r → fp !! l' = Some r' →
         ¬ nested r' r)
      ∧ inner_first fp rest
  end.

(** What holds of the two sets when only lines whose toggle is shown are
    toggled: the folded ranges are pairwise disjoint, each is the anchor of a
    folded line, and the anchor of each folded line lies within one of
    them. *)
Record gated_inv (fp : gmap nat range) (st : store) : Prop := mkGated {
  gated_store : store_inv fp st;
  gated_disjoint : non_overlapping (foldedRanges st);
  gated_anchors : ∀ r : range, r ∈ foldedRanges st →
                    ∃ l, l ∈ foldedLines st ∧ fp !! l = Some r;
  gated_covered : ∀ l (r : range), l ∈ foldedLines st → fp !! l = Some r →
                    ∃ c : range, c ∈ foldedRanges st ∧ within r c;
  gated_order : inner_first fp (foldedLines st)
}.

(** The states reached from the empty sets by [toggleFold (line)] on lines
    whose anchor starts at an offset that is not hidden, the lines for which
    [updateFolds] shows a toggle. *)
Inductive gated (fp : gmap nat range) : store → Prop :=
| gated_empty : gated fp emptyStore
| gated_toggle st line (r : range) :
    gated fp st → fp !! line = Some r → ¬ hidden (foldedRanges st) r.1 →
    gated fp (snd (toggleFold fp line st)).

(** The calls of a batch are made on lines whose toggle is shown: when
    a call is made, the anchor of its line, if it has one, starts at an
    offset that no folded range hides. *)
Fixpoint visible_calls (calls : list (nat * option bool)) (c : closure) : bool :=
  match calls with
  | [] => true
  | call :: rest =>
      match foldPositions c !! call.1 with
      | Some r => negb (existsb (inside r.1) (foldedRanges (sets c)))
      | None => true
      end
      && visible_calls rest (snd (folding.toggleFold c call.1 call.2))
  end.

(** A text of four lines and a table of valid anchors in which the anchor
    of line 1 ends inside the anchor of line 3. *)
Definition crossing_text : jsstring :=
  js "abcd" ++ [LF] ++ js "fghijk" ++ [LF] ++ js "mn" ++ [LF] ++ js "pqrstu".

Definition crossing_table : gmap nat range :=
  {[ 1%nat := (4, 13); 2%nat := (5, 10); 3%nat := (12, 20); 4%nat := (15, 18) ]}.



(** ** Line numbers of the folded view *)

(** [j += skippedLines[i - 1] || 1], for [i] from 1: the number that the
    last loop of [update] writes to [data-line] of [lines[i]]. *)
Fixpoint dataLine (skippedLines : gmap Z Z) (i : nat) : Z :=
  match i with
  | O => 0
  | S n =>
      dataLine skippedLines n
      + match skippedLines !! Z.of_nat n with
        | Some k => if k =? 0 then 1 else k
        | None => 1
        end
  end.

(** Number of line feeds of the text from offset [a] to offset [b]. *)
Definition lineFeeds (text : list ascii) (a b : Z) : Z :=
  countLF (take (Z.to_nat (b - a)) (drop (Z.to_nat a) text)).

(** Number of line feeds in the ranges that end at [pos] or before. *)
Fixpoint hiddenLF (text : list ascii) (pos : Z) (ranges : list range) : Z :=
  match ranges with
  | [] => 0
  | r :: rest =>
      (if r.2 <=? pos then lineFeeds text r.1 r.2 else 0) + hiddenLF text pos rest
  end.

(** * Lemmas *)

(** ** Sorting by start *)

Lemma insert_by_start_perm r l : insert_by_start r l ≡ₚ r :: l.
Proof.
  induction l as [|r' l IH]; simpl; [done|].
  destruct (r.1 <=? r'.1); [done|].
  rewrite IH. apply Permutation_swap.
Qed.

Lemma sort_by_start_perm l : sort_by_start l ≡ₚ l.
Proof.
  induction l as [|r l IH]; simpl; [done|].
  rewrite insert_by_start_perm. by rewrite IH.
Qed.

Lemma insert_by_start_sorted r l :
  ascending l → ascending (insert_by_start r l).
Proof.
  unfold ascending. induction 1 as [|r' l Hs IH Hhd]; simpl.
  - repeat constructor.
  - destruct (r.1 <=? r'.1) eqn:E.
    + constructor; [by constructor|]. constructor. lia.
    + constructor; [done|].
      destruct l as [|r'' l]; simpl in *.
      * constructor. lia.
      * destruct (r.1 <=? r''.1); constructor; [lia|].
        by inversion Hhd.
Qed.

Lemma sort_by_start_sorted l : ascending (sort_by_start l).
Proof.
  induction l; simpl; [constructor|]. by apply insert_by_start_sorted.
Qed.

(** ** [getPosition] in closed form *)

Lemma getPosition_loop_closed pos res ranges :
  getPosition_loop pos res ranges =
  if existsb (inside pos) ranges then -1 else res - shrinkage pos ranges.
Proof.
  revert res. induction ranges as [|[s e] l IH]; intros res; simpl.
  - lia.
  - unfold inside at 1. simpl.
    rewrite Z.gtb_ltb.
    destruct (s <? pos) eqn:E1; simpl; [|rewrite IH; destruct (existsb _ l); lia].
    destruct (pos <? e) eqn:E2; simpl; [done|].
    assert ((e <=? pos) = true) as -> by lia.
    rewrite IH. destruct (existsb _ l); lia.
Qed.

Lemma existsb_inside_hidden pos ranges :
  existsb (inside pos) ranges = true ↔ hidden ranges pos.
Proof.
  rewrite existsb_exists. unfold hidden, inside. split.
  - intros (r & Hin & H). exists r. rewrite list_elem_of_In. split; [done|lia].
  - intros (r & Hin & H). exists r. rewrite <- list_elem_of_In. split; [done|lia].
Qed.

Lemma existsb_inside_perm pos l l' :
  l ≡ₚ l' → existsb (inside pos) l = existsb (inside pos) l'.
Proof.
  induction 1; simpl; try congruence.
  - destruct (inside pos x), (inside pos y); done.
Qed.

Lemma shrinkage_perm pos l l' : l ≡ₚ l' → shrinkage pos l = shrinkage pos l'.
Proof. induction 1; simpl; lia. Qed.

Lemma getPosition_perm pos l l' :
  l ≡ₚ l' → getPosition l pos = getPosition l' pos.
Proof.
  intros H. unfold getPosition. rewrite !getPosition_loop_closed.
  by rewrite (existsb_inside_perm _ _ _ H), (shrinkage_perm _ _ _ H).
Qed.

Lemma shrinkage_upto_valid pos l :
  Forall valid l → shrinkage pos l = shrinkage_upto pos l.
Proof.
  induction 1 as [|[s e] l Hv _ IH]; simpl; [done|].
  unfold valid in Hv; simpl in Hv. rewrite IH.
  destruct (e <=? pos) eqn:E.
  - assert ((s <? pos) = true) as -> by lia. done.
  - by rewrite andb_false_r.
Qed.

(** ** Pairwise disjoint ranges *)

Lemma disjoint_sym a b : disjoint a b → disjoint b a.
Proof. unfold disjoint. lia. Qed.

Lemma non_overlapping_perm l l' :
  l ≡ₚ l' → non_overlapping l → non_overlapping l'.
Proof.
  induction 1 as [|x l l' Hp IH|x y l|l l' l'' _ IH1 _ IH2]; simpl; [done|..].
  - intros [Hx Hl]. split; [by rewrite <- Hp | auto].
  - intros [Hy [Hx Hl]]. inversion Hy as [|? ? Hyx Hyl]; subst.
    repeat split; try done.
    constructor; [by apply disjoint_sym | done].
  - auto.
Qed.

Lemma ascending_head_le r l :
  ascending (r :: l) → Forall (λ r' : range, r.1 <= r'.1) l.
Proof.
  intros H. apply Sorted_extends in H; [done|].
  intros a b c. simpl. lia.
Qed.

(** Disjoint valid ranges that end at or before [pos] and start at or after
    [lo] have a total length of at most [pos - lo]. *)
Lemma shrinkage_bound_sorted pos l : ∀ lo,
  lo <= pos →
  Forall (λ r : range, lo <= r.1) l → ascending l → non_overlapping l →
  Forall valid l → lo + shrinkage pos l <= pos.
Proof.
  induction l as [|[s e] l IH]; intros lo Hlo Hge Hs Hd Hv; simpl; [lia|].
  apply Forall_cons in Hge as [Hge1 Hge]. simpl in Hge1.
  apply Forall_cons in Hv as [Hv1 Hv]. unfold valid in Hv1. simpl in Hv1.
  destruct Hd as [Hd1 Hd].
  pose proof (ascending_head_le _ _ Hs) as Hle. simpl in Hle.
  assert (ascending l) as Hs' by (by inversion Hs).
  destruct ((s <? pos) && (e <=? pos)) eqn:E.
  - apply andb_true_iff in E as [E1 E2].
    assert (Forall (λ r : range, e <= r.1) l) as Hge'.
    { rewrite Forall_forall in *. intros r Hr.
      specialize (Hd1 r Hr). specialize (Hle r Hr). specialize (Hv r Hr).
      unfold disjoint, valid in *. simpl in *. lia. }
    specialize (IH e ltac:(lia) Hge' Hs' Hd Hv). lia.
  - assert (Forall (λ r : range, lo <= r.1) l) as Hge'.
    { rewrite Forall_forall in *. intros r Hr. specialize (Hle r Hr). lia. }
    specialize (IH lo Hlo Hge' Hs' Hd Hv). lia.
Qed.

Lemma shrinkage_bound pos l :
  0 <= pos → Forall (λ r : range, 0 <= r.1) l → non_overlapping l →
  Forall valid l → shrinkage pos l <= pos.
Proof.
  intros Hp Hge Hd Hv.
  pose proof (sort_by_start_perm l) as Hperm.
  rewrite <- (shrinkage_perm pos _ _ Hperm).
  pose proof (shrinkage_bound_sorted pos (sort_by_start l) 0 Hp) as H.
  rewrite Z.add_0_l in H. apply H.
  - by rewrite Hperm.
  - apply sort_by_start_sorted.
  - eapply non_overlapping_perm; [symmetry; exact Hperm | done].
  - by rewrite Hperm.
Qed.

(** * The coordinate mapper *)

(** C10, the claim fails: the value is not the offset minus the total of
    [end - start - 3] over the ranges with [end <= pos] when a folded range
    is not valid.  The instance of the block comment that is not closed
    anchors [(2, 1)] on line 1, and the public [toggleFold] folds it; no
    range strictly contains offset 2, where the code, like the walk over
    the sorted ranges, gives 2, since the range does not start before the
    offset, and the formula of the claim gives 2 - (1 - 2 - 3) = 6. *)
Lemma getPosition_invalid_range :
  ∃ c, unterminated_instance = Some c
       ∧ foldedRanges (sets (snd (folding.toggleFold c 1 None))) = [(2, 1)]
       ∧ existsb (inside 2) [(2, 1)] = false
       ∧ getPosition [(2, 1)] 2 = 2
       ∧ toViewOffset_sorted [(2, 1)] 2 = 2
       ∧ 2 - shrinkage_upto 2 [(2, 1)] = 6
       ∧ getPosition (foldedRanges (sets (snd (folding.toggleFold c 1 None)))) 2
         ≠ (if existsb (inside 2)
                 (foldedRanges (sets (snd (folding.toggleFold c 1 None))))
            then -1
            else 2 - shrinkage_upto 2
                       (foldedRanges (sets (snd (folding.toggleFold c 1 None))))).
Proof.
  eexists. split; [reflexivity|]. repeat (split; [by vm_compute|]).
  vm_compute. discriminate.
Qed.

(** C10, as amended: [getPosition] depends only on the set of folded
    ranges, not on the order in which the set enumerates them: for any two
    enumerations of the same ranges the walk in insertion order made by the
    code gives the value of the walk over the ranges sorted by start of the
    specification, which is [-1] if a range strictly contains the offset and
    otherwise the offset minus the total of [end - start - 3] over the
    ranges with [start < pos] and [end <= pos]; when every range is valid
    ([start < end]) these are the ranges with [end <= pos]. *)
Theorem getPosition_order_independent (pos : Z) (ranges ranges' : list range) :
  ranges ≡ₚ ranges' →
  getPosition ranges pos = getPosition ranges' pos
  ∧ getPosition ranges pos = toViewOffset_sorted ranges' pos
  ∧ getPosition ranges pos =
      (if existsb (inside pos) ranges then -1 else pos - shrinkage pos ranges)
  ∧ (Forall valid ranges → shrinkage pos ranges = shrinkage_upto pos ranges).
Proof.
  intros Hperm. split; [by apply getPosition_perm|]. split; [|split].
  - unfold toViewOffset_sorted. fold (getPosition (sort_by_start ranges') pos).
    apply getPosition_perm. by rewrite sort_by_start_perm.
  - apply getPosition_loop_closed.
  - apply shrinkage_upto_valid.
Qed.

Lemma getPosition_order_independent_witness :
  [(10, 20); (0, 5); (30, 40)] ≡ₚ [(0, 5); (30, 40); (10, 20)]
  ∧ Forall valid [(10, 20); (0, 5); (30, 40)]
  ∧ getPosition [(10, 20); (0, 5); (30, 40)] 25 = 16
  ∧ toViewOffset_sorted [(0, 5); (30, 40); (10, 20)] 25 = 16
  ∧ shrinkage_upto 25 [(10, 20); (0, 5); (30, 40)] = 9.
Proof.
  assert ([(10, 20); (0, 5); (30, 40)] ≡ₚ [(0, 5); (30, 40); (10, 20)]) as Hperm.
  { change ([(10, 20)] ++ [(0, 5); (30, 40)] ≡ₚ [(0, 5); (30, 40)] ++ [(10, 20)]).
    apply Permutation_app_comm. }
  assert (Forall valid [(10, 20); (0, 5); (30, 40)]) as Hvalid.
  { repeat constructor; unfold valid; simpl; lia. }
  destruct (getPosition_order_independent 25 _ _ Hperm) as (_ & H2 & H3 & H4).
  split; [exact Hperm|]. split; [exact Hvalid|].
  split; [exact H3|]. split; [rewrite <- H2; exact H3|].
  rewrite <- (H4 Hvalid). reflexivity.
Defined.

(** C2, the claim fails: on the text in braces, after the public calls
    [toggleFold(1)] and [toggleFold(2)] the set holds [(1, 13)] and the
    nested [(3, 11)]; offset 13, the end of the first anchor, is inside
    neither, and [getPosition] gives 13 - 9 - 5, which is the sentinel. *)
Lemma getPosition_sentinel_without_hidden :
  createFolds braces_text None (Some braces_matcher) [] = Some braces
  ∧ foldedRanges (sets (run [(1%nat, None); (2%nat, None)] braces))
    = [(1, 13); (3, 11)]
  ∧ ¬ (getPosition [(1, 13); (3, 11)] 13 = -1 ↔ hidden [(1, 13); (3, 11)] 13).
Proof.
  split; [by vm_compute|]. split; [by vm_compute|].
  intros [H _]. destruct (H eq_refl) as (r & Hin & H1 & H2).
  repeat (apply elem_of_cons in Hin as [->|Hin]); simpl in *; try lia.
  by apply elem_of_nil in Hin.
Qed.

(** C2, as amended: for every offset and every set of folded ranges,
    [getPosition] gives [-1] if some range strictly contains the offset, and
    otherwise the offset minus [end - start - 3] for each range with
    [start < pos] and [pos >= end]; that value differs from the sentinel, so
    that [-1] is given exactly for the hidden offsets, when the offset is not
    negative and the ranges are valid, start at non-negative offsets and are
    pairwise disjoint. *)
Theorem getPosition_hidden (pos : Z) (ranges : list range) :
  (hidden ranges pos → getPosition ranges pos = -1)
  ∧ (¬ hidden ranges pos → getPosition ranges pos = pos - shrinkage pos ranges)
  ∧ (0 <= pos → Forall (λ r : range, 0 <= r.1) ranges → Forall valid ranges →
     non_overlapping ranges →
     (getPosition ranges pos = -1 ↔ hidden ranges pos)).
Proof.
  unfold getPosition. rewrite getPosition_loop_closed.
  pose proof (existsb_inside_hidden pos ranges) as Hh.
  destruct (existsb (inside pos) ranges) eqn:E.
  - assert (hidden ranges pos) as Hhid by (by apply Hh).
    split; [done|]. split; [done|]. done.
  - assert (¬ hidden ranges pos) as Hhid by (intros H; apply Hh in H; done).
    split; [done|]. split; [done|].
    intros Hp Hge Hv Hd.
    pose proof (shrinkage_bound pos ranges Hp Hge Hd Hv).
    split; [lia | done].
Qed.

Lemma getPosition_hidden_witness :
  hidden [(0, 5); (10, 20)] 12
  ∧ getPosition [(0, 5); (10, 20)] 12 = -1
  ∧ ¬ hidden [(0, 5); (10, 20)] 25
  ∧ getPosition [(0, 5); (10, 20)] 25 = 25 - shrinkage 25 [(0, 5); (10, 20)]
  ∧ (getPosition [(0, 5); (10, 20)] 25 = -1 ↔ hidden [(0, 5); (10, 20)] 25).
Proof.
  assert (hidden [(0, 5); (10, 20)] 12) as H12.
  { exists (10, 20). split; [set_solver | simpl; lia]. }
  assert (¬ hidden [(0, 5); (10, 20)] 25) as H25.
  { intros (r & Hin & H1 & H2).
    repeat (apply elem_of_cons in Hin as [->|Hin]); simpl in *; try lia.
    by apply elem_of_nil in Hin. }
  destruct (getPosition_hidden 12 [(0, 5); (10, 20)]) as (Ha & _ & _).
  destruct (getPosition_hidden 25 [(0, 5); (10, 20)]) as (_ & Hb & Hc).
  split; [exact H12|]. split; [exact (Ha H12)|].
  split; [exact H25|]. split; [exact (Hb H25)|].
  apply Hc.
  - lia.
  - repeat constructor; simpl; lia.
  - repeat constructor; unfold valid; simpl; lia.
  - simpl. repeat split; repeat constructor. unfold disjoint; simpl; lia.
Defined.

(** * The fold store *)

#[local] Arguments Set_has : simpl never.
#[local] Arguments Set_add : simpl never.
#[local] Arguments Set_delete : simpl never.

(** ** Sets of line numbers *)

Lemma Set_has_true x s : Set_has x s = true ↔ x ∈ s.
Proof. unfold Set_has. apply bool_decide_eq_true. Qed.

Lemma Set_has_false x s : Set_has x s = false ↔ x ∉ s.
Proof. unfold Set_has. apply bool_decide_eq_false. Qed.

Lemma elem_of_Set_add y x s : y ∈ Set_add x s ↔ y = x ∨ y ∈ s.
Proof.
  unfold Set_add. destruct (Set_has x s) eqn:E.
  - apply Set_has_true in E. split; [auto|]. by intros [->|].
  - rewrite elem_of_app, list_elem_of_singleton. tauto.
Qed.

Lemma elem_of_Set_delete y x s : y ∈ Set_delete x s ↔ y ≠ x ∧ y ∈ s.
Proof. unfold Set_delete. by rewrite list_elem_of_filter. Qed.

Lemma NoDup_Set_add x s : NoDup s → NoDup (Set_add x s).
Proof.
  intros H. unfold Set_add. destruct (Set_has x s) eqn:E; [done|].
  apply Set_has_false in E. apply NoDup_app. split; [done|].
  split; [|apply NoDup_singleton].
  intros y Hy ->%list_elem_of_singleton. done.
Qed.

Lemma Set_delete_absent x s : x ∉ s → Set_delete x s = s.
Proof.
  unfold Set_delete. induction s as [|y s IH]; intros Hx; [done|].
  apply not_elem_of_cons in Hx as [Hne Hx].
  rewrite filter_cons_True by done. by rewrite IH.
Qed.

Lemma NoDup_Set_delete x s : NoDup s → NoDup (Set_delete x s).
Proof. apply NoDup_filter. Qed.

(** ** The scan of [addFold] *)

Lemma Forall_filter_keep {A} (P Q : A → Prop) `{!∀ x, Decision (P x)} (l : list A) :
  Forall Q l → Forall Q (filter P l).
Proof.
  rewrite !Forall_forall. intros HQ x [_ Hx]%list_elem_of_filter. auto.
Qed.

Lemma addFold_scan_expanded s e l :
  addFold_scan s e true l = (filter (λ r, covers_start s e r = false) l, true).
Proof.
  induction l as [|r l IH]; simpl; [done|].
  destruct (covers_start s e r) eqn:E.
  - rewrite IH. rewrite filter_cons_False; [done|]. by rewrite E.
  - rewrite IH. simpl. rewrite filter_cons_True; done.
Qed.

(** Either no range is absorbed and the set is left as it is, or the first
    absorbed range is widened in place and the later ones are deleted. *)
Lemma addFold_scan_cases s e l :
  (Forall (λ r, covers_start s e r = false) l
   ∧ addFold_scan s e false l = (l, false))
  ∨ (∃ l1 r l2,
       l = l1 ++ r :: l2
       ∧ Forall (λ r, covers_start s e r = false) l1
       ∧ covers_start s e r = true
       ∧ addFold_scan s e false l =
           (l1 ++ (s, Z.max e r.2) :: filter (λ r, covers_start s e r = false) l2,
            true)).
Proof.
  induction l as [|r l IH]; simpl.
  - left. split; [constructor | done].
  - destruct (covers_start s e r) eqn:E.
    + right. exists [], r, l. simpl. repeat split; [constructor | done |].
      rewrite addFold_scan_expanded. simpl.
      do 2 f_equal. f_equal.
      rewrite Z.gtb_ltb. destruct (r.2 <? e) eqn:E'; lia.
    + destruct IH as [[Hall Heq] | (l1 & r' & l2 & -> & Hall & Hc & Heq)].
      * left. rewrite Heq. split; [by constructor | done].
      * right. exists (r :: l1), r', l2. rewrite Heq. simpl.
        repeat split; try done. by constructor.
Qed.

Lemma addFold_range_cases s e l :
  (Forall (λ r, covers_start s e r = false) l
   ∧ addFold_range s e l = l ++ [(s, e)])
  ∨ (∃ l1 r l2,
       l = l1 ++ r :: l2
       ∧ Forall (λ r, covers_start s e r = false) l1
       ∧ covers_start s e r = true
       ∧ addFold_range s e l =
           l1 ++ (s, Z.max e r.2) :: filter (λ r, covers_start s e r = false) l2).
Proof.
  unfold addFold_range.
  destruct (addFold_scan_cases s e l)
    as [[Hall Heq] | (l1 & r & l2 & -> & Hall & Hc & Heq)]; rewrite Heq; simpl.
  - by left.
  - right. by exists l1, r, l2.
Qed.

Lemma not_covers_start_ne s e (r : range) :
  s < e → covers_start s e r = false → r.1 ≠ s.
Proof. unfold covers_start. intros Hv H Heq. rewrite Heq in H. lia. Qed.

Lemma addFold_range_valid s e l :
  s < e → Forall valid l → Forall valid (addFold_range s e l).
Proof.
  intros Hv Hl.
  destruct (addFold_range_cases s e l)
    as [[_ ->] | (l1 & r & l2 & -> & _ & _ & ->)].
  - apply Forall_app. split; [done|]. by repeat constructor.
  - apply Forall_app in Hl as [H1 H2]. apply Forall_cons in H2 as [Hr H2].
    apply Forall_app. split; [done|]. constructor.
    + unfold valid in *. simpl. lia.
    + by apply Forall_filter_keep.
Qed.

Lemma addFold_range_starts s e l :
  s < e → NoDup l.*1 → NoDup (addFold_range s e l).*1.
Proof.
  intros Hv Hl.
  destruct (addFold_range_cases s e l)
    as [[Hall ->] | (l1 & r & l2 & -> & Hall & _ & ->)].
  - rewrite fmap_app. simpl. apply NoDup_app. split; [done|].
    split; [|apply NoDup_singleton].
    intros x Hx ->%list_elem_of_singleton.
    apply list_elem_of_fmap in Hx as (r & Hr1 & Hr2).
    rewrite Forall_forall in Hall. specialize (Hall r Hr2).
    symmetry in Hr1. revert Hr1. by eapply not_covers_start_ne.
  - rewrite fmap_app, fmap_cons in *. simpl.
    apply NoDup_app in Hl as (H1 & H12 & H2).
    apply NoDup_cons in H2 as [_ H2].
    set (keep := filter (λ r, covers_start s e r = false) l2).
    assert (∀ x, x ∈ keep.*1 → x ∈ l2.*1 ∧ x ≠ s) as Hkeep.
    { intros x (r' & -> & Hr')%list_elem_of_fmap.
      apply list_elem_of_filter in Hr' as [Hc Hr'].
      split; [by apply list_elem_of_fmap_2 | by eapply not_covers_start_ne]. }
    apply NoDup_app. split; [done|]. split.
    + intros x Hx1 [->|Hx2]%elem_of_cons.
      * apply list_elem_of_fmap in Hx1 as (r' & Hr1 & Hr2).
        rewrite Forall_forall in Hall. specialize (Hall r' Hr2).
        symmetry in Hr1. revert Hr1. by eapply not_covers_start_ne.
      * apply Hkeep in Hx2 as [Hx2 _]. apply (H12 x Hx1). by right.
    + apply NoDup_cons. split.
      * intros Hs. by apply Hkeep in Hs as [_ Hs].
      * eapply sublist_NoDup; [exact H2|].
        apply fmap_sublist, sublist_filter.
Qed.


(** ** The unfold branch *)

Lemma deleteFirst_Some start l l' :
  deleteFirst start l = Some l' →
  ∃ l1 r l2, l = l1 ++ r :: l2 ∧ r.1 = start ∧ l' = l1 ++ l2.
Proof.
  revert l'. induction l as [|r l IH]; intros l'; simpl; [done|].
  destruct (start =? r.1) eqn:E.
  - intros [= <-]. exists [], r, l. split; [done|]. split; [lia | done].
  - destruct (deleteFirst start l) as [l0|]; simpl; [|done].
    intros [= <-]. destruct (IH l0 eq_refl) as (l1 & r' & l2 & -> & Hr & ->).
    by exists (r :: l1), r', l2.
Qed.

Lemma deleteFirst_None start l :
  deleteFirst start l = None → Forall (λ r : range, r.1 ≠ start) l.
Proof.
  induction l as [|r l IH]; simpl; [constructor|].
  destruct (start =? r.1) eqn:E; [done|].
  destruct (deleteFirst start l); simpl; [done|].
  intros _. constructor; [lia | by apply IH].
Qed.


Lemma addFold_range_ok s e l : s < e → ranges_ok l → ranges_ok (addFold_range s e l).
Proof.
  intros Hv [H1 H2]. split.
  - by apply addFold_range_valid.
  - by apply addFold_range_starts.
Qed.

Lemma deleteFirst_ok start l l' :
  deleteFirst start l = Some l' → ranges_ok l → ranges_ok l'.
Proof.
  intros (l1 & r & l2 & -> & _ & ->)%deleteFirst_Some [H1 H2]. split.
  - apply Forall_app in H1 as [H1 H1']. apply Forall_cons in H1' as [_ H1'].
    apply Forall_app. done.
  - eapply sublist_NoDup; [exact H2|].
    apply fmap_sublist, sublist_app; [done|]. by apply sublist_cons.
Qed.

Section StoreInvariant.

Variable fp : gmap nat range.
Hypothesis fp_valid : valid_table fp.

Lemma reAdd_ok start lines ranges :
  (∀ line, line ∈ lines → is_Some (fp !! line)) →
  ranges_ok ranges →
  fst (reAdd fp start lines ranges) = Normal
  ∧ ranges_ok (snd (reAdd fp start lines ranges)).
Proof.
  revert ranges. induction lines as [|line lines IH]; intros ranges Hl Hr; simpl.
  - done.
  - destruct (Hl line) as [[s e] Hline]; [by left|].
    assert (∀ l, l ∈ lines → is_Some (fp !! l)) as Hl'
      by (intros l Hin; apply Hl; by right).
    rewrite Hline. unfold addFold. rewrite Hline.
    destruct (s >? start); [|by apply IH].
    apply IH; [done|]. apply addFold_range_ok; [|done].
    by apply (fp_valid line (s, e)).
Qed.

(** The inner [toggleFold] on an anchored line never throws, and keeps
    the invariant. *)
Lemma toggleFold_ok line st :
  is_Some (fp !! line) → store_inv fp st →
  fst (toggleFold fp line st) = Normal ∧ store_inv fp (snd (toggleFold fp line st)).
Proof.
  intros [[s e] Hline] [Hnd Hanch Hv Hst].
  unfold toggleFold. rewrite Hline.
  destruct (Set_has line (foldedLines st)) eqn:Hhas.
  - assert (∀ l, l ∈ Set_delete line (foldedLines st) → is_Some (fp !! l)) as Hanch'.
    { intros l [_ Hl]%elem_of_Set_delete. auto. }
    destruct (deleteFirst s (foldedRanges st)) as [ranges'|] eqn:Hdel; simpl.
    + destruct (deleteFirst_ok _ _ _ Hdel (conj Hv Hst)) as [Hv' Hst'].
      destruct (reAdd_ok s _ ranges' Hanch' (conj Hv' Hst')) as [Hn [Hv'' Hst'']].
      split; [done|]. constructor; simpl; try done.
      by apply NoDup_Set_delete.
    + split; [done|]. constructor; simpl; try done.
      by apply NoDup_Set_delete.
  - unfold addFold. rewrite Hline. simpl. split; [done|].
    assert (s < e) as Hse by (by apply (fp_valid line (s, e))).
    destruct (addFold_range_ok s e _ Hse (conj Hv Hst)) as [Hv' Hst'].
    constructor; simpl; try done.
    + by apply NoDup_Set_add.
    + intros l [->|Hl]%elem_of_Set_add; [by eexists | auto].
Qed.

End StoreInvariant.

(** The loop that adds the folded lines again does not throw when each of
    them has an anchor. *)
Lemma reAdd_normal fp start lines ranges :
  (∀ line, line ∈ lines → is_Some (fp !! line)) →
  fst (reAdd fp start lines ranges) = Normal.
Proof.
  revert ranges. induction lines as [|line lines IH]; intros ranges Hl; simpl.
  - done.
  - destruct (Hl line) as [[s e] Hline]; [by left|].
    assert (∀ l, l ∈ lines → is_Some (fp !! l)) as Hl'
      by (intros l Hin; apply Hl; by right).
    rewrite Hline. unfold addFold. rewrite Hline.
    destruct (s >? start); by apply IH.
Qed.

(** The public [toggleFold] keeps the table and the text. *)
Lemma folding_toggleFold_frame c line force :
  foldPositions (snd (folding.toggleFold c line force)) = foldPositions c
  ∧ code (snd (folding.toggleFold c line force)) = code c
  ∧ value (snd (folding.toggleFold c line force)) = value c.
Proof.
  unfold folding.toggleFold.
  destruct (foldPositions c !! line); [|done].
  destruct (folding.differs _ _); [|done].
  destruct (fst (toggleFold _ _ _)); done.
Qed.

Lemma folding_toggleFold_ok c line force :
  valid_table (foldPositions c) → store_inv (foldPositions c) (sets c) →
  store_inv (foldPositions c) (sets (snd (folding.toggleFold c line force)))
  ∧ fst (folding.toggleFold c line force) ≠ Thrown.
Proof.
  intros Hfp Hinv. unfold folding.toggleFold.
  destruct (foldPositions c !! line) eqn:Hline; [|done].
  destruct (folding.differs _ _); [|done].
  destruct (toggleFold_ok _ Hfp line (sets c)) as [Hn Hinv']; [by eexists | done |].
  rewrite Hn. done.
Qed.

Lemma run_frame calls c :
  foldPositions (run calls c) = foldPositions c ∧ code (run calls c) = code c.
Proof.
  revert c. induction calls as [|[line force] calls IH]; intros c; simpl; [done|].
  destruct (IH (snd (folding.toggleFold c line force))) as [-> ->].
  destruct (folding_toggleFold_frame c line force) as (-> & -> & _). done.
Qed.

Lemma run_ok calls c :
  valid_table (foldPositions c) → store_inv (foldPositions c) (sets c) →
  store_inv (foldPositions c) (sets (run calls c)).
Proof.
  revert c. induction calls as [|[line force] calls IH]; intros c Hfp Hinv; simpl; [done|].
  destruct (folding_toggleFold_frame c line force) as (Hf & _ & _).
  destruct (folding_toggleFold_ok c line force Hfp Hinv) as [Hinv' _].
  rewrite <- Hf. apply IH; rewrite Hf; done.
Qed.

Lemma fresh_inv text fp : store_inv fp (sets (fresh text fp)).
Proof. constructor; simpl; try constructor. intros line Hl. by apply elem_of_nil in Hl. Qed.

(** ** Order and disjointness of the folded ranges *)

Lemma ascending_strict l : ascending l → NoDup l.*1 → strictly_ascending l.
Proof.
  unfold ascending, strictly_ascending.
  induction 1 as [|r l Hs IH Hhd]; intros Hnd; constructor.
  - apply IH. rewrite fmap_cons in Hnd. by apply NoDup_cons in Hnd as [_ Hnd].
  - destruct Hhd as [|r' l' Hle]; constructor.
    rewrite !fmap_cons in Hnd. apply NoDup_cons in Hnd as [Hnotin _].
    assert (r.1 ≠ r'.1) by (intros Heq; apply Hnotin; rewrite Heq; by left).
    lia.
Qed.

Lemma sort_by_start_strict l : NoDup l.*1 → strictly_ascending (sort_by_start l).
Proof.
  intros Hnd. apply ascending_strict; [apply sort_by_start_sorted|].
  by rewrite (sort_by_start_perm l).
Qed.

Lemma non_overlapping_sublist l' l :
  l' `sublist_of` l → non_overlapping l → non_overlapping l'.
Proof.
  induction 1 as [|x l1 l2 Hsub IH|x l1 l2 Hsub IH]; simpl; [done|..].
  - intros [Hx Hl]. split; [|auto].
    rewrite Forall_forall in *. intros y Hy. apply Hx.
    by eapply elem_of_sublist.
  - intros [_ Hl]. auto.
Qed.

Lemma non_overlapping_insert x l1 l2 :
  non_overlapping (l1 ++ l2) → Forall (disjoint x) (l1 ++ l2) →
  non_overlapping (l1 ++ x :: l2).
Proof.
  intros Hl Hx. apply (non_overlapping_perm (x :: l1 ++ l2)).
  - by rewrite Permutation_middle.
  - done.
Qed.

(** Folding a line whose start is not hidden keeps the ranges disjoint. *)
Lemma addFold_range_non_overlapping s e l :
  s < e → Forall valid l → non_overlapping l → ¬ hidden l s →
  non_overlapping (addFold_range s e l).
Proof.
  intros Hse Hv Hd Hvis.
  assert (∀ x : range, x ∈ l → covers_start s e x = false →
          x.2 <= s ∨ e <= x.1) as Hout.
  { intros x Hx Hc. rewrite Forall_forall in Hv. specialize (Hv x Hx).
    unfold covers_start, valid in *.
    destruct (decide (x.1 < s)) as [Hlt|Hge]; [|right; lia].
    left. destruct (decide (x.2 <= s)); [done|].
    exfalso. apply Hvis. exists x. split; [done | lia]. }
  destruct (addFold_range_cases s e l)
    as [[Hall ->] | (l1 & r & l2 & -> & Hall & Hc & ->)].
  - rewrite <- (app_nil_r (l ++ [(s, e)])), <- app_assoc. simpl.
    apply non_overlapping_insert; rewrite app_nil_r; [done|].
    rewrite Forall_forall in *. intros x Hx.
    destruct (Hout x Hx (Hall x Hx)); unfold disjoint; simpl; lia.
  - set (keep := filter (λ r, covers_start s e r = false) l2).
    assert (l1 ++ keep `sublist_of` l1 ++ r :: l2) as Hsub.
    { apply sublist_app; [done|]. apply sublist_cons, sublist_filter. }
    apply non_overlapping_insert; [by eapply non_overlapping_sublist|].
    assert (Forall (disjoint r) (l1 ++ keep)) as Hr.
    { apply (non_overlapping_perm _ (r :: l1 ++ l2)) in Hd;
        [|by rewrite Permutation_middle].
      destruct Hd as [Hd _]. rewrite Forall_forall in *. intros x Hx. apply Hd.
      apply elem_of_app in Hx as [Hx|Hx]; [set_solver|].
      apply list_elem_of_filter in Hx as [_ Hx]. set_solver. }
    assert (valid r) as Hvr.
    { rewrite Forall_forall in Hv. apply Hv. set_solver. }
    rewrite Forall_forall in *. intros x Hx.
    assert (x ∈ l1 ++ r :: l2) as Hxl by (by eapply elem_of_sublist).
    assert (covers_start s e x = false) as Hxc.
    { apply elem_of_app in Hx as [Hx|Hx]; [by apply Hall|].
      by apply list_elem_of_filter in Hx as [Hx _]. }
    specialize (Hv x Hxl). specialize (Hr x Hx).
    destruct (Hout x Hxl Hxc) as [H1|H1];
      unfold disjoint, covers_start, valid in *; simpl in *; lia.
Qed.

(** * Sequences of calls *)

Lemma braces_table_valid : valid_table braces_table.
Proof.
  intros line r. unfold braces_table, valid.
  rewrite !lookup_insert_Some, lookup_singleton_Some.
  intuition (subst; simpl; lia).
Qed.

(** C3, the failing input, on the text in braces: lines 2 and 1 are folded,
    in this order, so that the range of line 2 is absorbed in the range of
    line 1.  Toggling line 2 twice then leaves a second range [(3, 11)] in
    the set, inside the first: the set is not restored. *)
Theorem toggleFold_twice_absorbed_line :
  let c0 := run [(2%nat, None); (1%nat, None)] braces in
  let c2 := run [(2%nat, None); (2%nat, None)] c0 in
  createFolds braces_text None (Some braces_matcher) [] = Some braces
  ∧ sets c0 = mkStore [2%nat; 1%nat] [(1, 13)]
  ∧ sets c2 = mkStore [1%nat; 2%nat] [(1, 13); (3, 11)]
  ∧ ¬ foldedRanges (sets c2) ≡ₚ foldedRanges (sets c0).
Proof.
  split; [by vm_compute|]. split; [by vm_compute|]. split; [by vm_compute|].
  intros H. apply Permutation_length in H. vm_compute in H. done.
Qed.

(** * The public [toggleFold] *)

(** The call has toggled the line: it returns [true], and what is left to
    show is that the membership of the line has changed. *)
Ltac toggled :=
  eexists true, _; repeat split; try done; simpl; try (by eexists).

(** C8: on a line without an anchor the public [toggleFold] returns [false]
    and changes nothing, whatever [force] is.  In a state whose folded lines
    all have an anchor it always returns a boolean, which is [true] exactly
    when the state has changed, that is when the line has an anchor and, for
    [force = true], was not folded (it is folded afterwards), and for
    [force = false], was folded (it is not afterwards); with [force]
    omitted an anchored line is always toggled. *)
Theorem folding_toggleFold_result (c : closure) (lineNumber : nat)
    (force : option bool) :
  (foldPositions c !! lineNumber = None →
   folding.toggleFold c lineNumber force = (Returned false, c))
  ∧ ((∀ line, line ∈ foldedLines (sets c) → is_Some (foldPositions c !! line)) →
     ∃ b c',
       folding.toggleFold c lineNumber force = (Returned b, c')
       ∧ (b = false → c' = c)
       ∧ (b = true →
          sets c' ≠ sets c
          ∧ (lineNumber ∈ foldedLines (sets c') ↔ lineNumber ∉ foldedLines (sets c)))
       ∧ (b = true ↔
          is_Some (foldPositions c !! lineNumber)
          ∧ match force with
            | Some true => lineNumber ∉ foldedLines (sets c)
            | Some false => lineNumber ∈ foldedLines (sets c)
            | None => True
            end)).
Proof.
  split.
  { intros Hline. unfold folding.toggleFold. by rewrite Hline. }
  intros Hanch. unfold folding.toggleFold.
  destruct (foldPositions c !! lineNumber) as [[s e]|] eqn:Hline.
  2:{ exists false, c. repeat split; try done. by intros [[? ?] _]. }
  destruct (Set_has lineNumber (foldedLines (sets c))) eqn:Hhas.
  - (* the line is folded: only [force = true] leaves it alone *)
    pose proof (proj1 (Set_has_true _ _) Hhas) as Hin.
    assert (∀ l, l ∈ Set_delete lineNumber (foldedLines (sets c)) →
            is_Some (foldPositions c !! l)) as Hanch'.
    { intros l [_ Hl]%elem_of_Set_delete. auto. }
    assert (lineNumber ∉ Set_delete lineNumber (foldedLines (sets c))) as Hout.
    { intros [? _]%elem_of_Set_delete. done. }
    destruct force as [[]|]; simpl;
      [exists false, c; repeat split; try done; by intros [_ ?] | ..];
      unfold toggleFold; rewrite Hline, Hhas;
      (destruct (deleteFirst s (foldedRanges (sets c))) as [ranges'|]; simpl;
       [rewrite (reAdd_normal (foldPositions c) s _ ranges' Hanch')|]);
      toggled; intros Heq; apply Hout; rewrite <- Heq in Hin; exact Hin.
  - (* the line is not folded: only [force = false] leaves it alone *)
    pose proof (proj1 (Set_has_false _ _) Hhas) as Hnotin.
    assert (lineNumber ∈ Set_add lineNumber (foldedLines (sets c))) as Hadd.
    { apply elem_of_Set_add. by left. }
    destruct force as [[]|]; simpl;
      [| exists false, c; repeat split; try done; by intros [_ ?] |];
      unfold toggleFold; rewrite Hline, Hhas; unfold addFold; rewrite Hline; simpl;
      toggled; intros Heq; apply Hnotin; rewrite <- Heq; exact Hadd.
Qed.

Lemma folding_toggleFold_result_witness :
  foldPositions braces !! 7%nat = None
  ∧ folding.toggleFold braces 7 (Some true) = (Returned false, braces)
  ∧ (∀ line, line ∈ foldedLines (sets braces) →
             is_Some (foldPositions braces !! line))
  ∧ ∃ b c', folding.toggleFold braces 2 (Some true) = (Returned b, c')
            ∧ (b = true → sets c' ≠ sets braces).
Proof.
  assert (foldPositions braces !! 7%nat = None) as H7 by reflexivity.
  assert (∀ line, line ∈ foldedLines (sets braces) →
                  is_Some (foldPositions braces !! line)) as H.
  { intros line Hl. simpl in Hl. by apply elem_of_nil in Hl. }
  split; [exact H7|].
  split; [exact (proj1 (folding_toggleFold_result braces 7 (Some true)) H7)|].
  split; [exact H|].
  destruct (proj2 (folding_toggleFold_result braces 2 (Some true)) H)
    as (b & c' & Heq & _ & Hchange & _).
  exists b, c'. split; [exact Heq|]. intros Hb. exact (proj1 (Hchange Hb)).
Defined.

(** ** The anchor table *)

Lemma anchor_lookup text fp (c : range) :
  (∃ r, anchor text fp c !! anchorLine text c = Some r ∧ c.2 <= r.2)
  ∧ (∀ i r0, fp !! i = Some r0 →
       ∃ r, anchor text fp c !! i = Some r ∧ r0.2 <= r.2)
  ∧ (∀ i r, anchor text fp c !! i = Some r →
       fp !! i = Some r ∨ (r = c ∧ anchorLine text c = i)).
Proof.
  unfold anchor. fold (anchorLine text c).
  destruct (fp !! anchorLine text c) as [cur|] eqn:Hcur.
  - destruct (c.2 >? cur.2) eqn:E.
    + apply Z.gtb_lt in E. split; [|split].
      * exists c. rewrite lookup_insert_eq. split; [done | lia].
      * intros i r0 Hi. destruct (decide (i = anchorLine text c)) as [->|Hne].
        -- exists c. rewrite lookup_insert_eq. split; [done|].
           rewrite Hcur in Hi. injection Hi as <-. lia.
        -- exists r0. rewrite lookup_insert_ne by done. split; [done | lia].
      * intros i r. destruct (decide (i = anchorLine text c)) as [->|Hne].
        -- rewrite lookup_insert_eq. intros [= <-]. by right.
        -- rewrite lookup_insert_ne by done. by left.
    + assert (c.2 <= cur.2) as Hle.
      { rewrite Z.gtb_ltb in E. apply Z.ltb_ge in E. done. }
      split; [|split].
      * by exists cur.
      * intros i r0 Hi. exists r0. split; [done | lia].
      * intros i r Hi. by left.
  - split; [|split].
    + exists c. rewrite lookup_insert_eq. split; [done | lia].
    + intros i r0 Hi. destruct (decide (i = anchorLine text c)) as [->|Hne].
      * by rewrite Hcur in Hi.
      * exists r0. rewrite lookup_insert_ne by done. split; [done | lia].
    + intros i r. destruct (decide (i = anchorLine text c)) as [->|Hne].
      * rewrite lookup_insert_eq. intros [= <-]. by right.
      * rewrite lookup_insert_ne by done. by left.
Qed.

Lemma anchor_fold text folds : ∀ fp0,
  (∀ c : range, c ∈ folds →
     ∃ r, fold_left (anchor text) folds fp0 !! anchorLine text c = Some r
          ∧ c.2 <= r.2)
  ∧ (∀ i r0, fp0 !! i = Some r0 →
       ∃ r, fold_left (anchor text) folds fp0 !! i = Some r ∧ r0.2 <= r.2)
  ∧ (∀ i r, fold_left (anchor text) folds fp0 !! i = Some r →
       fp0 !! i = Some r ∨ (r ∈ folds ∧ anchorLine text r = i)).
Proof.
  induction folds as [|c folds IH]; intros fp0; simpl.
  - split; [|split].
    + intros c Hc. by apply elem_of_nil in Hc.
    + intros i r0 Hi. exists r0. split; [done | lia].
    + intros i r Hi. by left.
  - destruct (IH (anchor text fp0 c)) as (I1 & I2 & I3).
    destruct (anchor_lookup text fp0 c) as (S1 & S2 & S3).
    split; [|split].
    + intros c' [->|Hc']%elem_of_cons; [|by apply I1].
      destruct S1 as (r1 & Hr1 & Hle1).
      destruct (I2 _ _ Hr1) as (r & Hr & Hle). exists r. split; [done | lia].
    + intros i r0 Hi. destruct (S2 _ _ Hi) as (r1 & Hr1 & Hle1).
      destruct (I2 _ _ Hr1) as (r & Hr & Hle). exists r. split; [done | lia].
    + intros i r Hi. destruct (I3 _ _ Hi) as [H1|[H1 H2]].
      * destruct (S3 _ _ H1) as [H3|[-> H3]]; [by left|].
        right. split; [by left | done].
      * right. split; [by right | done].
Qed.

Lemma anchorTable_by_line text folds : anchored_by_line text (anchorTable text folds).
Proof.
  intros line r Hr.
  destruct (anchor_fold text folds ∅) as (_ & _ & I3).
  destruct (I3 _ _ Hr) as [He|[_ H]]; [by rewrite lookup_empty in He | done].
Qed.

Lemma createFolds_by_line text matchTags matchBrackets providers c :
  createFolds text matchTags matchBrackets providers = Some c →
  anchored_by_line (code c) (foldPositions c).
Proof.
  unfold createFolds. intros H.
  destruct (collectFolds text matchTags matchBrackets providers); simpl in H; [|done].
  injection H as <-. simpl. apply anchorTable_by_line.
Qed.






Lemma braces_created :
  createFolds braces_text None (Some braces_matcher) [] = Some braces.
Proof. by vm_compute. Qed.



(** * The line diff of the editor *)

Lemma Js_nth_of_nat {A} (l : list A) (i : nat) : Js.nth l (Z.of_nat i) = l !! i.
Proof.
  unfold Js.nth. destruct (Z.of_nat i <? 0) eqn:E.
  - apply Z.ltb_lt in E. lia.
  - by rewrite Nat2Z.id.
Qed.

Lemma same_true a b : Editor.same a b = true ↔ a = b.
Proof. unfold Editor.same. apply bool_decide_eq_true. Qed.

Lemma same_false a b : Editor.same a b = false ↔ a ≠ b.
Proof. unfold Editor.same. apply bool_decide_eq_false. Qed.

(** The forward cursor stops on the first index at which the arrays differ. *)
Lemma commonPrefix_stop newLines prevLines end1 k : ∀ fuel start,
  (start <= k)%nat → (k < end1)%nat → (k - start < fuel)%nat →
  (∀ i, (start <= i < k)%nat → newLines !! i = prevLines !! i) →
  newLines !! k ≠ prevLines !! k →
  Editor.commonPrefix fuel newLines prevLines end1 start = k.
Proof.
  induction fuel as [|fuel IH]; intros start Hle Hk Hfuel Heq Hne; [lia|].
  simpl. destruct (decide (start = k)) as [->|Hlt].
  - apply same_false in Hne. by rewrite Hne.
  - assert (Editor.same (newLines !! start) (prevLines !! start) = true) as ->.
    { apply same_true, Heq. lia. }
    assert ((start <? end1)%nat = true) as -> by (apply Nat.ltb_lt; lia).
    simpl. apply IH; try lia; [|done]. intros i Hi. apply Heq. lia.
Qed.

(** The backward cursors stop on the last index at which the arrays differ,
    when both arrays have the same length. *)
Lemma commonSuffix_stop newLines prevLines k : ∀ end1,
  (k < end1)%nat →
  (∀ i, (k < i < end1)%nat → newLines !! i = prevLines !! i) →
  newLines !! k ≠ prevLines !! k →
  Editor.commonSuffix newLines prevLines end1 (Z.of_nat end1) = (k, Z.of_nat k).
Proof.
  induction end1 as [|end1 IH]; intros Hk Heq Hne; [lia|].
  simpl Editor.commonSuffix.
  replace (Z.of_nat (S end1) - 1) with (Z.of_nat end1) by lia.
  rewrite Js_nth_of_nat.
  destruct (decide (end1 = k)) as [->|Hgt].
  - apply same_false in Hne. by rewrite Hne.
  - assert (Editor.same (newLines !! end1) (prevLines !! end1) = true) as ->.
    { apply same_true, Heq. lia. }
    apply IH; try lia; [|done]. intros i Hi. apply Heq. lia.
Qed.

(** C6: when the previous and the new array of lines have the same length
    and differ at index [k] only, both cursors of the diff end on [k]: the
    degenerate case is taken, and the patch replaces in place the content of
    line [k], and of no other line, by the new line; the lines after the
    patch are the new lines. *)
Theorem diff_single_line (prevLines newLines : list jsstring) (k : nat) :
  length prevLines = length newLines →
  (∀ i, i ≠ k → prevLines !! i = newLines !! i) →
  prevLines !! k ≠ newLines !! k →
  Editor.cursors prevLines (Z.of_nat (length prevLines)) newLines
  = (k, k, Z.of_nat k)
  ∧ Editor.diff prevLines (Z.of_nat (length prevLines)) newLines
    = Editor.SetLine k (newLines !! k)
  ∧ Editor.applyPatch
      (Editor.diff prevLines (Z.of_nat (length prevLines)) newLines)
      (Some <$> prevLines)
    = Some (Some <$> newLines).
Proof.
  intros Hlen Hsame Hdiff.
  assert (k < length newLines)%nat as Hk.
  { destruct (decide (k < length newLines)%nat) as [|Hge]; [done|].
    exfalso. apply Hdiff.
    rewrite !lookup_ge_None_2; [done | lia | lia]. }
  assert (Editor.cursors prevLines (Z.of_nat (length prevLines)) newLines
          = (k, k, Z.of_nat k)) as Hc.
  { unfold Editor.cursors.
    rewrite (commonPrefix_stop newLines prevLines (length newLines) k);
      try lia; try (intros i Hi; symmetry; apply Hsame; lia); [|congruence].
    rewrite Hlen.
    rewrite (commonSuffix_stop newLines prevLines k);
      try lia; try (intros i Hi; symmetry; apply Hsame; lia); [|congruence].
    done. }
  assert (Editor.diff prevLines (Z.of_nat (length prevLines)) newLines
          = Editor.SetLine k (newLines !! k)) as Hd.
  { unfold Editor.diff. rewrite Hc.
    rewrite Nat.eqb_refl, Z.eqb_refl. done. }
  split; [done|]. split; [done|].
  rewrite Hd. unfold Editor.applyPatch. rewrite length_fmap, Hlen.
  assert ((k <? length newLines)%nat = true) as -> by (apply Nat.ltb_lt; lia).
  f_equal. apply list_eq. intros i.
  destruct (decide (i = k)) as [->|Hne].
  - rewrite list_lookup_insert_eq by (rewrite length_fmap; lia).
    rewrite list_lookup_fmap.
    destruct (newLines !! k) eqn:E; [done|].
    apply lookup_ge_None in E. lia.
  - rewrite list_lookup_insert_ne by done.
    rewrite !list_lookup_fmap. by rewrite Hsame.
Qed.

Lemma diff_single_line_witness :
  Editor.diff [js "a"; js "b"; js "c"] 3 [js "a"; js "x"; js "c"]
  = Editor.SetLine 1 (Some (js "x")).
Proof.
  refine (proj1 (proj2
    (diff_single_line [js "a"; js "b"; js "c"] [js "a"; js "x"; js "c"] 1 _ _ _))).
  - reflexivity.
  - intros [|[|[|i]]] Hi; try reflexivity. exfalso. apply Hi. reflexivity.
  - simpl. intros H. discriminate H.
Defined.

(** * The view *)

Lemma relIndex_inbounds n i : 0 <= i → i <= n → Js.relIndex n i = i.
Proof.
  intros H1 H2. unfold Js.relIndex.
  destruct (i <? 0) eqn:E; [apply Z.ltb_lt in E; lia | lia].
Qed.

Lemma slice_inbounds text a b :
  0 <= a → a <= b → b <= Js.len text →
  Js.slice text a b = drop (Z.to_nat a) (take (Z.to_nat b) text).
Proof.
  intros Ha Hab Hb. unfold Js.slice.
  rewrite !relIndex_inbounds by lia.
  rewrite take_drop_commute. do 2 f_equal. lia.
Qed.

Lemma sliceFrom_inbounds text a :
  0 <= a → a <= Js.len text → Js.sliceFrom text a = drop (Z.to_nat a) text.
Proof.
  intros Ha Hb. unfold Js.sliceFrom. by rewrite relIndex_inbounds.
Qed.

Lemma chained_le lo l hi : chained lo l hi → lo <= hi.
Proof.
  revert lo. induction l as [|r l IH]; intros lo; simpl; [done|].
  intros (H1 & H2 & H3). apply IH in H3. lia.
Qed.

(** Replacing ranges that start at or after [lo] leaves the text before
    [lo] as it is. *)
Lemma replace_ranges_prefix text l : ∀ lo,
  0 <= lo → chained lo l (Js.len text) →
  take (Z.to_nat lo) (replace_ranges text l) = take (Z.to_nat lo) text.
Proof.
  induction l as [|r l IH]; intros lo Hlo Hc; simpl; [done|].
  destruct Hc as (H1 & H2 & H3).
  pose proof (chained_le _ _ _ H3) as Hle.
  unfold replace_range.
  assert (take (Z.to_nat r.1) (replace_ranges text l) = take (Z.to_nat r.1) text) as ->.
  { rewrite <- (Nat.min_l (Z.to_nat r.1) (Z.to_nat r.2)) by lia.
    rewrite <- !take_take. f_equal. apply IH; [lia | done]. }
  rewrite take_app_le.
  - rewrite take_take. f_equal. lia.
  - rewrite length_take. unfold Js.len in Hle. lia.
Qed.

Lemma update_loop_value text l : ∀ v,
  0 <= v_pos v → chained (v_pos v) l (Js.len text) →
  v_value (fold_left (update_step text) l v)
  ++ Js.sliceFrom text (v_pos (fold_left (update_step text) l v))
  = v_value v ++ drop (Z.to_nat (v_pos v)) (replace_ranges text l).
Proof.
  induction l as [|r l IH]; intros v Hpos Hc; simpl.
  - simpl in Hc. by rewrite sliceFrom_inbounds.
  - destruct Hc as (H1 & H2 & H3).
    pose proof (chained_le _ _ _ H3) as Hle.
    rewrite IH; simpl; [|lia|done].
    rewrite <- !app_assoc. f_equal.
    unfold replace_range.
    assert (take (Z.to_nat r.1) (replace_ranges text l) = take (Z.to_nat r.1) text) as ->.
    { rewrite <- (Nat.min_l (Z.to_nat r.1) (Z.to_nat r.2)) by lia.
      rewrite <- !take_take. f_equal. apply replace_ranges_prefix; [lia | done]. }
    rewrite drop_app_le.
    + by rewrite slice_inbounds by lia.
    + rewrite length_take. unfold Js.len in Hle. lia.
Qed.

Lemma ascending_chained l : ∀ lo hi,
  lo <= hi → ascending l → non_overlapping l → Forall valid l →
  Forall (λ r : range, lo <= r.1 ∧ r.2 <= hi) l → chained lo l hi.
Proof.
  induction l as [|r l IH]; intros lo hi Hle Hs Hd Hv Hb; simpl; [done|].
  apply Forall_cons in Hv as [Hv1 Hv]. apply Forall_cons in Hb as [[Hb1 Hb2] Hb].
  destruct Hd as [Hd1 Hd].
  pose proof (ascending_head_le _ _ Hs) as Hhd.
  unfold valid in Hv1.
  split; [done|]. split; [lia|].
  apply IH; try done.
  - by inversion Hs.
  - rewrite Forall_forall in *. intros r' Hr'.
    specialize (Hd1 r' Hr'). specialize (Hhd r' Hr').
    specialize (Hv r' Hr'). destruct (Hb r' Hr') as [_ Hhi].
    unfold disjoint, valid in *. simpl in *. lia.
Qed.

(** C5, the claim fails.  On its scenario the only candidate range of the
    text is the inside of the comment, [(4, 9)], so that the two delimiters
    stay in the view, and the marker is made of three no-break spaces: the
    view is not the text in which three dots, or the marker, stand for the
    whole comment.  And the view is the text with every folded range
    replaced only for folded ranges that are disjoint, valid and within the
    text, which the sets of an instance need not be: each of the four
    conditions fails on an instance that [createFolds] builds and the public
    [toggleFold] folds, with a view that is not the text with the ranges
    replaced.  On the text in braces lines 1 and 2 leave the overlapping
    [(1, 13)] and [(3, 11)]; a provider that returns [(0, 10)] and [(5, 0)]
    leaves a range that is not valid; one that returns [(-2, 3)] a range
    that starts before the text; one that returns [(0, 4)] and [(5, 6)] for a
    text of three code units ranges that end after it. *)
Lemma updateFolds_view_fails :
  (∃ c, comment_instance = Some c
        ∧ value (folding.updateFolds (snd (folding.toggleFold c 2 None)))
          ≠ js "A" ++ [LF] ++ js "..." ++ [LF] ++ js "B"
        ∧ value (folding.updateFolds (snd (folding.toggleFold c 2 None)))
          ≠ js "A" ++ [LF] ++ placeholder ++ [LF] ++ js "B"
        ∧ placeholder ≠ js "..." ∧ placeholder ≠ js "   ")
  ∧ (createFolds braces_text None (Some braces_matcher) [] = Some braces
     ∧ foldedRanges (sets (run [(1%nat, None); (2%nat, None)] braces))
       = [(1, 13); (3, 11)]
     ∧ Forall valid [(1, 13); (3, 11)]
     ∧ Forall (λ r : range, 0 <= r.1 ∧ r.2 <= Js.len braces_text) [(1, 13); (3, 11)]
     ∧ value (folding.updateFolds (run [(1%nat, None); (2%nat, None)] braces))
       ≠ replace_ranges braces_text (sort_by_start [(1, 13); (3, 11)]))
  ∧ (∃ c, provided (js "ab" ++ [LF] ++ js "cdefghijk") [(0, 10); (5, 0)] = Some c
          ∧ foldedRanges (sets (run [(1%nat, None); (2%nat, None)] c))
            = [(0, 10); (5, 0)]
          ∧ non_overlapping [(0, 10); (5, 0)]
          ∧ Forall (λ r : range, 0 <= r.1 ∧ r.2 <= Js.len (code c))
                   [(0, 10); (5, 0)]
          ∧ value (folding.updateFolds (run [(1%nat, None); (2%nat, None)] c))
            ≠ replace_ranges (code c) (sort_by_start [(0, 10); (5, 0)]))
  ∧ (∃ c, provided (js "abcdef") [(-2, 3)] = Some c
          ∧ foldedRanges (sets (run [(1%nat, None)] c)) = [(-2, 3)]
          ∧ Forall valid [(-2, 3)] ∧ non_overlapping [(-2, 3)]
          ∧ 3 <= Js.len (code c)
          ∧ value (folding.updateFolds (run [(1%nat, None)] c))
            ≠ replace_ranges (code c) (sort_by_start [(-2, 3)]))
  ∧ (∃ c, provided (js "a" ++ [LF] ++ js "b") [(0, 4); (5, 6)] = Some c
          ∧ foldedRanges (sets (run [(1%nat, None); (2%nat, None)] c))
            = [(0, 4); (5, 6)]
          ∧ Forall valid [(0, 4); (5, 6)] ∧ non_overlapping [(0, 4); (5, 6)]
          ∧ Forall (λ r : range, 0 <= r.1) [(0, 4); (5, 6)]
          ∧ value (folding.updateFolds (run [(1%nat, None); (2%nat, None)] c))
            ≠ replace_ranges (code c) (sort_by_start [(0, 4); (5, 6)])).
Proof.
  split; [|split; [|split; [|split]]].
  - eexists. split; [reflexivity|].
    split; [vm_compute; discriminate|]. split; [vm_compute; discriminate|].
    split; vm_compute; discriminate.
  - split; [by vm_compute|]. split; [by vm_compute|].
    split; [repeat constructor; unfold valid; simpl; lia|].
    split; [repeat constructor; simpl; unfold Js.len; simpl; lia|].
    vm_compute. discriminate.
  - eexists. split; [reflexivity|]. split; [by vm_compute|].
    split; [simpl; repeat split; repeat constructor; unfold disjoint; simpl; lia|].
    split; [repeat constructor; simpl; unfold Js.len; simpl; lia|].
    vm_compute. discriminate.
  - eexists. split; [reflexivity|]. split; [by vm_compute|].
    split; [repeat constructor; unfold valid; simpl; lia|].
    split; [simpl; repeat split; constructor|].
    split; [unfold Js.len; simpl; lia|].
    vm_compute. discriminate.
  - eexists. split; [reflexivity|]. split; [by vm_compute|].
    split; [repeat constructor; unfold valid; simpl; lia|].
    split; [simpl; repeat split; repeat constructor; unfold disjoint; simpl; lia|].
    split; [repeat constructor; simpl; lia|].
    vm_compute. discriminate.
Qed.

(** C5, as amended: [updateFolds] leaves in [value] the text in which
    every folded range is replaced by the marker, taking the ranges in
    ascending order of start, as long as the folded ranges are valid, lie
    within the text and are pairwise disjoint; the marker is made of three
    code units U+00A0 (no-break space); [updateFolds] does not change
    [fullCode], which after any calls of [toggleFold] and [updateFolds] on
    an instance is the text that [createFolds] read when it built the
    instance.  In the scenario of the block comment the anchor table holds
    the inside of the comment, [(4, 9)], on line 2; folding it makes the
    view the text with the marker between the two delimiters of the
    comment, and [fullCode] is the original text. *)
Theorem updateFolds_view (c : closure) :
  (Forall valid (foldedRanges (sets c)) →
   Forall (λ r : range, 0 <= r.1 ∧ r.2 <= Js.len (code c)) (foldedRanges (sets c)) →
   non_overlapping (foldedRanges (sets c)) →
   value (folding.updateFolds c)
   = replace_ranges (code c) (sort_by_start (foldedRanges (sets c))))
  ∧ folding.fullCode (folding.updateFolds c) = folding.fullCode c
  ∧ (∀ text matchTags matchBrackets providers c0 calls,
       createFolds text matchTags matchBrackets providers = Some c0 →
       folding.fullCode (folding.updateFolds (run calls c0)) = text)
  ∧ map nat_of_ascii placeholder = [160; 160; 160]%nat
  ∧ ∃ c0, comment_instance = Some c0
          ∧ foldPositions c0 = {[ 2%nat := (4, 9) ]}
          ∧ value (folding.updateFolds (snd (folding.toggleFold c0 2 None)))
            = js "A" ++ [LF] ++ js "/*" ++ placeholder ++ js "*/" ++ [LF] ++ js "B"
          ∧ folding.fullCode (folding.updateFolds (snd (folding.toggleFold c0 2 None)))
            = comment_text.
Proof.
  split; [|split; [done|split; [|split; [done|]]]].
  - intros Hv Hb Hd. unfold folding.updateFolds, update, update_value, update_loop.
    simpl.
    pose proof (sort_by_start_perm (foldedRanges (sets c))) as Hperm.
    rewrite (update_loop_value (code c) (sort_by_start (foldedRanges (sets c)))
               (mkView [] 0 1 ∅)); simpl; [done | lia |].
    apply ascending_chained.
    + unfold Js.len. lia.
    + apply sort_by_start_sorted.
    + eapply non_overlapping_perm; [symmetry; exact Hperm | done].
    + by rewrite Hperm.
    + by rewrite Hperm.
  - intros text matchTags matchBrackets providers c0 calls H.
    unfold folding.fullCode, folding.updateFolds, update. simpl.
    rewrite (proj2 (run_frame calls c0)).
    unfold createFolds in H.
    destruct (collectFolds text matchTags matchBrackets providers);
      simpl in H; [|done].
    by injection H as <-.
  - eexists. split; [reflexivity|]. split; [by vm_compute|].
    split; by vm_compute.
Qed.

Lemma updateFolds_view_witness :
  value (folding.updateFolds
           (mkClosure comment_text comment_text {[ 2%nat := (4, 9) ]}
                      (mkStore [2%nat] [(4, 9)])))
  = replace_ranges comment_text [(4, 9)].
Proof.
  refine (proj1 (updateFolds_view
            (mkClosure comment_text comment_text {[ 2%nat := (4, 9) ]}
                       (mkStore [2%nat] [(4, 9)]))) _ _ _).
  - repeat constructor; unfold valid; simpl; lia.
  - repeat constructor; simpl; unfold Js.len; simpl; lia.
  - simpl. repeat split; constructor.
Defined.

(** * Collection of the candidates *)

Lemma indexOf_at_found c str : ∀ i,
  Js.indexOf_at [c] str i ≠ -1 → c ∈ str.
Proof.
  induction str as [|c' str IH]; intros i; simpl; [done|].
  destruct (bool_decide (c = c')) eqn:E; simpl.
  - apply bool_decide_eq_true in E as ->. intros _. by left.
  - intros H. right. by eapply IH.
Qed.

Lemma includes_elem_of c str : Js.includes str [c] = true → c ∈ str.
Proof.
  unfold Js.includes, Js.indexOf. intros H.
  apply negb_true_iff, Z.eqb_neq in H.
  apply indexOf_at_found in H. eapply elem_of_suffix; [exact H|].
  apply suffix_drop.
Qed.

Lemma relIndex_nonneg n i : 0 <= n → 0 <= Js.relIndex n i <= n.
Proof.
  intros Hn. unfold Js.relIndex.
  destruct (i <? 0) eqn:E; [apply Z.ltb_lt in E | apply Z.ltb_ge in E]; lia.
Qed.

Lemma relIndex_lt n a b :
  Js.relIndex n a < Js.relIndex n b → 0 <= b → a < b.
Proof.
  unfold Js.relIndex. intros H Hb.
  destruct (a <? 0) eqn:Ea; [apply Z.ltb_lt in Ea; lia | apply Z.ltb_ge in Ea].
  destruct (b <? 0) eqn:Eb; [apply Z.ltb_lt in Eb; lia | apply Z.ltb_ge in Eb].
  lia.
Qed.

(** A multi-line span that ends at a non-negative offset is not empty. *)
Lemma isMultiline_lt text a b : isMultiline text a b = true → 0 <= b → a < b.
Proof.
  unfold isMultiline. intros H Hb. apply includes_elem_of in H.
  apply (relIndex_lt (Js.len text)); [|done].
  unfold Js.slice in H.
  destruct (decide (Js.relIndex (Js.len text) a < Js.relIndex (Js.len text) b))
    as [|Hge]; [done|].
  replace (Z.to_nat (Js.relIndex (Js.len text) b - Js.relIndex (Js.len text) a))
    with 0%nat in H by lia.
  simpl in H. by apply elem_of_nil in H.
Qed.

(** A multi-line span that opens with a bracket ends after the bracket. *)
Lemma isMultiline_bracket text (bi : Bracket) b :
  bracket_wf text bi → 0 <= b →
  isMultiline text (bracket_start bi) b = true →
  bracket_start bi + Js.len (bracket_text bi) < b.
Proof.
  intros (Hs & Htext & Hnl) Hb H. unfold isMultiline in H.
  apply includes_elem_of in H.
  destruct (decide (bracket_start bi + Js.len (bracket_text bi) < b))
    as [|Hge]; [done|].
  exfalso. apply Hnl. rewrite <- Htext.
  unfold Js.slice in *.
  set (n := Js.len text) in *.
  set (from := Js.relIndex n (bracket_start bi)) in *.
  assert (Js.relIndex n b
          <= Js.relIndex n (bracket_start bi + Js.len (bracket_text bi))) as Hle.
  { unfold Js.relIndex, Js.len.
    destruct (b <? 0) eqn:E1; [apply Z.ltb_lt in E1; lia|].
    destruct (bracket_start bi + Z.of_nat (length (bracket_text bi)) <? 0) eqn:E2;
      [apply Z.ltb_lt in E2; lia|].
    unfold Js.len in Hge. lia. }
  eapply elem_of_prefix; [exact H|].
  rewrite <- (Nat.min_l
    (Z.to_nat (Js.relIndex n b - from))
    (Z.to_nat (Js.relIndex n (bracket_start bi + Js.len (bracket_text bi)) - from)))
    by lia.
  rewrite <- take_take. apply prefix_take.
Qed.

Lemma tagFolds_valid text tags pairs : ∀ i folds folds',
  Forall (λ t, 0 <= tag_start t) tags → Forall valid folds →
  tagFolds text tags pairs i folds = Some folds' → Forall valid folds'.
Proof.
  induction pairs as [|p pairs IH]; intros i folds folds' Htags Hv; simpl.
  - by intros [= <-].
  - destruct p as [j|]; [|by apply IH].
    destruct (i <? j)%nat; [|by apply IH].
    destruct (tags !! i) as [ti|]; simpl; [|done].
    destruct (tags !! j) as [tj|] eqn:Hj; simpl; [|done].
    destruct (isMultiline text (tag_end ti) (tag_start tj)) eqn:Hm; [|by apply IH].
    apply IH; [done|]. apply Forall_app. split; [done|].
    repeat constructor. unfold valid. simpl.
    apply (isMultiline_lt text); [done|].
    rewrite Forall_forall in Htags. apply Htags.
    by eapply list_elem_of_lookup_2.
Qed.

Lemma bracketFolds_valid text brackets pairs : ∀ i folds folds',
  Forall (bracket_wf text) brackets → Forall valid folds →
  bracketFolds text brackets pairs i folds = Some folds' → Forall valid folds'.
Proof.
  induction pairs as [|p pairs IH]; intros i folds folds' Hwf Hv; simpl.
  - by intros [= <-].
  - destruct p as [j|]; [|by apply IH].
    destruct (i <? j)%nat; [|by apply IH].
    destruct (brackets !! i) as [bi|] eqn:Hi; simpl; [|done].
    destruct (bool_decide _); [|by apply IH].
    destruct (brackets !! j) as [bj|] eqn:Hj; simpl; [|done].
    destruct (isMultiline text (bracket_start bi) (bracket_start bj)) eqn:Hm;
      [|by apply IH].
    apply IH; [done|]. apply Forall_app. split; [done|].
    repeat constructor. unfold valid. simpl.
    rewrite Forall_forall in Hwf.
    apply (isMultiline_bracket text); [| |done].
    + apply Hwf. by eapply list_elem_of_lookup_2.
    + apply (Hwf bj). by eapply list_elem_of_lookup_2.
Qed.

Lemma providerFolds_keeps providers : ∀ folds (r : range),
  r ∈ folds → r ∈ providerFolds providers folds.
Proof.
  unfold providerFolds.
  induction providers as [|clb ps IH]; intros folds r Hr; simpl; [done|].
  apply IH. apply elem_of_app. by left.
Qed.

(** C7, the claim fails: [blockCommentFolding] gives the range [(2, 1)] for
    a block comment that is not closed, and [createFolds] stores it as the
    anchor of line 1, which the public [toggleFold] then folds. *)
Lemma malformed_range_is_anchored :
  ∃ c, unterminated_instance = Some c
       ∧ foldPositions c !! 1%nat = Some (2, 1)
       ∧ ¬ valid (2, 1)
       ∧ fst (folding.toggleFold c 1 None) = Returned true
       ∧ foldedRanges (sets (snd (folding.toggleFold c 1 None))) = [(2, 1)].
Proof.
  eexists. split; [reflexivity|]. split; [by vm_compute|].
  split; [unfold valid; simpl; lia|]. split; by vm_compute.
Qed.

(** C7, as amended: collection has no test of [end <= start].  Every range
    that a provider returns, valid or not, is among the candidates, and its
    anchor line ends up with an anchor whose end is at least the end of the
    range: the range itself when no other candidate has the same anchor
    line.  Only the candidates of the built-in tag and bracket pairs are all
    valid ([start < end]), by the multi-line test, for tags that start at
    non-negative offsets and brackets whose text, free of line feeds, stands
    at their offset. *)
Theorem createFolds_keeps_provider_ranges (text : jsstring)
    (matchTags : option TagMatcher) (matchBrackets : option BracketMatcher)
    (before after : list FoldingRangeProvider) (clb : FoldingRangeProvider)
    (c : closure) :
  createFolds text matchTags matchBrackets (before ++ clb :: after) = Some c →
  ∃ seen folds,
    collectFolds text matchTags matchBrackets before = Some seen
    ∧ collectFolds text matchTags matchBrackets (before ++ clb :: after) = Some folds
    ∧ foldPositions c = anchorTable text folds
    ∧ (∀ r : range, r ∈ clb seen →
         r ∈ folds
         ∧ (∃ r' : range, foldPositions c !! anchorLine text r = Some r' ∧ r.2 <= r'.2)
         ∧ ((∀ r', r' ∈ folds → anchorLine text r' = anchorLine text r → r' = r) →
            foldPositions c !! anchorLine text r = Some r))
    ∧ (∀ m folds1, matchTags = Some m →
         Forall (λ t, 0 <= tag_start t) (tags m) →
         tagFolds text (tags m) (tag_pairs m) 0 [] = Some folds1 →
         Forall valid folds1)
    ∧ (∀ m folds1 folds2, matchBrackets = Some m →
         Forall (bracket_wf text) (brackets m) → Forall valid folds1 →
         bracketFolds text (brackets m) (bracket_pairs m) 0 folds1 = Some folds2 →
         Forall valid folds2).
Proof.
  unfold createFolds, collectFolds. intros H.
  destruct (match matchTags with
            | Some m => tagFolds text (tags m) (tag_pairs m) 0 []
            | None => Some []
            end) as [folds1|]; simpl in *; [|done].
  destruct (match matchBrackets with
            | Some m => bracketFolds text (brackets m) (bracket_pairs m) 0 folds1
            | None => Some folds1
            end) as [folds2|]; simpl in *; [|done].
  injection H as <-. simpl.
  exists (providerFolds before folds2),
         (providerFolds (before ++ clb :: after) folds2).
  split; [done|]. split; [done|]. split; [done|].
  split; [|split].
  - intros r Hr.
    assert (r ∈ providerFolds (before ++ clb :: after) folds2) as Hin.
    { unfold providerFolds. rewrite fold_left_app. simpl.
      apply providerFolds_keeps. apply elem_of_app. by right. }
    destruct (anchor_fold text (providerFolds (before ++ clb :: after) folds2) ∅)
      as (I1 & _ & I3).
    split; [done|]. split; [by apply I1|].
    intros Huniq. destruct (I1 r Hin) as (r' & Hr' & _).
    unfold anchorTable. rewrite Hr'. f_equal.
    destruct (I3 _ _ Hr') as [He|[H1 H2]]; [by rewrite lookup_empty in He|].
    by apply Huniq.
  - intros m f1 _ Htags Hf. by eapply tagFolds_valid.
  - intros m f1 f2 _ Hwf Hv Hf. by eapply bracketFolds_valid.
Qed.

Lemma createFolds_keeps_provider_ranges_witness :
  ∃ c, unterminated_instance = Some c
       ∧ ∃ r' : range, foldPositions c !! anchorLine unterminated_text (2, 1) = Some r'
                       ∧ 1 <= r'.2.
Proof.
  eexists. split; [reflexivity|].
  destruct (createFolds_keeps_provider_ranges unterminated_text None None [] []
              (λ _, blockCommentFolding clike_comments unterminated_text
                      unterminated_tokens (js "javascript"))
              _ eq_refl) as (seen & folds & Hs & _ & _ & Hr & _).
  injection Hs as <-.
  exact (proj1 (proj2 (Hr (2, 1) ltac:(by left)))).
Defined.

(** * The markdown provider *)

(** C9, the failing input: headings A, B, C at levels 0, 1, 2, then D at
    level 0 and E at level 2.  D closes A, B and C at offset 20, the trimmed
    end of the text before it.  At the end of the input the open titles are
    D and E, and the code closes them at offset 34, but it also pushes the
    fold [(10, 34)] for level 1, from the offset that B, closed since D,
    left in [openTitles]. *)
Theorem markdownFolding_stale_title :
  markdownFolding md_text md_tokens (js "md")
  = Some [ (Some 3, 20); (Some 10, 20); (Some 18, 20);
           (Some 24, 34); (Some 10, 34); (Some 32, 34) ].
Proof. by vm_compute. Qed.

(** * The loops with fuel run to their end *)

Lemma startsWith_nil pat : pat ≠ [] → Js.startsWith pat [] = false.
Proof. by destruct pat. Qed.

Lemma indexOf_at_range pat str : ∀ i,
  pat ≠ [] →
  Js.indexOf_at pat str i = -1
  ∨ (i <= Js.indexOf_at pat str i ∧ Js.indexOf_at pat str i < i + Js.len str).
Proof.
  unfold Js.len.
  induction str as [|c str IH]; intros i Hpat; simpl Js.indexOf_at.
  - rewrite startsWith_nil by done. by left.
  - destruct (Js.startsWith pat (c :: str)).
    + right. simpl length. lia.
    + destruct (IH (i + 1) Hpat) as [->|[H1 H2]]; [by left|].
      right. simpl length. lia.
Qed.

(** A match is found at or after the position, inside the string. *)
Lemma indexOf_range str pat position :
  pat ≠ [] →
  Js.indexOf str pat position = -1
  ∨ (Z.max position 0 <= Js.indexOf str pat position
     ∧ Js.indexOf str pat position < Js.len str).
Proof.
  intros Hpat. unfold Js.indexOf.
  set (k := Z.min (Z.max position 0) (Js.len str)).
  destruct (indexOf_at_range pat (drop (Z.to_nat k) str) k Hpat) as [->|[H1 H2]];
    [by left|].
  right. unfold Js.len in *. rewrite length_drop in H2. lia.
Qed.

Lemma numLines_loop_fuel str end_ : ∀ fuel extra start count,
  (Z.to_nat (Js.len str - Z.max start 0) < fuel)%nat →
  numLines_loop (fuel + extra) str start end_ count
  = numLines_loop fuel str start end_ count.
Proof.
  induction fuel as [|fuel IH]; intros extra start count Hm; [lia|].
  simpl.
  destruct (indexOf_range str [LF] start ltac:(done)) as [Hr|[H1 H2]].
  - rewrite Hr. simpl. done.
  - destruct (negb (Js.indexOf str [LF] start + 1 =? 0)
              && match end_ with
                 | Some e => Js.indexOf str [LF] start + 1 <=? e
                 | None => true
                 end); [|done].
    apply IH. lia.
Qed.

(** More fuel than [numLines] gives does not change the count. *)
Lemma numLines_fuel str start end_ extra :
  numLines_loop (S (length str) + extra) str start end_ 1
  = numLines str start end_.
Proof.
  unfold numLines. apply numLines_loop_fuel. unfold Js.len. lia.
Qed.

Lemma commonPrefix_fuel newLines prevLines end1 : ∀ fuel extra start,
  (end1 - start <= fuel)%nat →
  Editor.commonPrefix (fuel + extra) newLines prevLines end1 start
  = Editor.commonPrefix fuel newLines prevLines end1 start.
Proof.
  induction fuel as [|fuel IH]; intros extra start Hm; simpl.
  - destruct extra as [|extra]; simpl; [done|].
    assert ((start <? end1)%nat = false) as -> by (apply Nat.ltb_ge; lia).
    by rewrite andb_false_r.
  - destruct (Editor.same _ _ && (start <? end1)%nat) eqn:E; [|done].
    apply IH. apply andb_true_iff in E as [_ E]. apply Nat.ltb_lt in E. lia.
Qed.

(** * Counting lines *)

Lemma countLF_app l k : countLF (l ++ k) = countLF l + countLF k.
Proof. unfold countLF. rewrite filter_app, length_app. lia. Qed.

Lemma countLF_nonneg l : 0 <= countLF l.
Proof. unfold countLF. lia. Qed.

Lemma countLF_none l : LF ∉ l → countLF l = 0.
Proof.
  unfold countLF. induction l as [|c l IH]; intros H; [done|].
  apply not_elem_of_cons in H as [Hc Hl].
  rewrite filter_cons_False by congruence. by apply IH.
Qed.

Lemma countLF_cons_LF l : countLF (LF :: l) = 1 + countLF l.
Proof. unfold countLF. rewrite filter_cons_True by done. simpl length. lia. Qed.

(** The search of one code unit stops on its first occurrence. *)
Lemma indexOf_at_first c str : ∀ i,
  ((c ∉ str) ∧ Js.indexOf_at [c] str i = -1)
  ∨ (∃ pre post, str = pre ++ c :: post ∧ (c ∉ pre)
                 ∧ Js.indexOf_at [c] str i = i + Js.len pre).
Proof.
  induction str as [|c' str IH]; intros i; simpl.
  - left. split; [apply not_elem_of_nil | done].
  - destruct (bool_decide (c = c')) eqn:E; simpl.
    + apply bool_decide_eq_true in E as <-. right. exists [], str.
      split; [done|]. split; [apply not_elem_of_nil|]. unfold Js.len. simpl. lia.
    + apply bool_decide_eq_false in E.
      destruct (IH (i + 1)) as [[Hn ->] | (pre & post & -> & Hpre & ->)].
      * left. split; [|done]. by apply not_elem_of_cons.
      * right. exists (c' :: pre), post. split; [done|].
        split; [by apply not_elem_of_cons|]. unfold Js.len. simpl length. lia.
Qed.

(** The loop of [numLines] from an offset of the text. *)
Lemma numLines_loop_count str end_ : ∀ fuel (k : nat) count,
  (k <= length str)%nat → (length str - k < fuel)%nat →
  numLines_loop fuel str (Z.of_nat k) end_ count
  = count + countLF (lineWindow str (Z.of_nat k) end_).
Proof.
  induction fuel as [|fuel IH]; intros k count Hk Hfuel; [lia|].
  simpl. unfold Js.indexOf, lineWindow.
  replace (Z.min (Z.max (Z.of_nat k) 0) (Js.len str)) with (Z.of_nat k)
    by (unfold Js.len; lia).
  rewrite Nat2Z.id.
  destruct (indexOf_at_first LF (drop k str) (Z.of_nat k))
    as [[Hn ->] | (pre & post & Hsplit & Hpre & ->)].
  - simpl. destruct end_ as [e|].
    + rewrite countLF_none; [lia|]. intros H. apply Hn.
      eapply elem_of_prefix; [exact H | apply prefix_take].
    + rewrite countLF_none by done. lia.
  - assert (length str = (k + length pre + 1 + length post)%nat) as Hlen.
    { rewrite <- (take_drop k str) at 1. rewrite length_app, Hsplit, length_take.
      rewrite length_app. simpl. lia. }
    assert (drop (k + length pre + 1) str = post) as Hpost.
    { replace (k + length pre + 1)%nat with (k + (length pre + 1))%nat by lia.
      rewrite <- drop_drop, Hsplit.
      rewrite (cons_middle LF pre post), app_assoc.
      apply drop_app_length'. rewrite length_app. simpl. lia. }
    replace (Z.of_nat k + Js.len pre + 1)
      with (Z.of_nat (k + length pre + 1)) by (unfold Js.len; lia).
    assert ((Z.of_nat (k + length pre + 1) =? 0) = false) as ->
      by (apply Z.eqb_neq; lia).
    simpl negb. rewrite andb_true_l.
    destruct end_ as [e|].
    + destruct (Z.of_nat (k + length pre + 1) <=? e) eqn:E.
      * apply Z.leb_le in E. rewrite IH by lia.
        unfold lineWindow.
        replace (Z.min (Z.max (Z.of_nat (k + length pre + 1)) 0) (Js.len str))
          with (Z.of_nat (k + length pre + 1)) by (unfold Js.len; lia).
        rewrite Nat2Z.id, Hpost, Hsplit.
        replace (Z.to_nat (e - Z.of_nat k))
          with (length (pre ++ [LF]) + Z.to_nat (e - Z.of_nat (k + length pre + 1)))%nat
          by (rewrite length_app; simpl; lia).
        rewrite (cons_middle LF pre post), app_assoc, take_app_add.
        rewrite !countLF_app, (countLF_none pre) by done.
        rewrite countLF_cons_LF. unfold countLF at 2. simpl. lia.
      * apply Z.leb_gt in E. rewrite Hsplit.
        rewrite take_app_le by lia.
        rewrite countLF_none; [lia|]. intros H. apply Hpre.
        eapply elem_of_prefix; [exact H | apply prefix_take].
    + rewrite IH by lia. unfold lineWindow.
      replace (Z.min (Z.max (Z.of_nat (k + length pre + 1)) 0) (Js.len str))
        with (Z.of_nat (k + length pre + 1)) by (unfold Js.len; lia).
      rewrite Nat2Z.id, Hpost, Hsplit.
      rewrite !countLF_app, (countLF_none pre) by done.
      rewrite countLF_cons_LF. lia.
Qed.

Lemma clamp_idem start n :
  0 <= n → Z.min (Z.max (Z.min (Z.max start 0) n) 0) n = Z.min (Z.max start 0) n.
Proof. lia. Qed.

Lemma lineWindow_clamp str start end_ :
  lineWindow str (Z.min (Z.max start 0) (Js.len str)) end_ = lineWindow str start end_.
Proof.
  unfold lineWindow. rewrite clamp_idem by (unfold Js.len; lia). done.
Qed.

Lemma numLines_lineWindow str start end_ :
  numLines str start end_ = 1 + countLF (lineWindow str start end_).
Proof.
  set (k := Z.min (Z.max start 0) (Js.len str)).
  assert (numLines str start end_ = numLines str k end_) as ->.
  { unfold numLines. simpl. unfold Js.indexOf. fold k.
    subst k. rewrite clamp_idem by (unfold Js.len; lia). done. }
  rewrite <- lineWindow_clamp. fold k.
  assert (k = Z.of_nat (Z.to_nat k)) as Hk by (unfold k, Js.len; lia).
  rewrite Hk. unfold numLines. apply numLines_loop_count; unfold k, Js.len; lia.
Qed.

Lemma countLF_take_le l n m : (n <= m)%nat → countLF (take n l) <= countLF (take m l).
Proof.
  intros H. rewrite <- (take_drop n (take m l)).
  rewrite take_take, Nat.min_l by done.
  rewrite countLF_app. pose proof (countLF_nonneg (drop n (take m l))). lia.
Qed.

Lemma countLF_take_all l n : countLF (take n l) <= countLF l.
Proof.
  rewrite <- (take_drop n l) at 2. rewrite countLF_app.
  pose proof (countLF_nonneg (drop n l)). lia.
Qed.

Lemma countLF_drop_all l n : countLF (drop n l) <= countLF l.
Proof.
  rewrite <- (take_drop n l) at 2. rewrite countLF_app.
  pose proof (countLF_nonneg (take n l)). lia.
Qed.

(** X1: [numLines (str, start, end)] is one more than the number of line
    feeds of [str] at the indices from [start] (clamped to the string) to
    [end] excluded; without bounds it is one more than the number of line
    feeds of the string, and [numLines (str, 0, p)] is the number of the line
    that holds offset [p]: one more than the line feeds before [p]. *)
Theorem numLines_counts_line_feeds (str : jsstring) (start : Z) (end_ : option Z) :
  numLines str start end_ = 1 + countLF (lineWindow str start end_)
  ∧ numLines str 0 None = 1 + countLF str
  ∧ (∀ p, numLines str 0 (Some p) = 1 + countLF (take (Z.to_nat p) str)).
Proof.
  split; [apply numLines_lineWindow|]. split.
  - rewrite numLines_lineWindow. unfold lineWindow.
    replace (Z.min (Z.max 0 0) (Js.len str)) with 0 by (unfold Js.len; lia).
    done.
  - intros p. rewrite numLines_lineWindow. unfold lineWindow.
    replace (Z.min (Z.max 0 0) (Js.len str)) with 0 by (unfold Js.len; lia).
    simpl. by rewrite Z.sub_0_r.
Qed.

(** X2: a count of lines is at least 1 and at most the count of lines of the
    whole string, and the line of an offset does not decrease with the
    offset; so the active line that [updateSelection] computes for a caret,
    whatever the selection is, is the index of one of the lines of the
    value. *)
Theorem numLines_bounds (str : jsstring) (start : Z) (end_ : option Z) :
  1 <= numLines str start end_
  ∧ numLines str start end_ <= numLines str 0 None
  ∧ (∀ p q, p <= q → numLines str 0 (Some p) <= numLines str 0 (Some q))
  ∧ (∀ s e d, 1 <= activeLineNumber str s e d
              ∧ activeLineNumber str s e d <= numLines str 0 None).
Proof.
  assert (∀ start end_, 1 <= numLines str start end_
                        ∧ numLines str start end_ <= numLines str 0 None
                        ∧ (∀ p q, p <= q →
                             numLines str 0 (Some p) <= numLines str 0 (Some q)))
    as H; [clear start end_; intros start end_
          | split; [apply H|split; [apply H|split; [apply (H 0 None)|]]];
            intros s e d; unfold activeLineNumber; split; apply H].
  rewrite !numLines_lineWindow. split; [|split].
  - pose proof (countLF_nonneg (lineWindow str start end_)). lia.
  - unfold lineWindow.
    replace (Z.min (Z.max 0 0) (Js.len str)) with 0 by (unfold Js.len; lia).
    simpl. destruct end_ as [e|].
    + etrans; [|apply Z.add_le_mono_l, (countLF_drop_all str
        (Z.to_nat (Z.min (Z.max start 0) (Js.len str))))].
      apply Z.add_le_mono_l, countLF_take_all.
    + apply Z.add_le_mono_l, countLF_drop_all.
  - intros p q Hpq. rewrite !numLines_lineWindow. unfold lineWindow.
    replace (Z.min (Z.max 0 0) (Js.len str)) with 0 by (unfold Js.len; lia).
    simpl. rewrite !Z.sub_0_r. apply Z.add_le_mono_l, countLF_take_le. lia.
Qed.

(** X3: line counts add up: for [0 <= a <= b] the line of offset [b] is the
    line of offset [a] plus the lines counted from [a] to [b], less one.
    This is how [update] moves its line counter from one fold to the
    next. *)
Theorem numLines_additive (str : jsstring) (a b : Z) :
  0 <= a → a <= b →
  numLines str 0 (Some b)
  = numLines str 0 (Some a) + numLines str a (Some b) - 1.
Proof.
  intros Ha Hab. rewrite !numLines_lineWindow. unfold lineWindow.
  replace (Z.min (Z.max 0 0) (Js.len str)) with 0 by (unfold Js.len; lia).
  change (Z.to_nat 0) with 0%nat. rewrite !drop_0, !Z.sub_0_r.
  destruct (decide (a <= Js.len str)) as [Hle|Hgt].
  - replace (Z.min (Z.max a 0) (Js.len str)) with a by lia.
    rewrite <- (take_drop (Z.to_nat a) (take (Z.to_nat b) str)).
    rewrite take_take, Nat.min_l by lia.
    rewrite countLF_app.
    rewrite skipn_firstn_comm.
    replace (Z.to_nat b - Z.to_nat a)%nat with (Z.to_nat (b - a)) by lia. lia.
  - replace (Z.min (Z.max a 0) (Js.len str)) with (Js.len str) by lia.
    unfold Js.len in *. rewrite Nat2Z.id, drop_all, take_nil.
    rewrite !take_ge by lia. unfold countLF at 3. simpl. lia.
Qed.

Lemma numLines_additive_witness :
  numLines comment_text 0 (Some 9)
  = numLines comment_text 0 (Some 4) + numLines comment_text 4 (Some 9) - 1.
Proof. exact (numLines_additive comment_text 4 9 ltac:(lia) ltac:(lia)). Defined.

(** * The anchor table of [createFolds] *)

(** X4: the table that [createFolds] fills holds, for each line, a candidate
    whose anchor line it is and whose end is the greatest among the
    candidates of that line; a line without candidate has no anchor. *)
Theorem anchorTable_greatest_end (text : jsstring) (folds : list range)
    (line : nat) :
  match anchorTable text folds !! line with
  | Some r =>
      r ∈ folds ∧ anchorLine text r = line
      ∧ ∀ c : range, c ∈ folds → anchorLine text c = line → c.2 <= r.2
  | None => ∀ c : range, c ∈ folds → anchorLine text c ≠ line
  end.
Proof.
  destruct (anchor_fold text folds ∅) as (I1 & _ & I3). fold (anchorTable text folds) in *.
  destruct (anchorTable text folds !! line) as [r|] eqn:Hr.
  - destruct (I3 _ _ Hr) as [He|[H1 H2]]; [by rewrite lookup_empty in He|].
    split; [done|]. split; [done|].
    intros c Hc Hline. destruct (I1 c Hc) as (r' & Hr' & Hle).
    rewrite Hline, Hr in Hr'. injection Hr' as <-. done.
  - intros c Hc Hline. destruct (I1 c Hc) as (r' & Hr' & _).
    rewrite Hline, Hr in Hr'. done.
Qed.

Lemma anchorLine_mono text (r r' : range) :
  r.1 <= r'.1 → (anchorLine text r <= anchorLine text r')%nat.
Proof.
  intros H. unfold anchorLine. rewrite !numLines_lineWindow. unfold lineWindow.
  replace (Z.min (Z.max 0 0) (Js.len text)) with 0 by (unfold Js.len; lia).
  change (Z.to_nat 0) with 0%nat. rewrite !drop_0, !Z.sub_0_r.
  pose proof (countLF_take_le text (Z.to_nat r.1) (Z.to_nat r'.1) ltac:(lia)).
  lia.
Qed.

Lemma anchorLine_pos text (r : range) : (1 <= anchorLine text r)%nat.
Proof.
  unfold anchorLine. rewrite numLines_lineWindow.
  pose proof (countLF_nonneg (lineWindow text 0 (Some r.1))). lia.
Qed.

(** X5: in the table that [createFolds] builds, no anchor is stored at
    index 0, and the anchors are ordered as their lines: the anchor of a
    later line starts at a later offset, so two lines never share the start
    of their anchors. *)
Theorem createFolds_table_ordered (text : jsstring)
    (matchTags : option TagMatcher) (matchBrackets : option BracketMatcher)
    (providers : list FoldingRangeProvider) (c : closure) :
  createFolds text matchTags matchBrackets providers = Some c →
  foldPositions c !! 0%nat = None
  ∧ ∀ i j (ri rj : range),
      foldPositions c !! i = Some ri → foldPositions c !! j = Some rj →
      (i < j)%nat → ri.1 < rj.1.
Proof.
  intros H. pose proof (createFolds_by_line _ _ _ _ _ H) as Hlines.
  assert (code c = text) as Hcode.
  { unfold createFolds in H.
    destruct (collectFolds text matchTags matchBrackets providers); simpl in H; [|done].
    by injection H as <-. }
  rewrite Hcode in Hlines. split.
  - destruct (foldPositions c !! 0%nat) as [r|] eqn:E; [|done].
    pose proof (Hlines _ _ E). pose proof (anchorLine_pos text r). lia.
  - intros i j ri rj Hi Hj Hlt.
    destruct (decide (ri.1 < rj.1)) as [|Hge]; [done|].
    pose proof (anchorLine_mono text rj ri ltac:(lia)) as Hm.
    rewrite (Hlines _ _ Hi), (Hlines _ _ Hj) in Hm. lia.
Qed.

Lemma createFolds_table_ordered_witness :
  foldPositions braces !! 0%nat = None
  ∧ ∀ i j (ri rj : range),
      foldPositions braces !! i = Some ri → foldPositions braces !! j = Some rj →
      (i < j)%nat → ri.1 < rj.1.
Proof.
  exact (createFolds_table_ordered braces_text None (Some braces_matcher) []
           braces braces_created).
Defined.

(** * The two sets stay consistent *)

Lemma toggleFold_lines fp line st s e :
  fp !! line = Some (s, e) →
  foldedLines (snd (toggleFold fp line st))
  = if Set_has line (foldedLines st) then Set_delete line (foldedLines st)
    else Set_add line (foldedLines st).
Proof.
  intros Hline. unfold toggleFold. rewrite Hline.
  destruct (Set_has line (foldedLines st)).
  - by destruct (deleteFirst s (foldedRanges st)).
  - unfold addFold. by rewrite Hline.
Qed.

Lemma toggleFold_anchored fp line st :
  is_Some (fp !! line) →
  (∀ l, l ∈ foldedLines st → is_Some (fp !! l)) →
  fst (toggleFold fp line st) = Normal
  ∧ ∀ l, l ∈ foldedLines (snd (toggleFold fp line st)) → is_Some (fp !! l).
Proof.
  intros [[s e] Hline] Hanch. split.
  - unfold toggleFold. rewrite Hline.
    destruct (Set_has line (foldedLines st)).
    + destruct (deleteFirst s (foldedRanges st)) as [ranges'|]; [|done]. simpl.
      apply reAdd_normal. intros l [_ Hl]%elem_of_Set_delete. auto.
    + unfold addFold. by rewrite Hline.
  - rewrite (toggleFold_lines fp line st s e Hline).
    destruct (Set_has line (foldedLines st)); intros l0.
    + intros [_ Hl']%elem_of_Set_delete. auto.
    + intros [->|Hl']%elem_of_Set_add; [by eexists | auto].
Qed.

Lemma folding_toggleFold_anchored c line force :
  (∀ l, l ∈ foldedLines (sets c) → is_Some (foldPositions c !! l)) →
  fst (folding.toggleFold c line force) ≠ Thrown
  ∧ ∀ l, l ∈ foldedLines (sets (snd (folding.toggleFold c line force))) →
         is_Some (foldPositions c !! l).
Proof.
  intros Hanch. unfold folding.toggleFold.
  destruct (foldPositions c !! line) eqn:Hline; [|done].
  destruct (folding.differs _ _); [|done].
  destruct (toggleFold_anchored (foldPositions c) line (sets c)) as [Hn Hl];
    [by eexists | done |].
  rewrite Hn. done.
Qed.

Lemma run_anchored calls : ∀ c,
  (∀ l, l ∈ foldedLines (sets c) → is_Some (foldPositions c !! l)) →
  ∀ l, l ∈ foldedLines (sets (run calls c)) → is_Some (foldPositions c !! l).
Proof.
  induction calls as [|[line force] calls IH]; intros c Hanch; simpl; [done|].
  destruct (folding_toggleFold_frame c line force) as (Hf & _ & _).
  destruct (folding_toggleFold_anchored c line force Hanch) as [_ Hl].
  rewrite <- Hf. apply IH. by rewrite Hf.
Qed.

(** X6: once [createFolds] has cleared the sets, no sequence of public
    [toggleFold] calls, with any line numbers and any [force], makes a call
    throw: every call returns a boolean.  The table of anchors may hold any
    ranges. *)
Theorem folding_toggleFold_never_throws (text : jsstring) (fp : gmap nat range)
    (calls : list (nat * option bool)) (line : nat) (force : option bool) :
  ∃ b, fst (folding.toggleFold (run calls (fresh text fp)) line force) = Returned b.
Proof.
  assert (∀ l, l ∈ foldedLines (sets (run calls (fresh text fp))) →
               is_Some (foldPositions (run calls (fresh text fp)) !! l)) as Hanch.
  { intros l Hl. rewrite (proj1 (run_frame calls (fresh text fp))).
    apply (run_anchored calls (fresh text fp)); [|done].
    intros l' Hl'. by apply elem_of_nil in Hl'. }
  destruct (folding_toggleFold_anchored _ line force Hanch) as [Hn _].
  destruct (fst (folding.toggleFold (run calls (fresh text fp)) line force));
    [by eexists | done].
Qed.

Lemma addFold_range_elem s e l (r : range) :
  r ∈ addFold_range s e l → r ∈ l ∨ r.1 = s.
Proof.
  destruct (addFold_range_cases s e l)
    as [[_ ->] | (l1 & r0 & l2 & -> & _ & _ & ->)].
  - intros [?|Hs]%elem_of_app; [auto|].
    apply list_elem_of_singleton in Hs as ->. by right.
  - intros [?|Hr]%elem_of_app.
    + left. apply elem_of_app. by left.
    + apply elem_of_cons in Hr as [->|Hr]; [by right|].
      left. apply elem_of_app. right. right.
      by apply list_elem_of_filter in Hr as [_ Hr].
Qed.

Lemma reAdd_starts fp (lines0 : list nat) start : ∀ lines ranges,
  (∀ x, x ∈ lines → x ∈ lines0) →
  starts_anchored fp (mkStore lines0 ranges) →
  starts_anchored fp (mkStore lines0 (snd (reAdd fp start lines ranges))).
Proof.
  induction lines as [|line lines IH]; intros ranges Hsub Hr; simpl; [done|].
  destruct (fp !! line) as [[s e]|] eqn:Hline; [|done].
  assert (∀ x, x ∈ lines → x ∈ lines0) as Hsub' by (intros x Hx; apply Hsub; by right).
  destruct (s >? start); [|by apply IH].
  unfold addFold. rewrite Hline. apply IH; [done|].
  intros r [Hin|Hs]%addFold_range_elem; [by apply Hr|].
  exists line, e. simpl. split; [apply Hsub; by left|]. by rewrite Hs.
Qed.

Lemma toggleFold_starts fp line st :
  valid_table fp → is_Some (fp !! line) →
  store_inv fp st → starts_anchored fp st →
  starts_anchored fp (snd (toggleFold fp line st)).
Proof.
  intros Hfp [[s e] Hline] [Hnd Hanch Hv Hst] Hsa.
  unfold toggleFold. rewrite Hline.
  destruct (Set_has line (foldedLines st)) eqn:Hhas.
  - assert (∀ ranges' : list range,
              (∀ r : range, r ∈ ranges' → r ∈ foldedRanges st ∧ r.1 ≠ s) →
              starts_anchored fp (mkStore (Set_delete line (foldedLines st)) ranges'))
      as Hkeep.
    { intros ranges' Hr r Hin. destruct (Hr r Hin) as [Hin' Hne].
      destruct (Hsa r Hin') as (l & e' & Hl & Hfl).
      exists l, e'. simpl. split; [|done].
      apply elem_of_Set_delete. split; [|done].
      intros ->. rewrite Hline in Hfl. injection Hfl as ? ?. lia. }
    destruct (deleteFirst s (foldedRanges st)) as [ranges'|] eqn:Hdel; simpl.
    + apply reAdd_starts; [done|]. apply Hkeep.
      apply deleteFirst_Some in Hdel as (l1 & r0 & l2 & Heq & Hr0 & ->).
      rewrite Heq, fmap_app, fmap_cons in Hst.
      apply NoDup_app in Hst as (_ & H12 & H2). apply NoDup_cons in H2 as [Hnot _].
      intros r Hr. split.
      * rewrite Heq.
        apply elem_of_app in Hr as [Hr|Hr]; apply elem_of_app; [by left|].
        right. by right.
      * intros Hs. apply elem_of_app in Hr as [Hr|Hr].
        -- apply (H12 r.1); [by apply list_elem_of_fmap_2|].
           apply elem_of_cons. left. congruence.
        -- apply Hnot. rewrite Hr0, <- Hs. by apply list_elem_of_fmap_2.
    + apply Hkeep. apply deleteFirst_None in Hdel. rewrite Forall_forall in Hdel.
      intros r Hr. split; [done | by apply Hdel].
  - unfold addFold. rewrite Hline. simpl.
    intros r [Hin|Hs]%addFold_range_elem.
    + destruct (Hsa r Hin) as (l & e' & Hl & Hfl). exists l, e'. simpl.
      split; [|done]. apply elem_of_Set_add. by right.
    + exists line, e. simpl. split; [apply elem_of_Set_add; by left|]. by rewrite Hs.
Qed.

Lemma run_starts calls : ∀ c,
  valid_table (foldPositions c) → store_inv (foldPositions c) (sets c) →
  starts_anchored (foldPositions c) (sets c) →
  starts_anchored (foldPositions c) (sets (run calls c)).
Proof.
  induction calls as [|[line force] calls IH]; intros c Hfp Hinv Hsa; simpl; [done|].
  destruct (folding_toggleFold_frame c line force) as (Hf & _ & _).
  destruct (folding_toggleFold_ok c line force Hfp Hinv) as [Hinv' _].
  rewrite <- Hf. apply IH; rewrite Hf; try done.
  unfold folding.toggleFold.
  destruct (foldPositions c !! line) eqn:Hline; [|done].
  destruct (folding.differs _ _); [|done].
  assert (starts_anchored (foldPositions c)
            (snd (toggleFold (foldPositions c) line (sets c)))) as H
    by (apply toggleFold_starts; [done | by eexists | done | done]).
  by destruct (fst (toggleFold (foldPositions c) line (sets c))).
Qed.

(** X7: over a table of valid ranges, after any sequence of public
    [toggleFold] calls from the empty sets, the folded lines are distinct and
    each has an anchor, every folded range starts at the start of the anchor
    of a line that is folded, and there are never more folded ranges than
    folded lines. *)
Theorem toggleFold_sets_consistent (text : jsstring) (fp : gmap nat range)
    (calls : list (nat * option bool)) :
  valid_table fp →
  let st := sets (run calls (fresh text fp)) in
  NoDup (foldedLines st)
  ∧ (∀ line, line ∈ foldedLines st → is_Some (fp !! line))
  ∧ starts_anchored fp st
  ∧ (length (foldedRanges st) <= length (foldedLines st))%nat.
Proof.
  intros Hfp st.
  pose proof (run_ok calls (fresh text fp) Hfp (fresh_inv text fp)) as Hinv.
  assert (starts_anchored fp st) as Hsa.
  { apply (run_starts calls (fresh text fp)); try done.
    - apply fresh_inv.
    - intros r Hr. by apply elem_of_nil in Hr. }
  simpl in Hinv. fold st in Hinv. destruct Hinv as [Hnd Hanch Hv Hst].
  split; [done|]. split; [done|]. split; [done|].
  set (startOf := λ line : nat, from_option fst 0 (fp !! line)).
  rewrite <- (length_fmap fst (foldedRanges st)).
  rewrite <- (length_fmap startOf (foldedLines st)).
  apply submseteq_length, NoDup_submseteq; [done|].
  intros x (r & -> & Hr)%list_elem_of_fmap.
  destruct (Hsa r Hr) as (line & e & Hl & Hfl).
  apply list_elem_of_fmap. exists line. split; [|done].
  unfold startOf. by rewrite Hfl.
Qed.

Lemma toggleFold_sets_consistent_witness :
  (length (foldedRanges (sets (run [(2%nat, None); (1%nat, None)] braces)))
   <= length (foldedLines (sets (run [(2%nat, None); (1%nat, None)] braces))))%nat.
Proof.
  exact (proj2 (proj2 (proj2
    (toggleFold_sets_consistent braces_text braces_table
       [(2%nat, None); (1%nat, None)] braces_table_valid)))).
Defined.

(** * The mapper and the view *)

Lemma shrinkage_zero pos l :
  Forall (λ r : range, pos <= r.1) l → shrinkage pos l = 0.
Proof.
  induction 1 as [|r l Hr _ IH]; simpl; [done|].
  rewrite IH. destruct (r.1 <? pos) eqn:E; [apply Z.ltb_lt in E; lia | done].
Qed.

(** Below an offset that is after [lo], the ranges take less room than there
    is between [lo] and the offset. *)
Lemma shrinkage_strict_sorted pos l : ∀ lo,
  lo < pos →
  Forall (λ r : range, lo <= r.1) l → ascending l → non_overlapping l →
  Forall valid l → lo + shrinkage pos l < pos.
Proof.
  induction l as [|[s e] l IH]; intros lo Hlo Hge Hs Hd Hv; simpl; [lia|].
  apply Forall_cons in Hge as [Hge1 Hge]. simpl in Hge1.
  apply Forall_cons in Hv as [Hv1 Hv]. unfold valid in Hv1. simpl in Hv1.
  destruct Hd as [Hd1 Hd].
  pose proof (ascending_head_le _ _ Hs) as Hle. simpl in Hle.
  assert (ascending l) as Hs' by (by inversion Hs).
  destruct ((s <? pos) && (e <=? pos)) eqn:E.
  - apply andb_true_iff in E as [E1 E2].
    apply Z.ltb_lt in E1. apply Z.leb_le in E2.
    assert (Forall (λ r : range, e <= r.1) l) as Hge'.
    { rewrite Forall_forall in *. intros r Hr.
      specialize (Hd1 r Hr). specialize (Hle r Hr). specialize (Hv r Hr).
      unfold disjoint, valid in *. simpl in *. lia. }
    destruct (decide (e < pos)) as [Hlt|Heq].
    + specialize (IH e Hlt Hge' Hs' Hd Hv). lia.
    + rewrite shrinkage_zero; [lia|].
      eapply Forall_impl; [exact Hge'|]. simpl. intros r Hr. lia.
  - assert (Forall (λ r : range, lo <= r.1) l) as Hge'.
    { rewrite Forall_forall in *. intros r Hr. specialize (Hle r Hr). lia. }
    specialize (IH lo Hlo Hge' Hs' Hd Hv). lia.
Qed.

Lemma shrinkage_strict pos l lo :
  lo < pos → Forall (λ r : range, lo <= r.1) l → non_overlapping l →
  Forall valid l → lo + shrinkage pos l < pos.
Proof.
  intros Hp Hge Hd Hv.
  pose proof (sort_by_start_perm l) as Hperm.
  rewrite <- (shrinkage_perm pos _ _ Hperm).
  apply shrinkage_strict_sorted; [done | | | |].
  - by rewrite Hperm.
  - apply sort_by_start_sorted.
  - eapply non_overlapping_perm; [symmetry; exact Hperm | done].
  - by rewrite Hperm.
Qed.

(** Between two offsets, the first of which is not hidden, only the ranges
    that start at or after the first one count. *)
Lemma shrinkage_between p q l :
  p <= q → Forall valid l → ¬ hidden l p →
  shrinkage q l - shrinkage p l
  = shrinkage q (filter (λ r : range, p <= r.1) l).
Proof.
  intros Hpq Hv Hvis. induction Hv as [|[s e] l Hv1 Hv IH]; [done|].
  assert (¬ hidden l p) as Hvis'.
  { intros (r & Hr & H). apply Hvis. exists r. split; [by right | done]. }
  specialize (IH Hvis'). unfold valid in Hv1. simpl in Hv1.
  destruct (decide (p <= s)) as [Hle|Hgt].
  - rewrite filter_cons_True by done. simpl.
    assert ((s <? p) = false) as -> by (apply Z.ltb_ge; lia).
    simpl. lia.
  - rewrite filter_cons_False by done. simpl.
    assert (e <= p) as He.
    { destruct (decide (e <= p)); [done|]. exfalso. apply Hvis.
      exists (s, e). split; [by left | simpl; lia]. }
    assert ((s <? p) = true) as -> by (apply Z.ltb_lt; lia).
    assert ((e <=? p) = true) as -> by (apply Z.leb_le; lia).
    assert ((s <? q) = true) as -> by (apply Z.ltb_lt; lia).
    assert ((e <=? q) = true) as -> by (apply Z.leb_le; lia).
    simpl. lia.
Qed.

Lemma getPosition_visible l pos :
  ¬ hidden l pos → getPosition l pos = pos - shrinkage pos l.
Proof.
  intros H. unfold getPosition. rewrite getPosition_loop_closed.
  destruct (existsb (inside pos) l) eqn:E; [|done].
  by apply existsb_inside_hidden in E.
Qed.

(** X9: when the folded ranges are valid and pairwise disjoint,
    [getPosition] is strictly increasing on the offsets that are not hidden:
    two visible offsets never get the same position in the view, nor
    positions in the wrong order. *)
Theorem getPosition_strictly_increasing (ranges : list range) (p q : Z) :
  Forall valid ranges → non_overlapping ranges →
  ¬ hidden ranges p → ¬ hidden ranges q → p < q →
  getPosition ranges p < getPosition ranges q.
Proof.
  intros Hv Hd Hp Hq Hlt.
  rewrite !getPosition_visible by done.
  pose proof (shrinkage_between p q ranges ltac:(lia) Hv Hp) as Hb.
  set (after := filter (λ r : range, p <= r.1) ranges) in *.
  assert (p + shrinkage q after < q) as Hs.
  { apply shrinkage_strict; [done | | |].
    - rewrite Forall_forall. by intros r [Hr _]%list_elem_of_filter.
    - eapply non_overlapping_sublist; [apply sublist_filter | done].
    - by apply Forall_filter_keep. }
  lia.
Qed.

(** Facts about explicit lists of ranges. *)
Ltac ranges_facts :=
  simpl;
  repeat match goal with
         | |- _ ∧ _ => split
         | |- True => exact I
         | |- Forall _ [] => constructor
         | |- Forall _ (_ :: _) => constructor
         | |- valid _ => unfold valid; simpl; lia
         | |- disjoint _ _ => unfold disjoint; simpl; lia
         | |- ¬ hidden _ _ =>
             let r := fresh "r" in
             let Hin := fresh "Hin" in
             intros (r & Hin & ? & ?);
             repeat (apply elem_of_cons in Hin as [->|Hin]; [simpl in *; lia|]);
             by apply elem_of_nil in Hin
         | |- _ => simpl; lia
         end.

Lemma getPosition_strictly_increasing_witness :
  getPosition [(16, 19); (1, 13)] 14 < getPosition [(16, 19); (1, 13)] 20.
Proof. apply getPosition_strictly_increasing; ranges_facts. Defined.

Lemma update_value_replace text ranges :
  Forall valid ranges →
  Forall (λ r : range, 0 <= r.1 ∧ r.2 <= Js.len text) ranges →
  non_overlapping ranges →
  update_value text ranges = replace_ranges text (sort_by_start ranges)
  ∧ chained 0 (sort_by_start ranges) (Js.len text).
Proof.
  intros Hv Hb Hd.
  pose proof (sort_by_start_perm ranges) as Hperm.
  assert (chained 0 (sort_by_start ranges) (Js.len text)) as Hc.
  { apply ascending_chained.
    - unfold Js.len. lia.
    - apply sort_by_start_sorted.
    - eapply non_overlapping_perm; [symmetry; exact Hperm | done].
    - by rewrite Hperm.
    - by rewrite Hperm. }
  split; [|done]. unfold update_value, update_loop.
  rewrite (update_loop_value text (sort_by_start ranges) (mkView [] 0 1 ∅));
    simpl; [done | lia | done].
Qed.

Lemma chained_starts hi l : ∀ lo,
  chained lo l hi → Forall (λ r : range, lo <= r.1) l.
Proof.
  induction l as [|r l IH]; intros lo Hc; [constructor|].
  destruct Hc as (H1 & H2 & H3). constructor; [done|].
  eapply Forall_impl; [apply (IH _ H3)|]. simpl. intros r' Hr'. lia.
Qed.

Lemma chained_shrinkage_bound pos hi l : ∀ lo,
  chained lo l hi → Forall valid l → lo <= pos → lo + shrinkage pos l <= pos.
Proof.
  induction l as [|[s e] l IH]; intros lo Hc Hv Hlo; simpl; [lia|].
  destruct Hc as (H1 & H2 & H3). simpl in *.
  apply Forall_cons in Hv as [Hv1 Hv]. unfold valid in Hv1. simpl in Hv1.
  destruct ((s <? pos) && (e <=? pos)) eqn:E.
  - apply andb_true_iff in E as [E1 E2]. apply Z.leb_le in E2.
    specialize (IH e H3 Hv E2). lia.
  - rewrite shrinkage_zero; [lia|].
    eapply Forall_impl; [apply (chained_starts _ _ _ H3)|].
    simpl. intros r Hr.
    apply andb_false_iff in E as [E|E];
      [apply Z.ltb_ge in E | apply Z.leb_gt in E]; lia.
Qed.

(** In the text with its ranges replaced, the code unit of an offset that
    lies in none of the ranges stands at the offset less the room taken by
    the ranges before it. *)
Lemma replace_ranges_lookup (text : list ascii) l : ∀ lo p,
  chained lo l (Js.len text) → Forall valid l → 0 <= lo → lo <= p →
  (∀ r : range, r ∈ l → p < r.1 ∨ r.2 <= p) →
  replace_ranges text l !! Z.to_nat (p - shrinkage p l) = text !! Z.to_nat p.
Proof.
  induction l as [|[s e] l IH]; intros lo p Hc Hv Hlo Hp Hout; simpl.
  - by rewrite Z.sub_0_r.
  - destruct Hc as (H1 & H2 & H3). simpl in *.
    apply Forall_cons in Hv as [Hv1 Hv]. unfold valid in Hv1. simpl in Hv1.
    pose proof (chained_le _ _ _ H3) as Hle.
    assert (∀ r : range, r ∈ l → p < r.1 ∨ r.2 <= p) as Hout'
      by (intros r Hr; apply Hout; by right).
    unfold replace_range. simpl.
    assert (take (Z.to_nat s) (replace_ranges text l) = take (Z.to_nat s) text) as ->.
    { rewrite <- (Nat.min_l (Z.to_nat s) (Z.to_nat e)) by lia.
      rewrite <- !take_take. f_equal. apply replace_ranges_prefix; [lia | done]. }
    assert (length (take (Z.to_nat s) text) = Z.to_nat s) as Hlen
      by (rewrite length_take; unfold Js.len in Hle; lia).
    destruct (Hout (s, e) ltac:(by left)) as [Hlt|Hge]; simpl in *.
    + assert ((s <? p) = false) as -> by (apply Z.ltb_ge; lia).
      simpl. rewrite shrinkage_zero.
      * replace (p - (0 + 0)) with p by lia. unfold jsstring.
        rewrite lookup_app_l by lia. apply lookup_take_lt. lia.
      * eapply Forall_impl; [apply (chained_starts _ _ _ H3)|].
        simpl. intros r Hr. lia.
    + assert ((s <? p) = true) as -> by (apply Z.ltb_lt; lia).
      assert ((e <=? p) = true) as -> by (apply Z.leb_le; lia).
      simpl.
      pose proof (chained_shrinkage_bound p _ _ _ H3 Hv Hge) as Hb.
      replace (Z.to_nat (p - (e - s - 3 + shrinkage p l)))
        with (Z.to_nat s + (3 + Z.to_nat (p - shrinkage p l - e)))%nat by lia.
      unfold jsstring. rewrite lookup_app_r by lia. rewrite Hlen.
      replace (Z.to_nat s + (3 + Z.to_nat (p - shrinkage p l - e)) - Z.to_nat s)%nat
        with (3 + Z.to_nat (p - shrinkage p l - e))%nat by lia.
      change (drop (Z.to_nat e) (replace_ranges text l)
                !! Z.to_nat (p - shrinkage p l - e)
              = text !! Z.to_nat p).
      rewrite lookup_drop.
      replace (Z.to_nat e + Z.to_nat (p - shrinkage p l - e))%nat
        with (Z.to_nat (p - shrinkage p l)) by lia.
      apply (IH e); [done | done | lia | done | done].
Qed.

Lemma replace_ranges_length (text : list ascii) l : ∀ lo,
  chained lo l (Js.len text) → Forall valid l → 0 <= lo →
  Js.len (replace_ranges text l) = Js.len text - shrinkage (Js.len text) l.
Proof.
  induction l as [|[s e] l IH]; intros lo Hc Hv Hlo; simpl; [lia|].
  destruct Hc as (H1 & H2 & H3). simpl in *.
  apply Forall_cons in Hv as [Hv1 Hv]. unfold valid in Hv1. simpl in Hv1.
  pose proof (chained_le _ _ _ H3) as Hle.
  pose proof (chained_shrinkage_bound (Js.len text) _ _ _ H3 Hv Hle) as Hb.
  specialize (IH e H3 Hv ltac:(lia)).
  assert ((s <? Js.len text) = true) as -> by (apply Z.ltb_lt; lia).
  assert ((e <=? Js.len text) = true) as -> by (apply Z.leb_le; lia).
  simpl. unfold replace_range, Js.len in *. simpl.
  rewrite length_app, length_take. simpl length. rewrite length_drop. lia.
Qed.

(** X10: when the folded ranges are valid, within the text and pairwise
    disjoint, the view that [updateFolds] builds agrees with [getPosition]:
    the code unit of the text at an offset that lies in no folded range
    stands in the view at the position [getPosition] gives for it, and the
    length of the view is the position of the end of the text. *)
Theorem view_agrees_with_getPosition (c : closure) (p : Z) :
  Forall valid (foldedRanges (sets c)) →
  Forall (λ r : range, 0 <= r.1 ∧ r.2 <= Js.len (code c)) (foldedRanges (sets c)) →
  non_overlapping (foldedRanges (sets c)) →
  Js.len (value (folding.updateFolds c))
  = getPosition (foldedRanges (sets c)) (Js.len (code c))
  ∧ (0 <= p →
     (∀ r : range, r ∈ foldedRanges (sets c) → p < r.1 ∨ r.2 <= p) →
     (value (folding.updateFolds c) : list ascii)
       !! Z.to_nat (getPosition (foldedRanges (sets c)) p)
     = (code c : list ascii) !! Z.to_nat p).
Proof.
  intros Hv Hb Hd.
  destruct (update_value_replace (code c) _ Hv Hb Hd) as [Heq Hc].
  pose proof (sort_by_start_perm (foldedRanges (sets c))) as Hperm.
  assert (Forall valid (sort_by_start (foldedRanges (sets c)))) as Hv'
    by (by rewrite Hperm).
  unfold folding.updateFolds, update. simpl. rewrite Heq. split.
  - rewrite getPosition_visible.
    + rewrite <- (shrinkage_perm _ _ _ Hperm).
      by apply (replace_ranges_length _ _ 0).
    + intros (r & Hr & H1 & H2). rewrite Forall_forall in Hb.
      destruct (Hb r Hr). lia.
  - intros Hp Hout. rewrite getPosition_visible.
    + rewrite <- (shrinkage_perm _ _ _ Hperm).
      apply (replace_ranges_lookup _ _ 0); try done.
      intros r Hr. apply Hout. by rewrite <- Hperm.
    + intros (r & Hr & H1 & H2). destruct (Hout r Hr); lia.
Qed.

Lemma view_agrees_with_getPosition_witness :
  (value (folding.updateFolds
            (mkClosure comment_text comment_text {[ 2%nat := (4, 9) ]}
                       (mkStore [2%nat] [(4, 9)]))) : list ascii)
    !! Z.to_nat (getPosition [(4, 9)] 12)
  = (comment_text : list ascii) !! Z.to_nat 12.
Proof.
  refine (proj2 (view_agrees_with_getPosition
            (mkClosure comment_text comment_text {[ 2%nat := (4, 9) ]}
                       (mkStore [2%nat] [(4, 9)])) 12 _ _ _) _ _).
  - ranges_facts.
  - repeat constructor; simpl; unfold Js.len; simpl; lia.
  - ranges_facts.
  - lia.
  - intros r Hr. simpl in Hr. apply list_elem_of_singleton in Hr as ->.
    simpl. lia.
Defined.

(** * The patch of the line elements, for any two arrays of lines *)

(** The forward cursor stops within both arrays, after lines that are the
    same in both. *)
Lemma commonPrefix_spec newLines prevLines end1 : ∀ fuel start,
  (start <= end1)%nat →
  (start <= Editor.commonPrefix fuel newLines prevLines end1 start <= end1)%nat
  ∧ ∀ i, (start <= i < Editor.commonPrefix fuel newLines prevLines end1 start)%nat →
         newLines !! i = prevLines !! i.
Proof.
  induction fuel as [|fuel IH]; intros start Hle; simpl; [split; lia|].
  destruct (Editor.same _ _) eqn:E; simpl; [|split; lia].
  destruct (start <? end1)%nat eqn:E'; simpl; [|split; lia].
  apply Nat.ltb_lt in E'. apply same_true in E.
  destruct (IH (S start) ltac:(lia)) as [H1 H2]. split; [lia|].
  intros i Hi. destruct (decide (i = start)) as [->|Hne]; [done|].
  apply H2. lia.
Qed.

(** The backward cursors move together, stop below the length of the new
    array, and have passed lines that are the same in both arrays. *)
Lemma commonSuffix_spec newLines prevLines : ∀ end1 end2,
  snd (Editor.commonSuffix newLines prevLines end1 end2)
  - Z.of_nat (fst (Editor.commonSuffix newLines prevLines end1 end2))
  = end2 - Z.of_nat end1
  ∧ (fst (Editor.commonSuffix newLines prevLines end1 end2) <= end1)%nat
  ∧ ((0 < end1)%nat →
     (fst (Editor.commonSuffix newLines prevLines end1 end2) < end1)%nat)
  ∧ ∀ i, (fst (Editor.commonSuffix newLines prevLines end1 end2) < i < end1)%nat →
         newLines !! i = Js.nth prevLines (Z.of_nat i + (end2 - Z.of_nat end1)).
Proof.
  induction end1 as [|end1 IH]; intros end2; simpl.
  - repeat split; lia.
  - destruct (Editor.same _ _) eqn:E; simpl.
    + destruct (IH (end2 - 1)) as (H1 & H2 & H3 & H4).
      apply same_true in E.
      repeat split; try lia.
      intros i Hi. destruct (decide (i = end1)) as [->|Hne].
      * rewrite E. f_equal. lia.
      * rewrite H4 by lia. f_equal. lia.
    + repeat split; lia.
Qed.

Lemma prefix_take {A} (l k : list A) (s : nat) :
  (∀ i, (i < s)%nat → l !! i = k !! i) → take s l = take s k.
Proof.
  intros H. apply list_eq. intros i.
  destruct (decide (i < s)%nat).
  - rewrite !lookup_take_lt by done. by apply H.
  - rewrite !lookup_take_ge by lia. done.
Qed.

Lemma suffix_drop {A} (l k : list A) (e1 : nat) (e2 : Z) :
  -1 <= e2 →
  e2 - Z.of_nat e1 = Z.of_nat (length k) - Z.of_nat (length l) →
  (∀ i, (e1 < i < length l)%nat →
        l !! i = Js.nth k (Z.of_nat i + (Z.of_nat (length k) - Z.of_nat (length l)))) →
  drop (S e1) l = drop (Z.to_nat (e2 + 1)) k.
Proof.
  intros He2 Hd H. apply list_eq. intros i. rewrite !lookup_drop.
  destruct (decide (S e1 + i < length l)%nat) as [Hlt|Hge].
  - rewrite H by lia. unfold Js.nth.
    destruct (_ <? 0) eqn:E; [apply Z.ltb_lt in E; lia|].
    f_equal. lia.
  - rewrite !lookup_ge_None_2; [done | lia | lia].
Qed.

Lemma map_nth_seqZ {A} (l : list A) (a c : Z) :
  0 <= a → (0 < c → a + c <= Z.of_nat (length l)) →
  map (Js.nth l) (seqZ a c) = Some <$> take (Z.to_nat c) (drop (Z.to_nat a) l).
Proof.
  intros Ha Hc. apply list_eq. intros i.
  change (map (Js.nth l) (seqZ a c)) with (Js.nth l <$> seqZ a c).
  rewrite !list_lookup_fmap.
  destruct (decide (Z.of_nat i < c)) as [Hlt|Hge].
  - specialize (Hc ltac:(lia)). rewrite lookup_seqZ_lt by done. rewrite lookup_take_lt by lia.
    rewrite lookup_drop. simpl. unfold Js.nth.
    destruct (_ <? 0) eqn:E; [apply Z.ltb_lt in E; lia|].
    replace (Z.to_nat (a + Z.of_nat i)) with (Z.to_nat a + i)%nat by lia.
    destruct (l !! (Z.to_nat a + i)%nat) eqn:E'; [done|].
    apply lookup_ge_None in E'. lia.
  - rewrite lookup_seqZ_ge by lia. rewrite lookup_take_ge by lia. done.
Qed.

(** What [applyPatch] gives for a splice whose elements exist. *)
Lemma applyPatch_Splice dom removeAt removeCount insertStart inserted :
  (Z.to_nat removeCount = 0 ∨ removeAt + Z.to_nat removeCount <= length dom)%nat →
  (inserted = []
   ∨ -1 <= insertStart
       < Z.of_nat (length (take removeAt dom
                           ++ drop (removeAt + Z.to_nat removeCount) dom))) →
  Editor.applyPatch (Editor.Splice removeAt removeCount insertStart inserted) dom
  = Some (take (Z.to_nat (insertStart + 1))
               (take removeAt dom ++ drop (removeAt + Z.to_nat removeCount) dom)
          ++ inserted
          ++ drop (Z.to_nat (insertStart + 1))
               (take removeAt dom ++ drop (removeAt + Z.to_nat removeCount) dom)).
Proof.
  intros Hrem Hins. unfold Editor.applyPatch.
  assert ((Z.to_nat removeCount =? 0)%nat
          || (removeAt + Z.to_nat removeCount <=? length dom)%nat = true) as ->.
  { apply orb_true_iff. destruct Hrem as [H|H];
      [left; by apply Nat.eqb_eq | right; by apply Nat.leb_le]. }
  destruct inserted as [|x inserted].
  - simpl. by rewrite take_drop.
  - destruct Hins as [Hins|Hins]; [done|].
    assert ((-1 <=? insertStart) = true) as -> by (apply Z.leb_le; lia).
    assert ((insertStart <? Z.of_nat (length (take removeAt dom
              ++ drop (removeAt + Z.to_nat removeCount) dom))) = true) as ->
      by (apply Z.ltb_lt; lia).
    done.
Qed.

(** The splice that [diff] computes from cursors that have passed equal
    lines only turns the previous lines into the new ones. *)
Lemma splice_lists {A} (prev new : list A) (s e1 : nat) (e2 : Z) :
  (s <= length new)%nat → (s <= length prev)%nat → (e1 < length new)%nat →
  -1 <= e2 →
  e2 - Z.of_nat e1 = Z.of_nat (length prev) - Z.of_nat (length new) →
  take s new = take s prev →
  drop (S e1) new = drop (Z.to_nat (e2 + 1)) prev →
  let ins := if e2 <? Z.of_nat s then e2 else Z.of_nat s - 1 in
  let rf := if (e1 <? s)%nat then Z.of_nat e1 else Z.of_nat s - 1 in
  let cnt := Z.to_nat (e2 - rf) in
  let dom' := take s prev ++ drop (s + cnt) prev in
  let k := Z.to_nat (ins + 1) in
  (cnt = 0 ∨ s + cnt <= length prev)%nat
  ∧ (Z.of_nat e1 - ins <= 0 ∨ -1 <= ins < Z.of_nat (length dom'))
  ∧ 0 <= ins + 1
  ∧ (0 < Z.of_nat e1 - ins → ins + 1 + (Z.of_nat e1 - ins) <= Z.of_nat (length new))
  ∧ take k dom' ++ take (Z.to_nat (Z.of_nat e1 - ins)) (drop k new) ++ drop k dom'
    = new.
Proof.
  intros Hs Hs' He1 He2 Hd HP HS.
  assert (∀ k c, (k <= s)%nat → (k + c = S e1)%nat →
            take k prev ++ take c (drop k new) ++ drop (Z.to_nat (e2 + 1)) prev
            = new) as Shape1.
  { intros k c Hk Hc. rewrite <- HS.
    assert (take k prev = take k new) as ->.
    { rewrite <- (Nat.min_l k s) by lia. rewrite <- !take_take. by rewrite HP. }
    rewrite app_assoc, take_take_drop, Hc. apply take_drop. }
  assert (∀ d, (S e1 <= s)%nat → Z.of_nat d = e2 - Z.of_nat e1 →
            take s prev ++ drop (s + d) prev = new) as Shape2.
  { intros d Hle Hdd. rewrite <- HP.
    assert (drop (s + d) prev = drop s new) as ->.
    { replace s with (S e1 + (s - S e1))%nat at 2 by lia.
      rewrite <- (drop_drop new (s - S e1) (S e1)), HS, drop_drop. f_equal. lia. }
    apply take_drop. }
  intros ins rf cnt dom' k. subst ins rf cnt dom' k.
  destruct (e2 <? Z.of_nat s) eqn:E2; [apply Z.ltb_lt in E2 | apply Z.ltb_ge in E2];
    (destruct (e1 <? s)%nat eqn:E1; [apply Nat.ltb_lt in E1 | apply Nat.ltb_ge in E1]).
  - (* both cursors are before the forward cursor *)
    destruct (decide (e2 - Z.of_nat e1 <= 0)) as [Hneg|Hpos].
    + replace (Z.to_nat (e2 - Z.of_nat e1)) with 0%nat by lia.
      rewrite Nat.add_0_r, take_drop.
      repeat split; try lia.
      apply Shape1; lia.
    + rewrite (Shape2 (Z.to_nat (e2 - Z.of_nat e1))) by lia.
      replace (Z.to_nat (Z.of_nat e1 - e2)) with 0%nat by lia.
      rewrite take_0. simpl. rewrite take_drop.
      repeat split; lia.
  - (* only the cursor of the previous lines is before it *)
    replace (Z.to_nat (e2 - (Z.of_nat s - 1))) with 0%nat by lia.
    rewrite Nat.add_0_r, take_drop.
    repeat split; try lia.
    apply Shape1; lia.
  - (* only the cursor of the new lines is before it *)
    rewrite (Shape2 (Z.to_nat (e2 - Z.of_nat e1))) by lia.
    replace (Z.to_nat (Z.of_nat e1 - (Z.of_nat s - 1))) with 0%nat by lia.
    rewrite take_0. simpl. rewrite take_drop.
    repeat split; lia.
  - (* the cursors have not crossed *)
    replace (Z.to_nat (Z.of_nat s - 1 + 1)) with s by lia.
    replace (s + Z.to_nat (e2 - (Z.of_nat s - 1)))%nat
      with (Z.to_nat (e2 + 1)) by lia.
    assert (length (take s prev) = s) as Hlen by (rewrite length_take; lia).
    rewrite take_app_length', drop_app_length' by done.
    repeat split; try lia.
    + right. rewrite length_app, Hlen. lia.
    + apply Shape1; lia.
Qed.

(** X11: whatever the previous lines were, with the line count the effect
    keeps for them, the patch that the effect computes for a new array of
    at least one line touches only line elements that exist, and the line
    elements after it are the new lines, in order. *)
Theorem diff_patch_gives_new_lines (prevLines newLines : list jsstring) :
  newLines ≠ [] →
  Editor.applyPatch
    (Editor.diff prevLines (Z.of_nat (length prevLines)) newLines)
    (Some <$> prevLines)
  = Some (Some <$> newLines).
Proof.
  intros Hne.
  assert (0 < length newLines)%nat as Hn
    by (destruct newLines; [done | simpl; lia]).
  destruct (commonPrefix_spec newLines prevLines (length newLines)
              (length newLines) 0 ltac:(lia)) as [Hs Hpre].
  destruct (commonSuffix_spec newLines prevLines (length newLines)
              (Z.of_nat (length prevLines))) as (Hd & _ & He1 & Hsuf).
  specialize (He1 Hn).
  unfold Editor.diff, Editor.cursors.
  set (s := Editor.commonPrefix _ _ _ _ _) in *.
  destruct (Editor.commonSuffix _ _ _ _) as [e1 e2]. simpl in Hd, He1, Hsuf.
  cbn [fst snd]. cbv beta iota zeta.
  assert (s <= length prevLines)%nat as Hs'.
  { destruct (decide (s <= length prevLines)%nat) as [|Hgt]; [done|]. exfalso.
    specialize (Hpre (length prevLines) ltac:(lia)).
    rewrite (lookup_ge_None_2 prevLines) in Hpre by lia.
    apply lookup_ge_None in Hpre. lia. }
  assert (-1 <= e2) as He2.
  { destruct (decide (S e1 < length newLines)%nat) as [Hlt|Hge]; [|lia].
    specialize (Hsuf (S e1) ltac:(lia)). unfold Js.nth in Hsuf.
    destruct (_ <? 0) eqn:E.
    - apply lookup_ge_None in Hsuf. lia.
    - apply Z.ltb_ge in E. lia. }
  assert (take s newLines = take s prevLines) as HP
    by (apply prefix_take; intros i Hi; apply Hpre; lia).
  assert (drop (S e1) newLines = drop (Z.to_nat (e2 + 1)) prevLines) as HS
    by (apply suffix_drop; [done | done | intros i Hi; by apply Hsuf]).
  destruct ((s =? e1)%nat && (Z.of_nat s =? e2)) eqn:E.
  - (* one line is rewritten in place *)
    apply andb_true_iff in E as [Ea Eb].
    apply Nat.eqb_eq in Ea. apply Z.eqb_eq in Eb. subst e1 e2.
    unfold Editor.applyPatch. rewrite length_fmap.
    assert ((s <? length prevLines)%nat = true) as ->
      by (apply Nat.ltb_lt; lia).
    f_equal. apply list_eq. intros i.
    destruct (decide (i = s)) as [->|Hi].
    + rewrite list_lookup_insert_eq by (rewrite length_fmap; lia).
      rewrite list_lookup_fmap.
      destruct (newLines !! s) eqn:E'; [done|].
      apply lookup_ge_None in E'. lia.
    + rewrite list_lookup_insert_ne by done. rewrite !list_lookup_fmap. f_equal.
      destruct (decide (i < s)%nat) as [Hlt|Hgt].
      * rewrite <- (lookup_take_lt prevLines s i), <- HP by done.
        by apply lookup_take_lt.
      * replace i with (S s + (i - S s))%nat by lia.
        rewrite <- !lookup_drop, HS. do 2 f_equal. lia.
  - (* elements are removed and inserted *)
    destruct (splice_lists prevLines newLines s e1 e2 (proj2 Hs) Hs' He1 He2 Hd HP HS)
      as (H1 & H2 & H3 & H4 & H5).
    set (ins := if e2 <? Z.of_nat s then e2 else Z.of_nat s - 1) in *.
    set (rf := if (e1 <? s)%nat then Z.of_nat e1 else Z.of_nat s - 1) in *.
    rewrite map_nth_seqZ by done.
    rewrite applyPatch_Splice.
    + f_equal. rewrite <- !fmap_take, <- !fmap_drop, <- !fmap_app, <- !fmap_take,
        <- !fmap_drop, <- !fmap_app. by rewrite H5.
    + by rewrite length_fmap.
    + destruct H2 as [H2|H2].
      * left. replace (Z.to_nat (Z.of_nat e1 - ins)) with 0%nat by lia.
        by rewrite take_0.
      * right. by rewrite <- !fmap_take, <- !fmap_drop, <- !fmap_app, length_fmap.
Qed.

Lemma diff_patch_gives_new_lines_witness :
  Editor.applyPatch
    (Editor.diff [js "a"; js "b"; js "c"; js "d"] 4 [js "a"; js "x"; js "d"])
    (Some <$> [js "a"; js "b"; js "c"; js "d"])
  = Some (Some <$> [js "a"; js "x"; js "d"]).
Proof.
  apply (diff_patch_gives_new_lines
           [js "a"; js "b"; js "c"; js "d"] [js "a"; js "x"; js "d"]).
  discriminate.
Defined.

(** * Folding a line and unfolding it again *)

Lemma disjoint_not_covers s e (r : range) :
  s < e → valid r → disjoint (s, e) r → covers_start s e r = false.
Proof.
  unfold valid, disjoint, covers_start. simpl. intros Hse Hr Hd.
  apply andb_false_iff.
  destruct Hd as [Hd|Hd]; [right; rewrite Z.gtb_ltb; apply Z.ltb_ge; lia|].
  left. apply Z.leb_gt. lia.
Qed.

Lemma addFold_scan_app_none s e b l1 l2 :
  Forall (λ r, covers_start s e r = false) l1 →
  addFold_scan s e b (l1 ++ l2)
  = (l1 ++ fst (addFold_scan s e b l2), snd (addFold_scan s e b l2)).
Proof.
  induction 1 as [|r l1 Hr _ IH]; simpl; [by destruct (addFold_scan _ _ _ _)|].
  by rewrite Hr, IH.
Qed.

(** Adding a range that every range of the set is disjoint from appends it. *)
Lemma addFold_range_disjoint s e l :
  s < e → Forall valid l → Forall (disjoint (s, e)) l →
  addFold_range s e l = l ++ [(s, e)].
Proof.
  intros Hse Hv Hd. unfold addFold_range.
  assert (addFold_scan s e false l = (l, false)) as ->; [|done].
  pose proof (addFold_scan_app_none s e false l []) as H.
  rewrite !app_nil_r in H. apply H.
  rewrite Forall_forall in *. intros r Hr.
  apply disjoint_not_covers; auto.
Qed.

(** Adding a range that is in the set already, the ranges of the set being
    valid and pairwise disjoint, changes nothing. *)
Lemma addFold_range_present s e l :
  (s, e) ∈ l → Forall valid l → non_overlapping l →
  addFold_range s e l = l.
Proof.
  intros Hin Hv Hd.
  apply list_elem_of_split in Hin as (l1 & l2 & ->).
  assert (non_overlapping ((s, e) :: l1 ++ l2)) as [Hd1 _].
  { eapply non_overlapping_perm; [|exact Hd].
    symmetry. apply Permutation_middle. }
  assert (s < e) as Hse.
  { rewrite Forall_forall in Hv. apply (Hv (s, e)).
    apply elem_of_app. right. by left. }
  assert (Forall valid (l1 ++ l2)) as Hv'.
  { rewrite Forall_forall in *. intros r Hr. apply Hv.
    apply elem_of_app in Hr as [Hr|Hr]; apply elem_of_app; [by left|].
    right. by right. }
  assert (Forall (λ r, covers_start s e r = false) (l1 ++ l2)) as Hc.
  { rewrite Forall_forall in *. intros r Hr.
    apply disjoint_not_covers; auto. }
  apply Forall_app in Hc as [Hc1 Hc2].
  unfold addFold_range. rewrite addFold_scan_app_none by done. simpl.
  assert (covers_start s e (s, e) = true) as ->.
  { unfold covers_start. simpl. apply andb_true_iff. split;
      [apply Z.leb_le; lia | rewrite Z.gtb_ltb; apply Z.ltb_lt; lia]. }
  simpl. rewrite addFold_scan_expanded. simpl.
  assert ((e >? e) = false) as -> by (rewrite Z.gtb_ltb; apply Z.ltb_ge; lia).
  do 2 f_equal. clear -Hc2. induction Hc2 as [|r l2 Hr _ IH]; [done|].
  rewrite filter_cons_True by done. by rewrite IH.
Qed.

Lemma deleteFirst_last start end_ l :
  Forall (λ r : range, r.1 ≠ start) l →
  deleteFirst start (l ++ [(start, end_)]) = Some l.
Proof.
  induction 1 as [|r l Hr _ IH]; simpl.
  - by rewrite Z.eqb_refl.
  - assert ((start =? r.1) = false) as -> by (apply Z.eqb_neq; congruence).
    by rewrite IH.
Qed.

(** The loop of the unfold branch leaves the ranges as they are when every
    line it adds again has its own range in the set. *)
Lemma reAdd_unchanged fp start lines ranges :
  Forall valid ranges → non_overlapping ranges →
  (∀ l, l ∈ lines →
     ∃ r : range, fp !! l = Some r ∧ (start < r.1 → r ∈ ranges)) →
  reAdd fp start lines ranges = (Normal, ranges).
Proof.
  intros Hv Hd. induction lines as [|l lines IH]; intros Hl; simpl; [done|].
  destruct (Hl l ltac:(by left)) as ([p q] & Hfp & Hin). rewrite Hfp.
  assert (reAdd fp start lines ranges = (Normal, ranges)) as Hrest
    by (apply IH; intros l' Hl'; apply Hl; by right).
  destruct (p >? start) eqn:E; [|done].
  rewrite Z.gtb_ltb in E. apply Z.ltb_lt in E. unfold addFold. rewrite Hfp.
  rewrite addFold_range_present; auto.
Qed.

(** X12: folding a line whose range is disjoint from every folded range,
    and unfolding it again, gives back the state the two calls started
    from, both calls reporting a change, when the folded ranges are valid
    and pairwise disjoint and every folded line that starts after the line
    has its own range in the set. *)
Theorem fold_then_unfold_restores (c : closure) (line : nat) (s e : Z)
    (force1 force2 : option bool) :
  foldPositions c !! line = Some (s, e) →
  line ∉ foldedLines (sets c) →
  s < e →
  Forall valid (foldedRanges (sets c)) →
  non_overlapping (foldedRanges (sets c)) →
  Forall (disjoint (s, e)) (foldedRanges (sets c)) →
  (∀ l, l ∈ foldedLines (sets c) →
     ∃ r : range, foldPositions c !! l = Some r
                  ∧ (s < r.1 → r ∈ foldedRanges (sets c))) →
  force1 ≠ Some false → force2 ≠ Some true →
  let folded := folding.toggleFold c line force1 in
  let unfolded := folding.toggleFold (snd folded) line force2 in
  folded = (Returned true,
            mkClosure (value c) (code c) (foldPositions c)
              (mkStore (foldedLines (sets c) ++ [line])
                       (foldedRanges (sets c) ++ [(s, e)])))
  ∧ unfolded = (Returned true, c).
Proof.
  intros Hfp Hline Hse Hv Hd Hdis Hl Hf1 Hf2.
  destruct c as [v cd fp [L R]]. simpl in *.
  assert (folding.toggleFold (mkClosure v cd fp (mkStore L R)) line force1
          = (Returned true,
             mkClosure v cd fp (mkStore (L ++ [line]) (R ++ [(s, e)])))) as S1.
  { unfold folding.toggleFold, toggleFold, addFold. simpl. rewrite Hfp.
    assert (Set_has line L = false) as HL by (by apply Set_has_false).
    unfold Set_add. rewrite HL.
    assert (folding.differs false force1 = true) as ->
      by (destruct force1 as [[]|]; done).
    by rewrite addFold_range_disjoint. }
  rewrite S1. split; [done|].
  unfold folding.toggleFold, toggleFold. simpl. rewrite Hfp.
  assert (Set_has line (L ++ [line]) = true) as ->.
  { apply Set_has_true, elem_of_app. right. by left. }
  assert (folding.differs true force2 = true) as ->
    by (destruct force2 as [[]|]; done).
  assert (Set_delete line (L ++ [line]) = L) as ->.
  { unfold Set_delete. rewrite filter_app, filter_cons_False, filter_nil, app_nil_r;
      [by apply Set_delete_absent | by intros H; apply H]. }
  rewrite deleteFirst_last.
  - by rewrite reAdd_unchanged.
  - rewrite Forall_forall in *. intros r Hr Heq.
    specialize (Hv r Hr). specialize (Hdis r Hr).
    unfold valid, disjoint in *. simpl in *. lia.
Qed.

Lemma fold_then_unfold_restores_witness :
  folding.toggleFold
    (snd (folding.toggleFold
            (mkClosure braces_text braces_text braces_table
                       (mkStore [6%nat] [(16, 19)])) 1 None)) 1 None
  = (Returned true,
     mkClosure braces_text braces_text braces_table (mkStore [6%nat] [(16, 19)])).
Proof.
  refine (proj2 (fold_then_unfold_restores
            (mkClosure braces_text braces_text braces_table
                       (mkStore [6%nat] [(16, 19)])) 1 1 13 None None
            _ _ _ _ _ _ _ _ _)).
  - reflexivity.
  - simpl. intros H. apply list_elem_of_singleton in H. discriminate H.
  - lia.
  - ranges_facts.
  - ranges_facts.
  - ranges_facts.
  - simpl. intros l Hin. apply list_elem_of_singleton in Hin as ->.
    exists (16, 19). split; [reflexivity|]. intros _. by left.
  - discriminate.
  - discriminate.
Defined.

(** * Line boundaries *)

(** The last occurrence of a code unit among the indices up to the limit. *)
Lemma lastIndexOf_at_spec c str : ∀ i limit found,
  ((c ∉ take (Z.to_nat (limit - i + 1)) str)
   ∧ lastIndexOf_at [c] str i limit found = found)
  ∨ (∃ pre post,
       take (Z.to_nat (limit - i + 1)) str = pre ++ c :: post
       ∧ (c ∉ post)
       ∧ lastIndexOf_at [c] str i limit found = i + Js.len pre).
Proof.
  induction str as [|c' str IH]; intros i limit found.
  - left. rewrite take_nil. split; [apply not_elem_of_nil | done].
  - simpl lastIndexOf_at.
    destruct (i <=? limit) eqn:Ei;
      [apply Z.leb_le in Ei | apply Z.leb_gt in Ei].
    + replace (Z.to_nat (limit - i + 1)) with (S (Z.to_nat (limit - (i + 1) + 1)))
        by lia.
      rewrite firstn_cons, !andb_true_r.
      destruct (IH (i + 1) limit (if bool_decide (c = c') then i else found))
        as [[Hno ->]|(pre & post & Hsplit & Hpost & ->)].
      * destruct (bool_decide (c = c')) eqn:E; simpl.
        -- apply bool_decide_eq_true in E as <-. right.
           exists [], (take (Z.to_nat (limit - (i + 1) + 1)) str).
           split; [done|]. split; [done|]. unfold Js.len. simpl. lia.
        -- apply bool_decide_eq_false in E. left. split; [|done].
           apply not_elem_of_cons. done.
      * right. exists (c' :: pre), post. rewrite Hsplit.
        split; [done|]. split; [done|]. unfold Js.len. simpl length. lia.
    + replace (Z.to_nat (limit - i + 1)) with 0%nat by lia.
      rewrite andb_false_r.
      destruct (IH (i + 1) limit found)
        as [[_ ->]|(pre & post & Hsplit & _)].
      * left. split; [apply not_elem_of_nil | done].
      * replace (Z.to_nat (limit - (i + 1) + 1)) with 0%nat in Hsplit by lia.
        by destruct pre.
Qed.

(** What [getLineStart] gives, read off the text before the position. *)
Lemma getLineStart_spec text p :
  0 <= p →
  ((LF ∉ take (Z.to_nat p) text) ∧ getLineStart text p = 0)
  ∨ (∃ pre post,
       take (Z.to_nat p) text = pre ++ LF :: post
       ∧ (LF ∉ post)
       ∧ getLineStart text p = Js.len pre + 1).
Proof.
  intros Hp. unfold getLineStart, lastIndexOf.
  destruct (p =? 0) eqn:E; simpl.
  - apply Z.eqb_eq in E as ->. left. split; [apply not_elem_of_nil | done].
  - apply Z.eqb_neq in E.
    destruct (lastIndexOf_at_spec LF text 0 (Z.max (p - 1) 0) (-1))
      as [[Hno ->]|(pre & post & Hsplit & Hpost & ->)];
      replace (Z.to_nat (Z.max (p - 1) 0 - 0 + 1)) with (Z.to_nat p) in * by lia.
    + by left.
    + right. exists pre, post. split; [done|]. split; [done | lia].
Qed.

(** What [getLineEnd] gives, read off the text from the position on. *)
Lemma getLineEnd_spec text p :
  0 <= p → p <= Js.len text →
  ((LF ∉ drop (Z.to_nat p) text) ∧ getLineEnd text p = Js.len text)
  ∨ (∃ pre post,
       drop (Z.to_nat p) text = pre ++ LF :: post
       ∧ (LF ∉ pre)
       ∧ getLineEnd text p = p + Js.len pre).
Proof.
  intros Hp Hlen. unfold getLineEnd, Js.indexOf.
  replace (Z.min (Z.max p 0) (Js.len text)) with p by lia.
  destruct (indexOf_at_first LF (drop (Z.to_nat p) text) p)
    as [[Hno ->]|(pre & post & Hsplit & Hpre & ->)].
  - left. done.
  - right. exists pre, post. split; [done|]. split; [done|].
    assert ((p + Js.len pre + 1 =? 0) = false) as ->
      by (apply Z.eqb_neq; unfold Js.len; lia).
    done.
Qed.

Lemma numLines_upto str p :
  numLines str 0 (Some p) = 1 + countLF (take (Z.to_nat p) str).
Proof.
  rewrite numLines_lineWindow. unfold lineWindow.
  replace (Z.min (Z.max 0 0) (Js.len str)) with 0 by (unfold Js.len; lia).
  simpl. by rewrite Z.sub_0_r.
Qed.

(** The text up to the end of the line is the text up to the position and
    the rest of the line, which holds no line feed. *)
Lemma getLineEnd_line (text : list ascii) p :
  0 <= p → p <= Js.len text →
  p <= getLineEnd text p <= Js.len text
  ∧ take (Z.to_nat (getLineEnd text p)) text
    = take (Z.to_nat p) text ++ lineAfter text p
  ∧ (LF ∉ lineAfter text p)
  ∧ (getLineEnd text p = Js.len text
     ∨ text !! Z.to_nat (getLineEnd text p) = Some LF).
Proof.
  intros Hp Hlen. unfold lineAfter.
  pose proof (take_drop (Z.to_nat p) text) as Htd.
  destruct (getLineEnd_spec text p Hp Hlen)
    as [[Hno ->]|(pre & post & Hsplit & Hpre & ->)].
  - rewrite slice_inbounds by lia. unfold Js.len. rewrite Nat2Z.id, firstn_all.
    split; [unfold Js.len in Hlen; lia|]. split; [by rewrite Htd|].
    split; [done | by left].
  - assert (Js.len text = p + Js.len pre + 1 + Js.len post) as Hl.
    { rewrite <- Htd at 1. rewrite Hsplit. unfold Js.len in *.
      rewrite !length_app, length_take. simpl length. lia. }
    assert (0 <= Js.len pre ∧ 0 <= Js.len post) as [? ?]
      by (unfold Js.len; lia).
    rewrite slice_inbounds by lia.
    assert (drop (Z.to_nat p) (take (Z.to_nat (p + Js.len pre)) text) = pre) as ->.
    { replace (Z.to_nat (p + Js.len pre))
        with (Z.to_nat p + length pre)%nat by (unfold Js.len; lia).
      rewrite <- take_drop_commute, Hsplit. by rewrite take_app_length. }
    split; [lia|]. split; [|split; [done|]].
    + replace (Z.to_nat (p + Js.len pre))
        with (Z.to_nat p + length pre)%nat by (unfold Js.len; lia).
      rewrite <- take_take_drop, Hsplit. by rewrite take_app_length.
    + right.
      replace (Z.to_nat (p + Js.len pre))
        with (Z.to_nat p + length pre)%nat by (unfold Js.len; lia).
      rewrite <- lookup_drop, Hsplit. apply list_lookup_middle. done.
Qed.

(** X13: for a position within the text, [getLineEnd] gives an offset from
    the position on, at which a line feed stands or the text ends, with no
    line feed between the position and it: the text shown after a fold or
    after the caret is the rest of that line, and its end is on the line of
    the position. *)
Theorem getLineEnd_rest_of_line (text : jsstring) (p : Z) :
  0 <= p → p <= Js.len text →
  p <= getLineEnd text p <= Js.len text
  ∧ (LF ∉ lineAfter text p)
  ∧ (getLineEnd text p = Js.len text
     ∨ (text : list ascii) !! Z.to_nat (getLineEnd text p) = Some LF)
  ∧ numLines text 0 (Some (getLineEnd text p)) = numLines text 0 (Some p).
Proof.
  intros Hp Hlen.
  destruct (getLineEnd_line text p Hp Hlen) as (Hb & Htake & Hno & Hend).
  split; [done|]. split; [done|]. split; [done|].
  rewrite !numLines_upto, Htake, countLF_app, (countLF_none _ Hno). lia.
Qed.

Lemma getLineEnd_rest_of_line_witness :
  getLineEnd comment_text 4 = 6
  ∧ lineAfter comment_text 4 = js " x"
  ∧ numLines comment_text 0 (Some (getLineEnd comment_text 4))
    = numLines comment_text 0 (Some 4).
Proof.
  split; [reflexivity|]. split; [reflexivity|].
  apply (getLineEnd_rest_of_line comment_text 4); [lia|].
  unfold Js.len. simpl. lia.
Defined.

Lemma last_occurrence_unique {A} (c : A) (l1 : list A) : ∀ l1' l2 l2',
  l1 ++ c :: l2 = l1' ++ c :: l2' → c ∉ l2 → c ∉ l2' → l1 = l1'.
Proof.
  induction l1 as [|a l1 IH]; intros [|a' l1'] l2 l2' Heq H2 H2'; simpl in Heq.
  - done.
  - injection Heq as <- ->. exfalso. apply H2, elem_of_app. right. by left.
  - injection Heq as -> <-. exfalso. apply H2', elem_of_app. right. by left.
  - injection Heq as -> Heq. f_equal. by eapply IH.
Qed.

(** X14: for a position within the text, [getLineStart] gives an offset up
    to the position that is 0 or follows a line feed, with no line feed
    between it and the position; it is on the line of the position, and
    the start of the line is the same from the end of the line. *)
Theorem getLineStart_start_of_line (text : jsstring) (p : Z) :
  0 <= p → p <= Js.len text →
  0 <= getLineStart text p <= p
  ∧ (LF ∉ Js.slice text (getLineStart text p) p)
  ∧ (getLineStart text p = 0
     ∨ (text : list ascii) !! Z.to_nat (getLineStart text p - 1) = Some LF)
  ∧ numLines text 0 (Some (getLineStart text p)) = numLines text 0 (Some p)
  ∧ getLineStart text (getLineEnd text p) = getLineStart text p.
Proof.
  intros Hp Hlen.
  assert (length (take (Z.to_nat p) text) = Z.to_nat p) as Hlt
    by (rewrite length_take; unfold Js.len in Hlen; lia).
  destruct (getLineEnd_line text p Hp Hlen) as (Hb & Htake & Hno & _).
  assert (0 <= getLineStart text p <= p
          ∧ (LF ∉ Js.slice text (getLineStart text p) p)
          ∧ (getLineStart text p = 0
             ∨ text !! Z.to_nat (getLineStart text p - 1) = Some LF)
          ∧ numLines text 0 (Some (getLineStart text p))
            = numLines text 0 (Some p)) as (H1 & H2 & H3 & H4).
  { destruct (getLineStart_spec text p Hp)
      as [[Hnone ->]|(pre & post & Hsplit & Hpost & ->)].
    - split; [lia|]. rewrite slice_inbounds by lia.
      change (Z.to_nat 0) with 0%nat. rewrite drop_0.
      split; [done|]. split; [by left|].
      rewrite !numLines_upto. change (Z.to_nat 0) with 0%nat.
      rewrite take_0, (countLF_none _ Hnone). done.
    - assert (Z.to_nat p = (length pre + 1 + length post)%nat) as Hl.
      { rewrite <- Hlt, Hsplit, length_app. simpl length. lia. }
      assert (Z.to_nat (Js.len pre + 1) = S (length pre)) as Hs
        by (unfold Js.len; lia).
      split; [unfold Js.len; lia|].
      rewrite slice_inbounds by (unfold Js.len in *; lia).
      rewrite Hsplit, Hs.
      assert (drop (S (length pre)) (pre ++ LF :: post) = post) as ->.
      { replace (S (length pre)) with (length pre + 1)%nat by lia.
        by rewrite drop_app_add. }
      split; [done|]. split.
      + right. replace (Z.to_nat (Js.len pre + 1 - 1)) with (length pre)
          by (unfold Js.len; lia).
        rewrite <- (lookup_take_lt text (Z.to_nat p)) by lia.
        rewrite Hsplit. by apply list_lookup_middle.
      + rewrite !numLines_upto, Hs.
        rewrite <- (Nat.min_l (S (length pre)) (Z.to_nat p)) by lia.
        rewrite <- take_take, Hsplit.
        replace (S (length pre)) with (length pre + 1)%nat by lia.
        rewrite take_app_add. simpl take. rewrite take_0, !countLF_app, !countLF_cons_LF.
        rewrite (countLF_none _ Hpost). unfold countLF. simpl. lia. }
  split; [done|]. split; [done|]. split; [done|]. split; [done|].
  destruct (getLineStart_spec text (getLineEnd text p) ltac:(lia))
    as [[Ee ->]|(pre' & post' & Ee & Hpost' & ->)];
    destruct (getLineStart_spec text p Hp)
      as [[Ep ->]|(pre & post & Ep & Hpost & ->)];
    rewrite Htake in Ee.
  - done.
  - exfalso. apply Ee. rewrite Ep, <- !app_assoc.
    apply elem_of_app. right. by left.
  - exfalso.
    assert (LF ∈ take (Z.to_nat p) text ++ lineAfter text p) as Hin
      by (rewrite Ee; apply elem_of_app; right; by left).
    apply elem_of_app in Hin as [Hin|Hin]; done.
  - rewrite Ep, <- app_assoc in Ee. simpl in Ee.
    symmetry in Ee. apply last_occurrence_unique in Ee as ->; [done | done |].
    intros Hin. apply elem_of_app in Hin as [Hin|Hin]; done.
Qed.

Lemma getLineStart_start_of_line_witness :
  getLineStart comment_text 4 = 2
  ∧ getLineStart comment_text (getLineEnd comment_text 4)
    = getLineStart comment_text 4.
Proof.
  split; [reflexivity|].
  apply (getLineStart_start_of_line comment_text 4); [lia|].
  unfold Js.len. simpl. lia.
Defined.

(** * Titles of a markdown text whose levels go up one at a time *)

(** The level of a title does not depend on the offset of its token. *)
Lemma titleLevel_level content pos length level offset :
  titleLevel content pos length = Some (level, offset) →
  ∃ offset', titleLevel content 0 length = Some (level, offset').
Proof.
  unfold titleLevel. destruct content as [|items]; [done|].
  destruct (items !! 0%nat) as [token1|]; simpl; [|done].
  destruct (truthy (token_type token1)).
  - intros [= <- <-]. by eexists.
  - destruct (items !! 1%nat) as [token2|]; simpl; [|done].
    destruct (startsWithEquals token2) as [[]|]; [| |done];
      intros [= <- <-]; by eexists.
Qed.

Lemma codeFold_start content pos length f :
  codeFold content pos length = Some f → is_Some f.1.
Proof.
  unfold codeFold. destruct content as [s|items].
  - destruct s as [|? [|? ?]]; [done | done |]. intros [= <-]. by eexists.
  - destruct (items !! 0%nat); simpl; [|done].
    destruct (items !! 1%nat); simpl; [|done].
    destruct (last items); simpl; [|done]. intros [= <-]. by eexists.
Qed.

Lemma closeTitles_inv value st n level :
  md_inv st n →
  match md_levels st with
  | None => level = 0
  | Some p => 0 <= level ∧ level <= p + 1
  end →
  ∀ pos offset,
    md_inv (mkMd (closeTitles value st level) pos
                 (<[level := offset]> (md_openTitles st)) (Some level)) (n + 1).
Proof.
  intros [Hf Hl] Hlevel pos offset. unfold md_inv, closeTitles. simpl.
  destruct (md_levels st) as [levels|].
  - destruct Hl as (H0 & Hn & Hopen). destruct Hlevel as [Hl1 Hl2].
    split; [|split; [done|split]].
    + apply Forall_app. split; [done|].
      apply Forall_forall. intros f Hin.
      apply (list_elem_of_fmap_1 (λ k, (md_openTitles st !! k, Js.len (Js.trimEnd (Js.slice value 0 (md_pos st)))))) in Hin as (k & -> & Hk).
      apply elem_of_seqZ in Hk. simpl. apply Hopen; lia.
    + rewrite length_app, length_map, length_seqZ. lia.
    + intros k Hk1 Hk2. destruct (decide (k = level)) as [->|Hne].
      * rewrite lookup_insert_eq. by eexists.
      * rewrite lookup_insert_ne by done. apply Hopen; lia.
  - subst level. split; [done|]. split; [lia|]. split; [lia|].
    intros k Hk1 Hk2. replace k with 0 by lia.
    rewrite lookup_insert_eq. by eexists.
Qed.

#[local] Arguments js : simpl never.

Lemma markdown_loop_inv value tokenList : ∀ st st' n,
  md_inv st n → levels_in_steps (md_levels st) tokenList →
  markdown_loop value st tokenList = Some st' →
  md_inv st' (n + Z.of_nat (length (List.filter isTitle tokenList))
                + Z.of_nat (length (List.filter isCodeBlock tokenList))).
Proof.
  induction tokenList as [|t rest IH]; intros st st' n Hinv Hlv; simpl.
  - intros [= <-]. by rewrite !Z.add_0_r.
  - destruct t as [s|type alias content len]; simpl.
    + intros H.
      exact (IH (mkMd (md_folds st) (md_pos st + Js.len s) (md_openTitles st)
                      (md_levels st)) _ n Hinv Hlv H).
    + simpl in Hlv.
      destruct (bool_decide (type = js "code") && negb (truthy alias)) eqn:Ec;
        simpl.
      * destruct (codeFold content (md_pos st) len) as [f|] eqn:Ef;
          simpl; [|done].
        assert (md_inv (mkMd (md_folds st ++ [f]) (md_pos st)
                             (md_openTitles st) (md_levels st)) (n + 1)) as Hinv1.
        { destruct Hinv as [Hf Hl]. split; simpl.
          - apply Forall_app. split; [done|]. constructor; [|done].
            by eapply codeFold_start.
          - rewrite length_app. simpl length.
            destruct (md_levels st); [|lia].
            destruct Hl as (? & ? & ?). split; [done|]. split; [lia | done]. }
        destruct (bool_decide (type = js "title")) eqn:Et; simpl.
        -- destruct (titleLevel content (md_pos st) len)
             as [[level offset]|] eqn:El; simpl; [|done].
           destruct (titleLevel_level _ _ _ _ _ El) as [offset' El'].
           rewrite El' in Hlv. destruct Hlv as [Hstep Hlv]. intros H.
           pose proof (closeTitles_inv value _ _ level Hinv1 Hstep
                         (md_pos st + len) offset) as Hinv2.
           apply (IH _ _ _ Hinv2 Hlv) in H. simpl length.
           replace (n + Z.of_nat (S (length (List.filter isTitle rest)))
                    + Z.of_nat (S (length (List.filter isCodeBlock rest))))
             with (n + 1 + 1 + Z.of_nat (length (List.filter isTitle rest))
                   + Z.of_nat (length (List.filter isCodeBlock rest))) by lia.
           done.
        -- intros H.
           apply (IH (mkMd (md_folds st ++ [f]) (md_pos st + len)
                           (md_openTitles st) (md_levels st)) _ _ Hinv1 Hlv) in H.
           simpl length.
           replace (n + Z.of_nat (length (List.filter isTitle rest))
                    + Z.of_nat (S (length (List.filter isCodeBlock rest))))
             with (n + 1 + Z.of_nat (length (List.filter isTitle rest))
                   + Z.of_nat (length (List.filter isCodeBlock rest))) by lia.
           done.
      * destruct (bool_decide (type = js "title")) eqn:Et; simpl.
        -- destruct (titleLevel content (md_pos st) len)
             as [[level offset]|] eqn:El; simpl; [|done].
           destruct (titleLevel_level _ _ _ _ _ El) as [offset' El'].
           rewrite El' in Hlv. destruct Hlv as [Hstep Hlv]. intros H.
           pose proof (closeTitles_inv value _ _ level Hinv Hstep
                         (md_pos st + len) offset) as Hinv2.
           apply (IH _ _ _ Hinv2 Hlv) in H. simpl length.
           replace (n + Z.of_nat (S (length (List.filter isTitle rest)))
                    + Z.of_nat (length (List.filter isCodeBlock rest)))
             with (n + 1 + Z.of_nat (length (List.filter isTitle rest))
                   + Z.of_nat (length (List.filter isCodeBlock rest))) by lia.
           done.
        -- intros H.
           apply (IH (mkMd (md_folds st) (md_pos st + len)
                           (md_openTitles st) (md_levels st)) _ n); done.
Qed.

(** Closing the titles from [level] on and opening a title at [level]
    moves the offsets of the closed titles from the open titles to the
    folds, and adds the offset of the new title. *)
Lemma closeTitles_starts value st level pos offset :
  match md_levels st with
  | None => level = 0
  | Some p => 0 <= p ∧ 0 <= level ∧ level <= p + 1
  end →
  (closeTitles value st level).*1
  ++ openStarts (mkMd (closeTitles value st level) pos
                      (<[level := offset]> (md_openTitles st)) (Some level))
  ≡ₚ ((md_folds st).*1 ++ openStarts st) ++ [Some offset].
Proof.
  intros Hlevel. unfold closeTitles, openStarts. cbn [md_levels md_openTitles].
  assert (0 <= level) as H0 by (destruct (md_levels st); lia).
  assert (map (λ k, <[level := offset]> (md_openTitles st) !! k)
              (seqZ 0 (level + 1))
          = map (λ k, md_openTitles st !! k) (seqZ 0 level) ++ [Some offset])
    as ->.
  { rewrite (seqZ_app 0 level 1) by lia. rewrite map_app. f_equal.
    - apply map_ext_in. intros k Hk. apply list_elem_of_In, elem_of_seqZ in Hk.
      rewrite lookup_insert_ne by lia. done.
    - rewrite Z.add_0_l. change (seqZ level 1) with [level]. simpl.
      by rewrite lookup_insert_eq. }
  destruct (md_levels st) as [levels|].
  - destruct Hlevel as (Hp & Hl1 & Hl2).
    rewrite fmap_app, <- list_fmap_compose.
    change (fst ∘ (λ k, (md_openTitles st !! k,
                         Js.len (Js.trimEnd (Js.slice value 0 (md_pos st))))))
      with (λ k, md_openTitles st !! k).
    replace (levels + 1) with (level + (levels - level + 1)) by lia.
    rewrite (seqZ_app 0 level (levels - level + 1)) by lia.
    rewrite Z.add_0_l, map_app.
    rewrite <- !app_assoc. apply Permutation_app_head.
    rewrite !app_assoc. apply Permutation_app_tail. apply Permutation_app_comm.
  - subst level. simpl. by rewrite !app_nil_r.
Qed.

(** The starts of the folds and of the open titles are, up to order, those
    that the tokens read so far call for. *)
Lemma markdown_loop_starts value tokenList : ∀ st st' n,
  md_inv st n → levels_in_steps (md_levels st) tokenList →
  markdown_loop value st tokenList = Some st' →
  (md_folds st').*1 ++ openStarts st'
  ≡ₚ ((md_folds st).*1 ++ openStarts st) ++ expectedStarts (md_pos st) tokenList.
Proof.
  induction tokenList as [|t rest IH]; intros st st' n Hinv Hlv; simpl.
  - intros [= <-]. by rewrite app_nil_r.
  - destruct t as [s|type alias content len]; simpl.
    + intros H.
      exact (IH (mkMd (md_folds st) (md_pos st + Js.len s) (md_openTitles st)
                      (md_levels st)) _ n Hinv Hlv H).
    + simpl in Hlv.
      destruct (bool_decide (type = js "code") && negb (truthy alias)) eqn:Ec;
        simpl.
      * destruct (codeFold content (md_pos st) len) as [f|] eqn:Ef;
          simpl; [|done].
        assert (md_inv (mkMd (md_folds st ++ [f]) (md_pos st)
                             (md_openTitles st) (md_levels st)) (n + 1)) as Hinv1.
        { destruct Hinv as [Hf Hl]. split; simpl.
          - apply Forall_app. split; [done|]. constructor; [|done].
            by eapply codeFold_start.
          - rewrite length_app. simpl length.
            destruct (md_levels st); [|lia].
            destruct Hl as (? & ? & ?). split; [done|]. split; [lia | done]. }
        assert (((md_folds st ++ [f]).*1 ++ openStarts st)
                ≡ₚ ((md_folds st).*1 ++ openStarts st) ++ [f.1]) as Hp1.
        { rewrite fmap_app. simpl. rewrite <- !app_assoc.
          apply Permutation_app_head, Permutation_app_comm. }
        destruct (bool_decide (type = js "title")) eqn:Et; simpl.
        -- destruct (titleLevel content (md_pos st) len)
             as [[level offset]|] eqn:El; simpl; [|done].
           destruct (titleLevel_level _ _ _ _ _ El) as [offset' El'].
           rewrite El' in Hlv. destruct Hlv as [Hstep Hlv]. intros H.
           pose proof (closeTitles_inv value _ _ level Hinv1 Hstep
                         (md_pos st + len) offset) as Hinv2.
           apply (IH _ _ _ Hinv2 Hlv) in H. rewrite H. simpl md_pos.
           change (f.1 :: Some offset :: expectedStarts (md_pos st + len) rest)
             with ([f.1; Some offset] ++ expectedStarts (md_pos st + len) rest).
           rewrite (app_assoc _ [f.1; Some offset]). apply Permutation_app_tail.
           etrans.
           { apply (closeTitles_starts value
                      (mkMd (md_folds st ++ [f]) (md_pos st)
                            (md_openTitles st) (md_levels st))
                      level (md_pos st + len) offset).
             simpl md_levels. destruct Hinv as [_ Hl].
             destruct (md_levels st); [lia | done]. }
           simpl md_folds.
           change (openStarts (mkMd (md_folds st ++ [f]) (md_pos st)
                                    (md_openTitles st) (md_levels st)))
             with (openStarts st).
           rewrite Hp1. by rewrite <- app_assoc.
        -- intros H.
           apply (IH (mkMd (md_folds st ++ [f]) (md_pos st + len)
                           (md_openTitles st) (md_levels st)) _ _ Hinv1 Hlv) in H.
           rewrite H. simpl md_pos. simpl md_folds.
           change (openStarts (mkMd (md_folds st ++ [f]) (md_pos st + len)
                                    (md_openTitles st) (md_levels st)))
             with (openStarts st).
           change (f.1 :: expectedStarts (md_pos st + len) rest)
             with ([f.1] ++ expectedStarts (md_pos st + len) rest).
           rewrite (app_assoc _ [f.1]). apply Permutation_app_tail.
           exact Hp1.
      * destruct (bool_decide (type = js "title")) eqn:Et; simpl.
        -- destruct (titleLevel content (md_pos st) len)
             as [[level offset]|] eqn:El; simpl; [|done].
           destruct (titleLevel_level _ _ _ _ _ El) as [offset' El'].
           rewrite El' in Hlv. destruct Hlv as [Hstep Hlv]. intros H.
           pose proof (closeTitles_inv value _ _ level Hinv Hstep
                         (md_pos st + len) offset) as Hinv2.
           apply (IH _ _ _ Hinv2 Hlv) in H. rewrite H. simpl md_pos.
           change (Some offset :: expectedStarts (md_pos st + len) rest)
             with ([Some offset] ++ expectedStarts (md_pos st + len) rest).
           rewrite (app_assoc _ [Some offset]). apply Permutation_app_tail.
           apply (closeTitles_starts value st level (md_pos st + len) offset).
           destruct Hinv as [_ Hl]. destruct (md_levels st); [lia | done].
        -- intros H.
           apply (IH (mkMd (md_folds st) (md_pos st + len)
                           (md_openTitles st) (md_levels st)) _ n); done.
Qed.

(** X15: in a markdown text whose first title has level 0 and whose titles
    are never more than one level deeper than the title before them, every
    fold that [markdownFolding] returns has a start, there is one fold for
    each title and one for each code block, and the starts of the folds
    are, up to order, the start of each code block and the offset stored
    for each title, each of them once: every title is closed once, and no
    title twice. *)
Theorem markdownFolding_levels_in_steps (value : jsstring)
    (tokenList : list token) (language : jsstring) (folds : list mdFold) :
  language = js "markdown" ∨ language = js "md" →
  levels_in_steps None tokenList →
  markdownFolding value tokenList language = Some folds →
  Forall (λ f : mdFold, is_Some f.1) folds
  ∧ length folds
    = (length (List.filter isTitle tokenList)
       + length (List.filter isCodeBlock tokenList))%nat
  ∧ folds.*1 ≡ₚ expectedStarts 0 tokenList.
Proof.
  intros Hlang Hlv. unfold markdownFolding.
  assert (bool_decide (language = js "markdown") || bool_decide (language = js "md")
          = true) as ->.
  { apply orb_true_iff.
    destruct Hlang as [-> | ->]; [left | right]; by apply bool_decide_eq_true. }
  destruct (markdown_loop value (mkMd [] 0 ∅ None) tokenList) as [st|] eqn:E;
    simpl; [|done].
  intros [= <-].
  assert (md_inv (mkMd [] 0 ∅ None) 0) as H0 by (split; [constructor | done]).
  pose proof (markdown_loop_inv value tokenList _ _ 0 H0 Hlv E) as [Hf Hl].
  pose proof (markdown_loop_starts value tokenList _ _ 0 H0 Hlv E) as Hstarts.
  unfold openStarts in Hstarts. simpl in Hstarts.
  unfold closeTitles. destruct (md_levels st) as [levels|].
  - destruct Hl as (Hpos & Hn & Hopen). split; [|split].
    + apply Forall_app. split; [done|].
      apply Forall_forall. intros f Hin.
      apply (list_elem_of_fmap_1 (λ k, (md_openTitles st !! k, Js.len (Js.trimEnd (Js.slice value 0 (md_pos st)))))) in Hin as (k & -> & Hk).
      apply elem_of_seqZ in Hk. simpl. apply Hopen; lia.
    + rewrite length_app, length_map, length_seqZ. lia.
    + rewrite <- Hstarts. rewrite fmap_app, <- list_fmap_compose.
      by replace (levels - 0 + 1) with (levels + 1) by lia.
  - split; [done|]. split; [lia|]. rewrite <- Hstarts. by rewrite app_nil_r.
Qed.

Lemma markdownFolding_levels_in_steps_witness :
  markdownFolding md_steps_text md_steps_tokens (js "md")
  = Some [ (Some 3, 12); (Some 10, 12); (Some 16, 18) ]
  ∧ length ([ (Some 3, 12); (Some 10, 12); (Some 16, 18) ] : list mdFold)
    = (length (List.filter isTitle md_steps_tokens)
       + length (List.filter isCodeBlock md_steps_tokens))%nat
  ∧ ([ (Some 3, 12); (Some 10, 12); (Some 16, 18) ] : list mdFold).*1
    ≡ₚ expectedStarts 0 md_steps_tokens.
Proof.
  split; [reflexivity|].
  refine (proj2 (markdownFolding_levels_in_steps md_steps_text md_steps_tokens
                   (js "md") _ _ _ _)).
  - by right.
  - vm_compute. repeat split; intros H; discriminate H.
  - reflexivity.
Defined.

(** * Line numbers of the folded view *)

Lemma countLF_pos l : LF ∈ l → 1 <= countLF l.
Proof.
  intros H. apply list_elem_of_split in H as (l1 & l2 & ->).
  rewrite countLF_app, countLF_cons_LF.
  pose proof (countLF_nonneg l1). pose proof (countLF_nonneg l2). lia.
Qed.

Lemma lineFeeds_nonneg text a b : 0 <= lineFeeds text a b.
Proof. apply countLF_nonneg. Qed.

Lemma lineFeeds_add text a b c :
  0 <= a → a <= b → b <= c →
  lineFeeds text a c = lineFeeds text a b + lineFeeds text b c.
Proof.
  intros Ha Hab Hbc. unfold lineFeeds. rewrite <- countLF_app. f_equal.
  replace (Z.to_nat (c - a)) with (Z.to_nat (b - a) + Z.to_nat (c - b))%nat by lia.
  rewrite <- take_take_drop, drop_drop. do 3 f_equal. lia.
Qed.

Lemma lineFeeds_prefix text b :
  0 <= b → lineFeeds text 0 b = countLF (take (Z.to_nat b) text).
Proof.
  intros Hb. unfold lineFeeds. change (Z.to_nat 0) with 0%nat.
  by rewrite drop_0, Z.sub_0_r.
Qed.

Lemma numLines_lineFeeds text a b :
  0 <= a → a <= Js.len text →
  numLines text a (Some b) = 1 + lineFeeds text a b.
Proof.
  intros Ha Hlen. rewrite numLines_lineWindow. unfold lineWindow, lineFeeds.
  by replace (Z.min (Z.max a 0) (Js.len text)) with a by lia.
Qed.

Lemma isMultiline_lineFeeds text a b :
  0 <= a → a <= b → b <= Js.len text →
  isMultiline text a b = true → 1 <= lineFeeds text a b.
Proof.
  intros Ha Hab Hb H. unfold isMultiline in H. apply includes_elem_of in H.
  rewrite slice_inbounds in H by done. apply countLF_pos.
  unfold lineFeeds. rewrite take_drop_commute.
  by replace (Z.to_nat a + Z.to_nat (b - a))%nat with (Z.to_nat b) by lia.
Qed.

Lemma hiddenLF_zero text p l :
  Forall (λ r : range, p < r.2) l → hiddenLF text p l = 0.
Proof.
  induction 1 as [|r l Hr _ IH]; simpl; [done|].
  assert ((r.2 <=? p) = false) as -> by (apply Z.leb_gt; lia). lia.
Qed.

Lemma hiddenLF_nonneg text p l : 0 <= hiddenLF text p l.
Proof.
  induction l as [|r l IH]; simpl; [done|].
  pose proof (lineFeeds_nonneg text r.1 r.2). destruct (r.2 <=? p); lia.
Qed.

(** The ranges of a chain that starts at [lo], with [p <= lo], all end
    after [p]. *)
Lemma chained_ends_after hi l : ∀ lo p,
  chained lo l hi → Forall valid l → p <= lo →
  Forall (λ r : range, p < r.2) l.
Proof.
  intros lo p Hc Hv Hp.
  pose proof (chained_starts _ _ _ Hc) as Hs.
  rewrite Forall_forall in *. intros r Hr.
  specialize (Hs r Hr). specialize (Hv r Hr). unfold valid in Hv. simpl in *. lia.
Qed.

(** The line feeds hidden before [p] in a chain are among those of the text
    from the start of the chain to [p]. *)
Lemma hiddenLF_bound text p l : ∀ lo,
  chained lo l (Js.len text) → Forall valid l → 0 <= lo → lo <= p →
  (∀ r : range, r ∈ l → p <= r.1 ∨ r.2 <= p) →
  hiddenLF text p l <= lineFeeds text lo p.
Proof.
  induction l as [|[s e] l IH]; intros lo Hc Hv Hlo Hp Hvis; simpl.
  - apply lineFeeds_nonneg.
  - destruct Hc as (H1 & H2 & H3). simpl in *.
    apply Forall_cons in Hv as [Hv1 Hv]. unfold valid in Hv1. simpl in Hv1.
    destruct (e <=? p) eqn:E; [apply Z.leb_le in E | apply Z.leb_gt in E].
    + assert (hiddenLF text p l <= lineFeeds text e p) as Hrest.
      { apply IH; try done; try lia. intros r Hr. apply Hvis. by right. }
      rewrite (lineFeeds_add text lo s p), (lineFeeds_add text s e p) by lia.
      pose proof (lineFeeds_nonneg text lo s). lia.
    + rewrite hiddenLF_zero.
      * pose proof (lineFeeds_nonneg text lo p). lia.
      * destruct (Hvis (s, e) ltac:(by left)) as [Hle|Hle]; simpl in Hle; [|lia].
        eapply chained_ends_after; [exact H3 | done | lia].
Qed.

(** The line feeds of the view before the position of a visible offset are
    those of the text before the offset that are not hidden. *)
Lemma replace_ranges_countLF (text : list ascii) p l : ∀ lo,
  chained lo l (Js.len text) → Forall valid l → 0 <= lo → lo <= p →
  (∀ r : range, r ∈ l → p <= r.1 ∨ r.2 <= p) →
  countLF (take (Z.to_nat (p - shrinkage p l)) (replace_ranges text l))
  = countLF (take (Z.to_nat p) text) - hiddenLF text p l.
Proof.
  induction l as [|[s e] l IH]; intros lo Hc Hv Hlo Hp Hvis; simpl.
  - rewrite Z.sub_0_r. lia.
  - destruct Hc as (H1 & H2 & H3). simpl in *.
    apply Forall_cons in Hv as [Hv1 Hv]. unfold valid in Hv1. simpl in Hv1.
    pose proof (chained_le _ _ _ H3) as Hle.
    assert (∀ r : range, r ∈ l → p <= r.1 ∨ r.2 <= p) as Hvis'
      by (intros r Hr; apply Hvis; by right).
    unfold replace_range. simpl fst. simpl snd.
    assert (take (Z.to_nat s) (replace_ranges text l) = take (Z.to_nat s) text) as ->.
    { rewrite <- (Nat.min_l (Z.to_nat s) (Z.to_nat e)) by lia.
      rewrite <- !take_take. f_equal. apply replace_ranges_prefix; [lia | done]. }
    assert (length (take (Z.to_nat s) text) = Z.to_nat s) as Hlen
      by (rewrite length_take; unfold Js.len in Hle; lia).
    destruct (e <=? p) eqn:E; [apply Z.leb_le in E | apply Z.leb_gt in E].
    + assert ((s <? p) = true) as -> by (apply Z.ltb_lt; lia). cbn [andb].
      pose proof (chained_shrinkage_bound p _ _ _ H3 Hv E) as Hb.
      specialize (IH e H3 Hv ltac:(lia) E Hvis').
      assert (take (Z.to_nat (p - shrinkage p l)) (replace_ranges text l)
              = take (Z.to_nat e) text
                ++ take (Z.to_nat (p - shrinkage p l - e))
                        (drop (Z.to_nat e) (replace_ranges text l))) as Hsplit.
      { replace (Z.to_nat (p - shrinkage p l))
          with (Z.to_nat e + Z.to_nat (p - shrinkage p l - e))%nat by lia.
        rewrite <- take_take_drop. f_equal.
        apply replace_ranges_prefix; [lia | done]. }
      rewrite Hsplit, countLF_app in IH.
      replace (Z.to_nat (p - (e - s - 3 + shrinkage p l)))
        with (Z.to_nat s + (3 + Z.to_nat (p - shrinkage p l - e)))%nat by lia.
      rewrite take_app_add' by done.
      rewrite (take_app_add' placeholder _ 3) by done.
      rewrite !countLF_app.
      assert (countLF placeholder = 0) as -> by (by vm_compute).
      assert (countLF (take (Z.to_nat e) text)
              = countLF (take (Z.to_nat s) text) + lineFeeds text s e) as He.
      { rewrite <- !lineFeeds_prefix by lia. apply lineFeeds_add; lia. }
      lia.
    + destruct (Hvis (s, e) ltac:(by left)) as [Hps|Hps]; simpl in Hps; [|lia].
      assert ((s <? p) = false) as -> by (apply Z.ltb_ge; lia). cbn [andb].
      rewrite shrinkage_zero, hiddenLF_zero.
      * replace (p - (0 + 0)) with p by lia.
        rewrite take_app_le by lia. rewrite take_take.
        replace (Z.to_nat p `min` Z.to_nat s)%nat with (Z.to_nat p) by lia. lia.
      * eapply chained_ends_after; [exact H3 | done | lia].
      * eapply Forall_impl; [apply (chained_starts _ _ _ H3)|].
        simpl. intros r Hr. lia.
Qed.

Lemma numLines_ge_1 text a b : 1 <= numLines text a b.
Proof.
  rewrite numLines_lineWindow.
  pose proof (countLF_nonneg (lineWindow text a b)). lia.
Qed.

Lemma dataLine_insert_above sk k v (i : nat) :
  Z.of_nat i <= k → dataLine (<[k := v]> sk) i = dataLine sk i.
Proof.
  induction i as [|n IH]; intros Hk; simpl; [done|].
  rewrite IH by lia. rewrite lookup_insert_ne by lia. done.
Qed.

Lemma dataLine_insert_fresh sk k v (i : nat) :
  sk !! k = None → 0 <= k → 1 <= v →
  dataLine (<[k := v]> sk) i
  = dataLine sk i + (if k <? Z.of_nat i then v - 1 else 0).
Proof.
  intros Hfresh Hk Hv. induction i as [|n IH]; simpl.
  - destruct (k <? Z.of_nat 0) eqn:E; [apply Z.ltb_lt in E; lia | lia].
  - rewrite IH. destruct (decide (k = Z.of_nat n)) as [->|Hne].
    + rewrite lookup_insert_eq, Hfresh.
      assert ((v =? 0) = false) as -> by (apply Z.eqb_neq; lia).
      assert ((Z.of_nat n <? Z.of_nat n) = false) as -> by (apply Z.ltb_ge; lia).
      assert ((Z.of_nat n <? Z.of_nat (S n)) = true) as -> by (apply Z.ltb_lt; lia).
      lia.
    + rewrite lookup_insert_ne by done.
      destruct (k <? Z.of_nat n) eqn:E1;
        [apply Z.ltb_lt in E1 | apply Z.ltb_ge in E1].
      * assert ((k <? Z.of_nat (S n)) = true) as -> by (apply Z.ltb_lt; lia). lia.
      * assert ((k <? Z.of_nat (S n)) = false) as -> by (apply Z.ltb_ge; lia). lia.
Qed.

(** Folds met once the line counter has reached line [i] leave the numbers
    of the lines up to [i] as they are. *)
Lemma update_loop_dataLine_above code (i : nat) l : ∀ v,
  Z.of_nat i <= v_ln v →
  dataLine (v_skippedLines (fold_left (update_step code) l v)) i
  = dataLine (v_skippedLines v) i.
Proof.
  induction l as [|r l IH]; intros v Hln; simpl; [done|].
  pose proof (numLines_ge_1 code (v_pos v) (Some r.1)).
  rewrite IH by (simpl; lia). simpl.
  apply dataLine_insert_above. lia.
Qed.

(** The loop of [update] over a chain of folds: the number of line [i],
    the line of the view that holds the visible offset [p], grows by the
    line feeds of the folds that end before [p], when each of these folds is
    followed by a line feed before the next one and before [p]. *)
Lemma update_loop_dataLine code p (i : nat) l : ∀ v,
  chained (v_pos v) l (Js.len code) → Forall valid l →
  0 <= v_pos v → v_pos v <= p → p <= Js.len code →
  (∀ r : range, r ∈ l → p <= r.1 ∨ r.2 <= p) →
  (∀ r : range, r ∈ l → r.2 <= p → 1 <= lineFeeds code r.2 p) →
  (∀ r r' : range, r ∈ l → r' ∈ l → r.2 <= r'.1 → r'.2 <= p →
     1 <= lineFeeds code r.2 r'.1) →
  Z.of_nat i - v_ln v = lineFeeds code (v_pos v) p - hiddenLF code p l →
  0 <= v_ln v →
  (∀ k, is_Some (v_skippedLines v !! k) →
     match l with
     | r :: _ => r.2 <= p → k < v_ln v + lineFeeds code (v_pos v) r.1
     | [] => True
     end) →
  dataLine (v_skippedLines (fold_left (update_step code) l v)) i
  = dataLine (v_skippedLines v) i + hiddenLF code p l.
Proof.
  induction l as [|[s e] l IH];
    intros v Hc Hv Hpos Hp Hlen Hvis Hsep1 Hsep2 Hi Hln Hkeys; simpl.
  - lia.
  - destruct Hc as (H1 & H2 & H3). simpl in H1, H2, H3.
    apply Forall_cons in Hv as [Hv1 Hv]. unfold valid in Hv1. simpl in Hv1.
    pose proof (chained_le _ _ _ H3) as Hle.
    assert (v_ln v + numLines code (v_pos v) (Some s) - 1
            = v_ln v + lineFeeds code (v_pos v) s) as Hln'
      by (rewrite numLines_lineFeeds by lia; lia).
    pose proof (lineFeeds_nonneg code (v_pos v) s) as Hnn.
    simpl in Hi, Hkeys.
    destruct (e <=? p) eqn:E; [apply Z.leb_le in E | apply Z.leb_gt in E].
    + (* the fold ends before [p] *)
      assert (1 <= lineFeeds code e p - hiddenLF code p l) as Hretained.
      { destruct l as [|[s' e'] l'].
        - simpl. specialize (Hsep1 (s, e) ltac:(by left) E). simpl in Hsep1. lia.
        - destruct H3 as (H4 & H5 & H6). simpl in H4, H5, H6.
          apply Forall_cons in Hv as [Hv2 Hv']. unfold valid in Hv2. simpl in Hv2.
          simpl.
          destruct (e' <=? p) eqn:E'; [apply Z.leb_le in E' | apply Z.leb_gt in E'].
          + assert (hiddenLF code p l' <= lineFeeds code e' p) as Hb.
            { apply (hiddenLF_bound code p l' e'); try done; try lia.
              intros r Hr. apply Hvis. right. by right. }
            assert (1 <= lineFeeds code e s') as Hs.
            { apply (Hsep2 (s, e) (s', e')); simpl; try done; try lia.
              - by left.
              - right. by left. }
            rewrite (lineFeeds_add code e s' p), (lineFeeds_add code s' e' p) by lia.
            lia.
          + rewrite hiddenLF_zero.
            * specialize (Hsep1 (s, e) ltac:(by left) E). simpl in Hsep1. lia.
            * destruct (Hvis (s', e') ltac:(right; by left)) as [Hq|Hq];
                simpl in Hq; [|lia].
              eapply chained_ends_after; [exact H6 | done | lia]. }
      rewrite (lineFeeds_add code (v_pos v) s p),
        (lineFeeds_add code s e p) in Hi by lia.
      rewrite (IH (update_step code v (s, e))); simpl; try done; try lia.
      * rewrite Hln'. rewrite dataLine_insert_fresh.
        -- assert ((v_ln v + lineFeeds code (v_pos v) s <? Z.of_nat i) = true)
             as -> by (apply Z.ltb_lt; lia).
           rewrite numLines_lineFeeds by lia. lia.
        -- destruct (v_skippedLines v !! (v_ln v + lineFeeds code (v_pos v) s))
             eqn:Ek; [|done].
           specialize (Hkeys _ (mk_is_Some _ _ Ek) E). lia.
        -- lia.
        -- apply numLines_ge_1.
      * intros r Hr. apply Hvis. by right.
      * intros r Hr. apply Hsep1. by right.
      * intros r r' Hr Hr'. apply Hsep2; by right.
      * rewrite Hln'. intros k Hk. destruct l as [|[s' e'] l']; [done|].
        simpl. intros E'.
        assert (1 <= lineFeeds code e s') as Hs.
        { destruct H3 as (H4 & _). simpl in H4.
          apply (Hsep2 (s, e) (s', e')); simpl; try done.
          - by left.
          - right. by left. }
        destruct (decide (k = v_ln v + lineFeeds code (v_pos v) s)) as [->|Hne];
          [lia|].
        rewrite lookup_insert_ne in Hk by done.
        specialize (Hkeys k Hk E). lia.
    + (* the fold, and those after it, start at [p] or after *)
      destruct (Hvis (s, e) ltac:(by left)) as [Hq|Hq]; simpl in Hq; [|lia].
      rewrite hiddenLF_zero
        by (eapply chained_ends_after; [exact H3 | done | lia]).
      rewrite hiddenLF_zero in Hi
        by (eapply chained_ends_after; [exact H3 | done | lia]).
      rewrite (lineFeeds_add code (v_pos v) p s) in Hln' by lia.
      pose proof (lineFeeds_nonneg code p s).
      rewrite update_loop_dataLine_above by (simpl; lia). simpl.
      rewrite dataLine_insert_above by lia. lia.
Qed.

Lemma dataLine_empty (i : nat) : dataLine ∅ i = Z.of_nat i.
Proof.
  induction i as [|n IH]; simpl; [done|]. rewrite IH, lookup_empty. lia.
Qed.

(** X16: when the folded ranges are valid, within the text and pairwise
    disjoint, [update] numbers the line of the view that holds a visible
    offset [p] with the line number that [p] has in the full text, provided
    that every folded range that ends before [p] is followed by a line feed
    before [p] and before the next folded range: the line numbers of the
    folded view are those of the full text as long as no two folds start on
    the same line of the view.  For [p] the start of the anchor of a line,
    this is the line on which [updateFolds] puts the toggle of that
    line. *)
Theorem update_data_line (code : jsstring) (ranges : list range) (p : Z) :
  Forall valid ranges →
  Forall (λ r : range, 0 <= r.1 ∧ r.2 <= Js.len code) ranges →
  non_overlapping ranges →
  0 <= p → p <= Js.len code → ¬ hidden ranges p →
  (∀ r : range, r ∈ ranges → r.2 <= p → isMultiline code r.2 p = true) →
  (∀ r r' : range, r ∈ ranges → r' ∈ ranges → r.2 <= r'.1 → r'.2 <= p →
     isMultiline code r.2 r'.1 = true) →
  dataLine (v_skippedLines (update_loop code (sort_by_start ranges)))
           (Z.to_nat (numLines (update_value code ranges) 0
                               (Some (getPosition ranges p))))
  = numLines code 0 (Some p).
Proof.
  intros Hv Hb Hd Hp Hlen Hvisible Hsep1 Hsep2.
  destruct (update_value_replace code _ Hv Hb Hd) as [Heq Hc].
  pose proof (sort_by_start_perm ranges) as Hperm.
  set (l := sort_by_start ranges) in *.
  assert (Forall valid l) as Hv' by (by rewrite Hperm).
  assert (∀ r : range, r ∈ l → 0 <= r.1 ∧ r.1 < r.2 ∧ r.2 <= Js.len code) as Hin.
  { intros r Hr. rewrite Hperm in Hr. rewrite Forall_forall in Hv, Hb.
    specialize (Hv r Hr). specialize (Hb r Hr). unfold valid in Hv. lia. }
  assert (∀ r : range, r ∈ l → p <= r.1 ∨ r.2 <= p) as Hvis.
  { intros r Hr. rewrite Hperm in Hr.
    destruct (decide (p <= r.1)) as [|H1]; [by left|].
    destruct (decide (r.2 <= p)) as [|H2]; [by right|].
    exfalso. apply Hvisible. exists r. split; [done | lia]. }
  rewrite getPosition_visible by done.
  rewrite (shrinkage_perm _ _ _ (symmetry Hperm)). fold l.
  rewrite Heq, !numLines_upto.
  rewrite (replace_ranges_countLF code p l 0) by (done || lia).
  pose proof (hiddenLF_bound code p l 0 Hc Hv' ltac:(lia) Hp Hvis) as Hbound.
  rewrite lineFeeds_prefix in Hbound by done.
  unfold update_loop.
  rewrite (update_loop_dataLine code p); simpl; try done; try lia.
  - rewrite dataLine_empty. lia.
  - intros r Hr Hr2. destruct (Hin r Hr) as (? & ? & ?).
    apply isMultiline_lineFeeds; try lia. apply Hsep1; [by rewrite <- Hperm | done].
  - intros r r' Hr Hr' H1 H2.
    destruct (Hin r Hr) as (? & ? & ?). destruct (Hin r' Hr') as (? & ? & ?).
    apply isMultiline_lineFeeds; try lia.
    apply Hsep2; try done; by rewrite <- Hperm.
  - rewrite lineFeeds_prefix by done. lia.
  - intros k [x Hk]. by rewrite lookup_empty in Hk.
Qed.

Ltac in_cases :=
  repeat match goal with
         | H : _ ∈ _ :: _ |- _ => apply elem_of_cons in H as [->|H]
         | H : _ ∈ [] |- _ => by apply not_elem_of_nil in H
         end.

Lemma update_data_line_witness :
  dataLine (v_skippedLines
              (update_loop braces_text (sort_by_start [(16, 19); (1, 13)])))
           (Z.to_nat (numLines (update_value braces_text [(16, 19); (1, 13)]) 0
                               (Some (getPosition [(16, 19); (1, 13)] 15))))
  = numLines braces_text 0 (Some 15).
Proof.
  apply (update_data_line braces_text [(16, 19); (1, 13)] 15).
  - ranges_facts.
  - repeat constructor; simpl; unfold Js.len; simpl; lia.
  - ranges_facts.
  - lia.
  - unfold Js.len. simpl. lia.
  - intros (r & Hr & H1 & H2). in_cases; simpl in *; lia.
  - intros r Hr H. in_cases; simpl in *; [lia | reflexivity].
  - intros r r' Hr Hr' H1 H2. in_cases; simpl in *; lia.
Defined.

Lemma hiddenLF_elem text p (r : range) l :
  r ∈ l → r.2 <= p → lineFeeds text r.1 r.2 <= hiddenLF text p l.
Proof.
  intros Hr Hp. induction l as [|x l IH]; [by apply elem_of_nil in Hr|].
  simpl. pose proof (hiddenLF_nonneg text p l).
  pose proof (lineFeeds_nonneg text x.1 x.2).
  apply elem_of_cons in Hr as [<- | Hr].
  - assert ((r.2 <=? p) = true) as -> by (by apply Z.leb_le). lia.
  - specialize (IH Hr). destruct (x.2 <=? p); lia.
Qed.

(** The view has the line feeds of the text less those of the folded
    ranges. *)
Lemma update_value_countLF text ranges :
  Forall valid ranges →
  Forall (λ r : range, 0 <= r.1 ∧ r.2 <= Js.len text) ranges →
  non_overlapping ranges →
  countLF (update_value text ranges)
  = countLF text - hiddenLF text (Js.len text) (sort_by_start ranges).
Proof.
  intros Hv Hb Hd.
  destruct (update_value_replace text ranges Hv Hb Hd) as [-> Hc].
  pose proof (sort_by_start_perm ranges) as Hperm.
  assert (Forall valid (sort_by_start ranges)) as Hv' by (by rewrite Hperm).
  pose proof (replace_ranges_length text _ 0 Hc Hv' ltac:(lia)) as Hlen.
  pose proof (chained_le _ _ _ Hc) as Hle.
  pose proof (replace_ranges_countLF text (Js.len text) _ 0 Hc Hv'
                ltac:(lia) Hle) as H.
  rewrite <- Hlen in H. unfold Js.len in H.
  rewrite !Nat2Z.id, !firstn_all in H. apply H.
  intros r Hr. right.
  assert (r ∈ ranges) as Hr' by (by rewrite <- Hperm).
  rewrite Forall_forall in Hb. by apply Hb.
Qed.

(** X8: when [props.language] changes on an editor with folded ranges,
    [createFolds] runs on the folded view, which becomes [fullCode] while
    the folds are cleared: the copy button then writes the folded view, and
    not the text that [fullCode] gave before, from which it differs, with
    fewer line feeds, as soon as a folded range holds a line feed. *)
Theorem copied_text_after_language_change (c c' : closure)
    (matchTags : option TagMatcher) (matchBrackets : option BracketMatcher)
    (providers : list FoldingRangeProvider) (r : range)
    (editorValue : jsstring) :
  Forall valid (foldedRanges (sets c)) →
  Forall (λ r : range, 0 <= r.1 ∧ r.2 <= Js.len (code c)) (foldedRanges (sets c)) →
  non_overlapping (foldedRanges (sets c)) →
  r ∈ foldedRanges (sets c) → 1 <= lineFeeds (code c) r.1 r.2 →
  createFolds_again (folding.updateFolds c) matchTags matchBrackets providers
  = Some c' →
  copiedText (Some c') editorValue = value (folding.updateFolds c)
  ∧ sets c' = emptyStore
  ∧ countLF (copiedText (Some c') editorValue)
    < countLF (copiedText (Some (folding.updateFolds c)) editorValue)
  ∧ copiedText (Some c') editorValue
    ≠ copiedText (Some (folding.updateFolds c)) editorValue.
Proof.
  intros Hv Hb Hd Hr Hlf Hc'.
  unfold createFolds_again, createFolds in Hc'.
  destruct (collectFolds _ matchTags matchBrackets providers); simpl in Hc'; [|done].
  injection Hc' as <-.
  assert (countLF (update_value (code c) (foldedRanges (sets c)))
          < countLF (code c)) as Hlt.
  { rewrite (update_value_countLF _ _ Hv Hb Hd).
    pose proof (sort_by_start_perm (foldedRanges (sets c))) as Hperm.
    assert (r ∈ sort_by_start (foldedRanges (sets c))) as Hr' by (by rewrite Hperm).
    pose proof (hiddenLF_elem (code c) (Js.len (code c)) r _ Hr') as H.
    rewrite Forall_forall in Hb. specialize (H (proj2 (Hb r Hr))). lia. }
  unfold copiedText, folding.fullCode, folding.updateFolds, update. simpl.
  split; [done|]. split; [done|]. split; [done|].
  intros Heq. rewrite Heq in Hlt. lia.
Qed.

Lemma copied_text_after_language_change_witness :
  copiedText
    (createFolds_again (folding.updateFolds (run [(1%nat, None)] braces))
                       None None []) []
  ≠ braces_text.
Proof.
  refine (proj2 (proj2 (proj2
    (copied_text_after_language_change
       (run [(1%nat, None)] braces)
       (fresh (value (folding.updateFolds (run [(1%nat, None)] braces))) ∅)
       None None [] (1, 13) [] _ _ _ _ _ _)))).
  - constructor; [|constructor]. unfold valid. simpl. lia.
  - constructor; [|constructor]. split; vm_compute; discriminate.
  - simpl. repeat split; constructor.
  - by left.
  - by vm_compute.
  - by vm_compute.
Defined.

(** * The marker of a folded range in the view *)

Lemma non_overlapping_elem l (r r' : range) :
  non_overlapping l → Forall valid l → r ∈ l → r' ∈ l → r = r' ∨ disjoint r r'.
Proof.
  induction l as [|x l IH]; intros Hd Hv Hr Hr'; [by apply not_elem_of_nil in Hr|].
  destruct Hd as [Hx Hd]. apply Forall_cons in Hv as [_ Hv].
  rewrite Forall_forall in Hx.
  apply elem_of_cons in Hr as [->|Hr]; apply elem_of_cons in Hr' as [->|Hr'].
  - by left.
  - right. by apply Hx.
  - right. apply disjoint_sym. by apply Hx.
  - by apply IH.
Qed.

Lemma shrinkage_disjoint (r : range) l :
  valid r → Forall valid l → Forall (disjoint r) l →
  shrinkage r.2 l = shrinkage r.1 l.
Proof.
  intros Hr Hv Hd. induction l as [|x l IH]; simpl; [done|].
  apply Forall_cons in Hv as [Hx Hv]. apply Forall_cons in Hd as [Hdx Hd].
  rewrite IH by done. unfold valid, disjoint in *.
  destruct ((x.1 <? r.2) && (x.2 <=? r.2)) eqn:E1;
    destruct ((x.1 <? r.1) && (x.2 <=? r.1)) eqn:E2; try done; exfalso.
  - apply andb_true_iff in E1 as [E1 E1']. apply Z.ltb_lt in E1.
    apply Z.leb_le in E1'.
    apply andb_false_iff in E2 as [E2|E2];
      [apply Z.ltb_ge in E2 | apply Z.leb_gt in E2]; lia.
  - apply andb_true_iff in E2 as [E2 E2']. apply Z.ltb_lt in E2.
    apply Z.leb_le in E2'.
    apply andb_false_iff in E1 as [E1|E1];
      [apply Z.ltb_ge in E1 | apply Z.leb_gt in E1]; lia.
Qed.

(** From the start of a folded range to its end, the positions shrink by
    the length of the range less the three units of the marker. *)
Lemma shrinkage_across (r : range) l :
  non_overlapping l → Forall valid l → r ∈ l →
  shrinkage r.2 l = shrinkage r.1 l + (r.2 - r.1 - 3).
Proof.
  induction l as [|x l IH]; intros Hd Hv Hr; [by apply not_elem_of_nil in Hr|].
  destruct Hd as [Hx Hd]. apply Forall_cons in Hv as [Hvx Hv]. simpl.
  apply elem_of_cons in Hr as [->|Hr].
  - rewrite (shrinkage_disjoint x l) by done. unfold valid in Hvx.
    assert ((x.1 <? x.2) && (x.2 <=? x.2) = true) as ->
      by (apply andb_true_iff; split; [apply Z.ltb_lt | apply Z.leb_le]; lia).
    assert ((x.1 <? x.1) = false) as -> by (apply Z.ltb_ge; lia).
    simpl. lia.
  - rewrite IH by done.
    assert (disjoint x r) as Hxr by (rewrite Forall_forall in Hx; by apply Hx).
    assert (valid r) as Hvr by (rewrite Forall_forall in Hv; by apply Hv).
    unfold valid, disjoint in *.
    destruct ((x.1 <? r.2) && (x.2 <=? r.2)) eqn:E1;
      destruct ((x.1 <? r.1) && (x.2 <=? r.1)) eqn:E2; lia.
Qed.

(** In the text with the ranges of a chain replaced, the marker stands at
    the position of the start of each range. *)
Lemma replace_ranges_placeholder (text : list ascii) (r : range) l : ∀ lo,
  chained lo l (Js.len text) → Forall valid l → 0 <= lo → r ∈ l →
  take 3 (drop (Z.to_nat (r.1 - shrinkage r.1 l)) (replace_ranges text l))
  = placeholder.
Proof.
  induction l as [|[s e] l IH]; intros lo Hc Hv Hlo Hr;
    [by apply not_elem_of_nil in Hr|].
  destruct Hc as (H1 & H2 & H3). simpl in H1, H2, H3.
  apply Forall_cons in Hv as [Hv1 Hv]. unfold valid in Hv1. simpl in Hv1.
  pose proof (chained_le _ _ _ H3) as Hle.
  pose proof (chained_starts _ _ _ H3) as Hstarts.
  simpl replace_ranges. unfold replace_range. simpl fst. simpl snd.
  assert (take (Z.to_nat s) (replace_ranges text l) = take (Z.to_nat s) text) as ->.
  { rewrite <- (Nat.min_l (Z.to_nat s) (Z.to_nat e)) by lia.
    rewrite <- !take_take. f_equal. apply replace_ranges_prefix; [lia | done]. }
  assert (length (take (Z.to_nat s) text) = Z.to_nat s) as Hlen
    by (rewrite length_take; unfold Js.len in Hle; lia).
  apply elem_of_cons in Hr as [->|Hr].
  - simpl. assert ((s <? s) = false) as -> by (apply Z.ltb_ge; lia).
    cbn [andb]. rewrite shrinkage_zero.
    + replace (s - (0 + 0)) with s by lia.
      rewrite drop_app_length' by done. done.
    + eapply Forall_impl; [exact Hstarts|]. simpl. intros x Hx. lia.
  - assert (e <= r.1) as Her
      by (rewrite Forall_forall in Hstarts; by apply (Hstarts r)).
    pose proof (chained_shrinkage_bound r.1 _ _ _ H3 Hv Her) as Hb.
    simpl shrinkage.
    assert ((s <? r.1) && (e <=? r.1) = true) as ->
      by (apply andb_true_iff; split; [apply Z.ltb_lt | apply Z.leb_le]; lia).
    replace (Z.to_nat (r.1 - (e - s - 3 + shrinkage r.1 l)))
      with (Z.to_nat s + (3 + Z.to_nat (r.1 - shrinkage r.1 l - e)))%nat by lia.
    rewrite drop_app_add' by done.
    rewrite (drop_app_add' placeholder _ 3) by done.
    rewrite drop_drop.
    replace (Z.to_nat e + Z.to_nat (r.1 - shrinkage r.1 l - e))%nat
      with (Z.to_nat (r.1 - shrinkage r.1 l)) by lia.
    apply (IH e); [done | done | lia | done].
Qed.

(** X17: when the folded ranges are valid, within the text and pairwise
    disjoint, each of them shows in the view that [update] builds as the
    marker alone: the marker, three code units U+00A0, stands at the
    position that [getPosition] gives for the start of the range, where
    [update (line)] puts the caret, and the position of the end of the range
    is three units further. *)
Theorem fold_shows_placeholder (c : closure) (r : range) :
  Forall valid (foldedRanges (sets c)) →
  Forall (λ r : range, 0 <= r.1 ∧ r.2 <= Js.len (code c)) (foldedRanges (sets c)) →
  non_overlapping (foldedRanges (sets c)) →
  r ∈ foldedRanges (sets c) →
  0 <= getPosition (foldedRanges (sets c)) r.1
  ∧ Js.slice (value (folding.updateFolds c))
             (getPosition (foldedRanges (sets c)) r.1)
             (getPosition (foldedRanges (sets c)) r.1 + 3)
    = placeholder
  ∧ getPosition (foldedRanges (sets c)) r.2
    = getPosition (foldedRanges (sets c)) r.1 + 3.
Proof.
  intros Hv Hb Hd Hr.
  destruct (update_value_replace (code c) _ Hv Hb Hd) as [Heq Hc].
  pose proof (sort_by_start_perm (foldedRanges (sets c))) as Hperm.
  set (R := foldedRanges (sets c)) in *.
  assert (Forall valid (sort_by_start R)) as Hv' by (by rewrite Hperm).
  assert (r ∈ sort_by_start R) as Hr' by (by rewrite Hperm).
  assert (valid r) as Hvr by (rewrite Forall_forall in Hv; by apply Hv).
  assert (0 <= r.1 ∧ r.2 <= Js.len (code c)) as [Hr1 Hr2]
    by (rewrite Forall_forall in Hb; by apply Hb).
  assert (∀ q, q = r.1 ∨ q = r.2 → ¬ hidden R q) as Hvis.
  { intros q Hq (x & Hx & H1 & H2).
    destruct (non_overlapping_elem R r x Hd Hv Hr Hx) as [->|Hdis].
    - destruct Hq as [->| ->]; lia.
    - rewrite Forall_forall in Hv. specialize (Hv x Hx).
      unfold valid, disjoint in *. destruct Hq as [->| ->]; lia. }
  rewrite !getPosition_visible by (apply Hvis; auto).
  rewrite (shrinkage_across r R) by done.
  pose proof (chained_starts _ _ _ Hc) as Hstarts.
  pose proof (chained_shrinkage_bound r.1 _ _ _ Hc Hv' Hr1) as Hbound.
  rewrite <- (shrinkage_perm _ _ _ Hperm) in *.
  pose proof (replace_ranges_placeholder (code c) r _ 0 Hc Hv' ltac:(lia) Hr')
    as Hmark.
  split; [lia|]. split; [|lia].
  unfold folding.updateFolds, update. simpl value. fold R. rewrite Heq.
  set (gp := r.1 - shrinkage r.1 (sort_by_start R)) in *.
  set (view := replace_ranges (code c) (sort_by_start R)) in *.
  assert (0 <= gp) as Hgp by (subst gp; lia).
  assert (gp + 3 <= Js.len view) as Hlen.
  { apply (f_equal length) in Hmark. rewrite length_take, length_drop in Hmark.
    change (length placeholder) with 3%nat in Hmark. unfold Js.len. lia. }
  rewrite slice_inbounds by lia.
  replace (Z.to_nat (gp + 3)) with (Z.to_nat gp + 3)%nat by lia.
  by rewrite <- take_drop_commute.
Qed.

Lemma fold_shows_placeholder_witness :
  Js.slice (value (folding.updateFolds
                     (mkClosure braces_text braces_text braces_table
                                (mkStore [6%nat; 1%nat] [(16, 19); (1, 13)]))))
           (getPosition [(16, 19); (1, 13)] 16)
           (getPosition [(16, 19); (1, 13)] 16 + 3)
  = placeholder.
Proof.
  refine (proj1 (proj2 (fold_shows_placeholder
            (mkClosure braces_text braces_text braces_table
                       (mkStore [6%nat; 1%nat] [(16, 19); (1, 13)]))
            (16, 19) _ _ _ _))).
  - ranges_facts.
  - repeat constructor; simpl; unfold Js.len; simpl; lia.
  - ranges_facts.
  - by left.
Defined.

(** * Toggles of the view keep the folded ranges disjoint *)

Lemma NoDup_starts_eq (l : list range) (a b : range) :
  NoDup l.*1 → a ∈ l → b ∈ l → a.1 = b.1 → a = b.
Proof.
  induction l as [|x l IH]; intros Hnd Ha Hb Heq; [by apply not_elem_of_nil in Ha|].
  simpl in Hnd. apply NoDup_cons in Hnd as [Hx Hnd].
  apply elem_of_cons in Ha as [->|Ha]; apply elem_of_cons in Hb as [->|Hb].
  - done.
  - exfalso. apply Hx. rewrite Heq. by apply list_elem_of_fmap_2.
  - exfalso. apply Hx. rewrite <- Heq. by apply list_elem_of_fmap_2.
  - by apply IH.
Qed.

Lemma non_overlapping_pairwise (l : list range) :
  NoDup l → (∀ x y : range, x ∈ l → y ∈ l → x ≠ y → disjoint x y) →
  non_overlapping l.
Proof.
  induction 1 as [|x l Hx _ IH]; intros Hd; simpl; [done|]. split.
  - apply Forall_forall. intros y Hy. apply Hd; [by left | by right |].
    intros ->. done.
  - apply IH. intros a b Ha Hb. apply Hd; by right.
Qed.

Lemma inner_first_filter fp (P : nat → Prop) `{!∀ x, Decision (P x)} lines :
  inner_first fp lines → inner_first fp (filter P lines).
Proof.
  induction lines as [|l lines IH]; simpl; [done|]. intros [Hl Hrest].
  destruct (decide (P l)).
  - rewrite filter_cons_True by done. simpl. split; [|by apply IH].
    intros l' r r' Hl'. apply Hl.
    by apply list_elem_of_filter in Hl' as [_ ?].
  - rewrite filter_cons_False by done. by apply IH.
Qed.

Lemma inner_first_snoc fp lines line :
  inner_first fp lines →
  (∀ l (r r' : range), l ∈ lines → fp !! l = Some r → fp !! line = Some r' →
     ¬ nested r' r) →
  inner_first fp (lines ++ [line]).
Proof.
  induction lines as [|l lines IH]; simpl; intros Hin Hnew.
  - split; [|done]. intros l' r r' Hl'. by apply not_elem_of_nil in Hl'.
  - destruct Hin as [Hl Hrest]. split.
    + intros l' r r' Hl' Hr Hr'. apply elem_of_app in Hl' as [Hl'|Hl'].
      * by apply (Hl l').
      * apply list_elem_of_singleton in Hl' as ->. apply (Hnew l); [by left | done | done].
    + apply IH; [done|]. intros l0 r r' Hl0. apply Hnew. by right.
Qed.

(** The ranges of the set after [addFold], when the ranges that the new one
    covers end within it. *)
Lemma addFold_range_mem s e l (x : range) :
  (∀ r : range, r ∈ l → covers_start s e r = true → r.2 <= e) →
  x ∈ addFold_range s e l ↔ x = (s, e) ∨ (x ∈ l ∧ covers_start s e x = false).
Proof.
  intros Hends.
  destruct (addFold_range_cases s e l)
    as [[Hall ->] | (l1 & r & l2 & -> & Hall & Hr & ->)].
  - rewrite elem_of_app, list_elem_of_singleton. rewrite Forall_forall in Hall.
    split; [intros [?|?]; auto | intros [?|[? ?]]; auto].
  - assert (Z.max e r.2 = e) as ->.
    { specialize (Hends r). rewrite elem_of_app, elem_of_cons in Hends.
      pose proof (Hends ltac:(auto) Hr). lia. }
    rewrite Forall_forall in Hall.
    rewrite !elem_of_app, !elem_of_cons, list_elem_of_filter.
    split.
    + intros [?|[?|[? ?]]]; auto.
    + intros [?|[[?|[->|?]] Hc]]; auto. congruence.
Qed.

Section Gated.

Variable fp : gmap nat range.
Hypothesis fp_valid : valid_table fp.
Hypothesis fp_laminar : laminar fp.

(** A range of the table that starts inside another one lies within it. *)
Lemma laminar_covers l1 l2 (a b : range) :
  fp !! l1 = Some a → fp !! l2 = Some b →
  covers_start a.1 a.2 b = true → within b a.
Proof.
  intros Ha Hb Hc. pose proof (fp_valid _ _ Ha) as Hva.
  pose proof (fp_valid _ _ Hb) as Hvb. unfold valid in *.
  unfold covers_start in Hc. apply andb_true_iff in Hc as [H1 H2].
  apply Z.leb_le in H1. rewrite Z.gtb_ltb in H2. apply Z.ltb_lt in H2.
  unfold within.
  destruct (fp_laminar _ _ _ _ Ha Hb) as [->|[Hd|[Hn|Hn]]];
    unfold disjoint, nested in *.
  - rewrite Ha in Hb. injection Hb as <-. lia.
  - lia.
  - lia.
  - lia.
Qed.

Lemma within_covers (a b : range) :
  valid b → within b a → covers_start a.1 a.2 b = true.
Proof.
  unfold valid, within, covers_start. intros Hb [H1 H2].
  apply andb_true_iff. split; [apply Z.leb_le; lia|].
  rewrite Z.gtb_ltb. apply Z.ltb_lt. lia.
Qed.

(** Two different ranges of the table, neither of which lies inside the
    other, are disjoint. *)
Lemma laminar_disjoint l1 l2 (a b : range) :
  fp !! l1 = Some a → fp !! l2 = Some b → a ≠ b →
  ¬ nested a b → ¬ nested b a → disjoint a b.
Proof.
  intros Ha Hb Hne H1 H2.
  destruct (fp_laminar _ _ _ _ Ha Hb) as [->|[Hd|[Hn|Hn]]]; try done.
  rewrite Ha in Hb. by injection Hb.
Qed.

Lemma nested_irrefl (a : range) : ¬ nested a a.
Proof. unfold nested. lia. Qed.

Lemma nested_covers (a b : range) :
  valid a → nested a b → covers_start b.1 b.2 a = true.
Proof.
  intros Ha [H1 H2]. apply within_covers; [done|]. unfold within. lia.
Qed.

Lemma within_trans (a b c : range) : within a b → within b c → within a c.
Proof. unfold within. lia. Qed.

(** The loop of the unfold branch, over the lines that are left in the
    order of the set: a range that lies inside another one is met again
    only until the line of the outer one is added, which removes it. *)
Lemma reAdd_gated s : ∀ rem Rk,
  (∀ l, l ∈ rem → is_Some (fp !! l)) →
  inner_first fp rem →
  (∀ x : range, x ∈ Rk → ∃ l, fp !! l = Some x) →
  (∀ x y : range, x ∈ Rk → y ∈ Rk → nested x y →
     ∃ l0, l0 ∈ rem ∧ fp !! l0 = Some y ∧ s < y.1) →
  (∀ (y : range) l (r : range), y ∈ Rk → l ∈ rem → fp !! l = Some r →
     s < r.1 → nested r y → ∃ l0, l0 ∈ rem ∧ fp !! l0 = Some y ∧ s < y.1) →
  (∀ x : range, x ∈ snd (reAdd fp s rem Rk) →
     x ∈ Rk ∨ ∃ l, l ∈ rem ∧ fp !! l = Some x ∧ s < x.1)
  ∧ (∀ x y : range, x ∈ snd (reAdd fp s rem Rk) → y ∈ snd (reAdd fp s rem Rk) →
       ¬ nested x y)
  ∧ (∀ z c : range, c ∈ Rk → within z c →
       ∃ c' : range, c' ∈ snd (reAdd fp s rem Rk) ∧ within z c')
  ∧ (∀ l (r : range), l ∈ rem → fp !! l = Some r → s < r.1 →
       ∃ c : range, c ∈ snd (reAdd fp s rem Rk) ∧ within r c).
Proof.
  induction rem as [|l rem IH]; intros Rk H1 H2 H3 H4 H5.
  - simpl. split; [auto|]. split; [|split].
    + intros x y Hx Hy Hn. destruct (H4 x y Hx Hy Hn) as (l0 & Hl0 & _).
      by apply not_elem_of_nil in Hl0.
    + intros z c Hc Hz. by exists c.
    + intros l r Hl. by apply not_elem_of_nil in Hl.
  - destruct (H1 l ltac:(by left)) as [[p q] Hl].
    destruct H2 as [Hfirst H2].
    assert (∀ l', l' ∈ rem → is_Some (fp !! l')) as H1'
      by (intros l' Hl'; apply H1; by right).
    simpl reAdd. rewrite Hl.
    destruct (p >? s) eqn:E; rewrite Z.gtb_ltb in E;
      [apply Z.ltb_lt in E | apply Z.ltb_ge in E].
    + (* the line is added again *)
      unfold addFold. rewrite Hl.
      assert (∀ x : range, x ∈ addFold_range p q Rk
                ↔ x = (p, q) ∨ (x ∈ Rk ∧ covers_start p q x = false)) as Hmem.
      { intros x. apply addFold_range_mem. intros r Hr Hc.
        destruct (H3 r Hr) as [lr Hlr].
        by destruct (laminar_covers l lr (p, q) r Hl Hlr Hc). }
      assert (∀ x : range, x ∈ Rk → covers_start p q x = false →
                ¬ nested x (p, q)) as Hkept.
      { intros x Hx Hc Hn. destruct (H3 x Hx) as [lx Hlx].
        pose proof (nested_covers x (p, q) (fp_valid _ _ Hlx) Hn) as Hc'.
        simpl in Hc'. congruence. }
      assert (∀ l' (r' : range), l' ∈ rem → fp !! l' = Some r' →
                ¬ nested r' (p, q)) as Hlater
        by (intros l' r' Hl' Hr'; by apply (Hfirst l' (p, q) r')).
      destruct (IH (addFold_range p q Rk)) as (C1 & C2 & C3 & C4);
        [done | done | | | |].
      * intros x [->|[Hx _]]%Hmem; [by exists l | by apply H3].
      * intros x y [->|[Hx Hcx]]%Hmem [->|[Hy Hcy]]%Hmem Hn.
        -- by apply nested_irrefl in Hn.
        -- destruct (H5 y l (p, q) Hy ltac:(by left) Hl E Hn)
             as (l0 & Hl0 & Hy0 & Hs).
           apply elem_of_cons in Hl0 as [->|Hl0]; [|by exists l0].
           rewrite Hl in Hy0. injection Hy0 as <-.
           by apply nested_irrefl in Hn.
        -- by apply Hkept in Hn.
        -- destruct (H4 x y Hx Hy Hn) as (l0 & Hl0 & Hy0 & Hs).
           apply elem_of_cons in Hl0 as [->|Hl0]; [|by exists l0].
           rewrite Hl in Hy0. injection Hy0 as <-. by apply Hkept in Hn.
      * intros y l' r' [->|[Hy Hcy]]%Hmem Hl' Hr' Hs Hn.
        -- by apply (Hlater l' r') in Hn.
        -- destruct (H5 y l' r' Hy ltac:(by right) Hr' Hs Hn)
             as (l0 & Hl0 & Hy0 & Hs0).
           apply elem_of_cons in Hl0 as [->|Hl0]; [|by exists l0].
           rewrite Hl in Hy0. injection Hy0 as <-.
           by apply (Hlater l' r') in Hn.
      * split; [|split; [done|split]].
        -- intros x Hx. destruct (C1 x Hx) as [[->|[Hx' _]]%Hmem|(l0 & Hl0 & Hx0)].
           ++ right. exists l. split; [by left | done].
           ++ by left.
           ++ right. exists l0. split; [by right | done].
        -- intros z c Hc Hz. destruct (covers_start p q c) eqn:Ec.
           ++ destruct (H3 c Hc) as [lc Hlc].
              pose proof (laminar_covers l lc (p, q) c Hl Hlc Ec) as Hw.
              apply (C3 z (p, q)); [apply Hmem; by left|].
              by eapply within_trans.
           ++ apply (C3 z c); [apply Hmem; by right | done].
        -- intros l' r' Hl' Hr' Hs.
           apply elem_of_cons in Hl' as [->|Hl']; [|by apply (C4 l')].
           rewrite Hl in Hr'. injection Hr' as <-.
           apply (C3 (p, q) (p, q)); [apply Hmem; by left|].
           unfold within. lia.
    + (* the line starts before the unfolded range *)
      destruct (IH Rk) as (C1 & C2 & C3 & C4); [done | done | done | | |].
      * intros x y Hx Hy Hn. destruct (H4 x y Hx Hy Hn) as (l0 & Hl0 & Hy0 & Hs).
        apply elem_of_cons in Hl0 as [->|Hl0]; [|by exists l0].
        rewrite Hl in Hy0. injection Hy0 as <-. simpl in Hs. lia.
      * intros y l' r' Hy Hl' Hr' Hs Hn.
        destruct (H5 y l' r' Hy ltac:(by right) Hr' Hs Hn)
          as (l0 & Hl0 & Hy0 & Hs0).
        apply elem_of_cons in Hl0 as [->|Hl0]; [|by exists l0].
        rewrite Hl in Hy0. injection Hy0 as <-. simpl in Hs0. lia.
      * split; [|split; [done|split; [done|]]].
        -- intros x Hx. destruct (C1 x Hx) as [?|(l0 & Hl0 & Hx0)]; [by left|].
           right. exists l0. split; [by right | done].
        -- intros l' r' Hl' Hr' Hs.
           apply elem_of_cons in Hl' as [->|Hl']; [|by apply (C4 l')].
           rewrite Hl in Hr'. injection Hr' as <-. simpl in Hs. lia.
Qed.

Lemma nested_not_disjoint (a b : range) : valid a → nested a b → ¬ disjoint a b.
Proof. unfold valid, nested, disjoint. lia. Qed.

(** Toggling a line whose anchor starts at an offset that is not hidden
    keeps what holds of the two sets. *)
Lemma toggleFold_gated line st (r : range) :
  fp !! line = Some r → gated_inv fp st → ¬ hidden (foldedRanges st) r.1 →
  fst (toggleFold fp line st) = Normal
  ∧ gated_inv fp (snd (toggleFold fp line st)).
Proof.
  intros Hline Hinv Hvis. destruct r as [s e]. simpl in Hvis.
  destruct (toggleFold_ok fp fp_valid line st) as [Hn Hst'];
    [by eexists | by destruct Hinv |].
  split; [done|].
  destruct Hinv as [[Hnd Hanchored Hv Hstarts] Hdis Hanch Hcov Hord].
  destruct st as [L R]. simpl in *.
  pose proof (fp_valid _ _ Hline) as Hse. unfold valid in Hse. simpl in Hse.
  assert (∀ x : range, x ∈ R → x.1 < x.2) as HvR
    by (intros x Hx; rewrite Forall_forall in Hv; by apply Hv).
  revert Hst'. unfold toggleFold. rewrite Hline. simpl.
  destruct (Set_has line L) eqn:Hhas.
  - (* the line is unfolded *)
    apply Set_has_true in Hhas.
    assert ((s, e) ∈ R) as Hin.
    { destruct (Hcov line (s, e) Hhas Hline) as (c & Hc & Hw1 & Hw2).
      simpl in Hw1, Hw2.
      destruct (decide (c.1 = s)) as [Heq|Hne].
      - destruct (Hanch c Hc) as (l' & Hl' & Hc').
        destruct (fp_laminar _ _ _ _ Hc' Hline) as [->|[Hd|[Hn'|Hn']]].
        + rewrite Hline in Hc'. by injection Hc' as <-.
        + specialize (HvR c Hc). unfold disjoint in Hd. simpl in Hd. lia.
        + unfold nested in Hn'. simpl in Hn'. lia.
        + unfold nested in Hn'. simpl in Hn'. lia.
      - exfalso. apply Hvis. exists c. split; [done|]. lia. }
    destruct (deleteFirst s R) as [R0|] eqn:Edel.
    + apply deleteFirst_Some in Edel as (l1 & r0 & l2 & HR & Hr0 & ->).
      assert (r0 = (s, e)) as ->.
      { apply (NoDup_starts_eq R); try done.
        rewrite HR. apply elem_of_app. right. by left. }
      assert (NoDup R) as HndR by (by apply NoDup_fmap_1 in Hstarts).
      assert (∀ x : range, x ∈ l1 ++ l2 ↔ x ∈ R ∧ x ≠ (s, e)) as HM.
      { intros x. rewrite HR in HndR |- *.
        apply NoDup_app in HndR as (_ & Hx1 & Hx2).
        apply NoDup_cons in Hx2 as [Hx2 _].
        rewrite !elem_of_app, elem_of_cons. split.
        - intros [Hx|Hx]; (split; [auto|]); intros ->.
          + apply (Hx1 _ Hx). by left.
          + done.
        - intros [[?|[?|?]] ?]; auto. done. }
      assert (∀ x : range, x ∈ l1 ++ l2 → s < x.1 ∨ x.2 <= s) as Hside.
      { intros x [Hx Hne]%HM.
        destruct (non_overlapping_elem R x (s, e) Hdis Hv Hx Hin) as [?|Hd];
          [done|].
        specialize (HvR x Hx). unfold disjoint in Hd. simpl in Hd. lia. }
      simpl. intros Hst'.
      destruct (reAdd_gated s (Set_delete line L) (l1 ++ l2))
        as (C1 & C2 & C3 & C4).
      * intros l [_ Hl]%elem_of_Set_delete. by apply Hanchored.
      * by apply inner_first_filter.
      * intros x [Hx _]%HM. destruct (Hanch x Hx) as (l & _ & Hl). by exists l.
      * intros x y [Hx _]%HM [Hy _]%HM Hnest. exfalso.
        destruct (non_overlapping_elem R x y Hdis Hv Hx Hy) as [->|Hd].
        -- by apply nested_irrefl in Hnest.
        -- revert Hd. apply nested_not_disjoint; [|done].
           unfold valid. by apply HvR.
      * intros y l r' Hy [Hne Hl]%elem_of_Set_delete Hr' Hs Hnest.
        pose proof Hy as [Hy' Hyne]%HM.
        destruct (Hanch y Hy') as (l0 & Hl0 & Hy0).
        exists l0. split; [|split; [done|]].
        -- apply elem_of_Set_delete. split; [|done]. intros ->.
           rewrite Hline in Hy0. by injection Hy0 as <-.
        -- destruct (Hside y Hy) as [?|Hy2]; [done|].
           pose proof (fp_valid _ _ Hr') as Hvr. unfold valid, nested in *. lia.
      * constructor; simpl.
        -- done.
        -- apply non_overlapping_pairwise.
           ++ destruct Hst' as [_ _ _ Hs']. simpl in Hs'.
              by apply NoDup_fmap_1 in Hs'.
           ++ intros x y Hx Hy Hne.
              assert (∀ z : range,
                        z ∈ (reAdd fp s (Set_delete line L) (l1 ++ l2)).2 →
                        ∃ l, fp !! l = Some z) as Htable.
              { intros z Hz. destruct (C1 z Hz) as [[Hz' _]%HM|(l & _ & Hl & _)].
                - destruct (Hanch z Hz') as (l & _ & Hl). by exists l.
                - by exists l. }
              destruct (Htable x Hx) as [lx Hlx]. destruct (Htable y Hy) as [ly Hly].
              apply (laminar_disjoint lx ly); try done; by apply C2.
        -- intros x Hx. destruct (C1 x Hx) as [[Hx' Hxne]%HM|(l & Hl & Hlx & _)].
           ++ destruct (Hanch x Hx') as (l & Hl & Hlx). exists l.
              split; [|done]. apply elem_of_Set_delete. split; [|done].
              intros ->. rewrite Hline in Hlx. by injection Hlx as <-.
           ++ by exists l.
        -- intros l r' [Hne Hl]%elem_of_Set_delete Hr'.
           destruct (Hcov l r' Hl Hr') as (c & Hc & Hw).
           destruct (decide (c = (s, e))) as [->|Hcne].
           ++ apply (C4 l r'); [by apply elem_of_Set_delete | done |].
              pose proof (fp_valid _ _ Hr') as Hvr.
              destruct (fp_laminar _ _ _ _ Hr' Hline) as [?|[Hd|[Hn'|Hn']]];
                unfold valid, within, disjoint, nested in *; simpl in *;
                [done | lia | lia | lia].
           ++ apply (C3 r' c); [|done]. by apply HM.
        -- by apply inner_first_filter.
    + apply deleteFirst_None in Edel. rewrite Forall_forall in Edel.
      by destruct (Edel _ Hin).
  - (* the line is folded *)
    apply Set_has_false in Hhas. unfold addFold. rewrite Hline. simpl.
    assert (Set_add line L = L ++ [line]) as ->.
    { unfold Set_add. by apply Set_has_false in Hhas as ->. }
    intros Hst'.
    assert (∀ x : range, x ∈ addFold_range s e R
              ↔ x = (s, e) ∨ (x ∈ R ∧ covers_start s e x = false)) as Hmem.
    { intros x. apply addFold_range_mem. intros r Hr Hc.
      destruct (Hanch r Hr) as (lr & _ & Hlr).
      by destruct (laminar_covers line lr (s, e) r Hline Hlr Hc). }
    constructor; simpl.
    + done.
    + by apply addFold_range_non_overlapping.
    + intros x [->|[Hx _]]%Hmem.
      * exists line. split; [|done]. apply elem_of_app. right. by left.
      * destruct (Hanch x Hx) as (l & Hl & Hlx). exists l.
        split; [|done]. apply elem_of_app. by left.
    + intros l r' [Hl|Hl]%elem_of_app Hr'.
      * destruct (Hcov l r' Hl Hr') as (c & Hc & Hw).
        destruct (covers_start s e c) eqn:Ec.
        -- destruct (Hanch c Hc) as (lc & _ & Hlc).
           pose proof (laminar_covers line lc (s, e) c Hline Hlc Ec) as Hw'.
           exists (s, e). split; [apply Hmem; by left|].
           by eapply within_trans.
        -- exists c. split; [apply Hmem; by right | done].
      * apply list_elem_of_singleton in Hl as ->.
        rewrite Hline in Hr'. injection Hr' as <-.
        exists (s, e). split; [apply Hmem; by left|]. unfold within. lia.
    + apply inner_first_snoc; [done|].
      intros l r0 r' Hl Hr0 Hr' Hnest.
      rewrite Hline in Hr'. injection Hr' as <-.
      destruct (Hcov l r0 Hl Hr0) as (c & Hc & Hw).
      apply Hvis. exists c. split; [done|].
      unfold nested, within in *. simpl in *. lia.
Qed.

Lemma gated_inv_empty : gated_inv fp emptyStore.
Proof.
  constructor; simpl; try done.
  - constructor; simpl; try done; try constructor.
    intros line Hl. by apply not_elem_of_nil in Hl.
  - intros r Hr. by apply not_elem_of_nil in Hr.
  - intros l r Hl. by apply not_elem_of_nil in Hl.
Qed.

Lemma gated_gated_inv st : gated fp st → gated_inv fp st.
Proof.
  induction 1 as [|st line r _ IH Hline Hvis]; [apply gated_inv_empty|].
  by destruct (toggleFold_gated line st r Hline IH Hvis).
Qed.

End Gated.

(** X18: over a table of valid anchors of which any two are disjoint or
    one inside the other, in every state reached from the empty sets by
    [toggleFold (line)] on lines whose anchor starts at an offset that is
    not hidden (the lines whose toggle [updateFolds] shows), the folded
    ranges are valid and pairwise disjoint, each folded range is the anchor
    of a folded line, the anchor of each folded line lies within a folded
    range, and the next such call does not throw. *)
Theorem gated_toggles_disjoint (fp : gmap nat range) (st : store) :
  valid_table fp → laminar fp → gated fp st →
  non_overlapping (foldedRanges st)
  ∧ Forall valid (foldedRanges st)
  ∧ (∀ r : range, r ∈ foldedRanges st →
       ∃ l, l ∈ foldedLines st ∧ fp !! l = Some r)
  ∧ (∀ l (r : range), l ∈ foldedLines st → fp !! l = Some r →
       ∃ c : range, c ∈ foldedRanges st ∧ within r c)
  ∧ (∀ line (r : range), fp !! line = Some r →
       ¬ hidden (foldedRanges st) r.1 →
       fst (toggleFold fp line st) = Normal).
Proof.
  intros Hv Hl Hg.
  pose proof (gated_gated_inv fp Hv Hl st Hg) as Hinv.
  split; [apply Hinv|]. split; [apply Hinv|]. split; [apply Hinv|].
  split; [apply Hinv|].
  intros line r Hline Hvis.
  by destruct (toggleFold_gated fp Hv Hl line st r Hline Hinv Hvis).
Qed.

Lemma braces_table_laminar : laminar braces_table.
Proof.
  unfold laminar, braces_table. intros l1 l2 r1 r2.
  rewrite !lookup_insert_Some, !lookup_singleton_Some.
  unfold disjoint, nested. intuition (subst; simpl; lia).
Qed.

Lemma gated_toggles_disjoint_witness :
  non_overlapping
    (foldedRanges
       (snd (toggleFold braces_table 1 (snd (toggleFold braces_table 2 emptyStore))))).
Proof.
  refine (proj1 (gated_toggles_disjoint braces_table _
                   braces_table_valid braces_table_laminar _)).
  apply (gated_toggle braces_table _ 1 (1, 13)).
  - apply (gated_toggle braces_table _ 2 (3, 11)).
    + apply gated_empty.
    + reflexivity.
    + intros (r & Hr & _). simpl in Hr. by apply not_elem_of_nil in Hr.
  - reflexivity.
  - intros (r & Hr & H1 & H2). vm_compute in Hr.
    apply list_elem_of_singleton in Hr as ->. simpl in *. lia.
Defined.

(** A batch of public calls on lines whose toggle is shown leads from a
    gated state to a gated state. *)
Lemma run_gated (fp : gmap nat range) calls : ∀ c,
  foldPositions c = fp → gated fp (sets c) → visible_calls calls c = true →
  gated fp (sets (run calls c)).
Proof.
  induction calls as [|[line force] calls IH]; intros c Hfp Hg Hvis; [done|].
  cbn [visible_calls fst snd] in Hvis.
  apply andb_true_iff in Hvis as [Hhere Hrest].
  change (run ((line, force) :: calls) c)
    with (run calls (snd (folding.toggleFold c line force))).
  apply IH; [| |done].
  - unfold folding.toggleFold. destruct (foldPositions c !! line); [|done].
    destruct (folding.differs _ _); [|done].
    by destruct (fst (toggleFold (foldPositions c) line (sets c))).
  - unfold folding.toggleFold.
    destruct (foldPositions c !! line) as [r|] eqn:Hline; [|done].
    destruct (folding.differs _ _); [|done].
    assert (gated fp (snd (toggleFold fp line (sets c)))) as Hstep.
    { apply (gated_toggle fp (sets c) line r); [done | by rewrite <- Hfp |].
      intros Hh. apply existsb_inside_hidden in Hh. by rewrite Hh in Hhere. }
    rewrite Hfp. by destruct (fst (toggleFold fp line (sets c))).
Qed.

Lemma crossing_table_valid : valid_table crossing_table.
Proof.
  intros line r. unfold crossing_table, valid.
  rewrite !lookup_insert_Some, lookup_singleton_Some.
  intuition (subst; simpl; lia).
Qed.

(** C1, the claim fails.  On the text in braces the set is enumerated in
    insertion order: line 6 folded before line 1 leaves [(16, 19)] ahead of
    [(1, 13)].  A line folded inside a range that is already folded is added
    as a range of its own: lines 1 and 2 leave [(1, 13)] and [(3, 11)], which
    overlap; the second call is made on a line whose toggle is not shown.
    And over a table of valid anchors of which two cross, calls on lines
    whose toggle is shown leave overlapping ranges when a line is unfolded:
    with the anchors [(4, 13)], [(5, 10)], [(12, 20)] and [(15, 18)] of lines
    1 to 4, folding lines 2, 3, 1 and 4 and unfolding line 1 leaves
    [(12, 20)], [(5, 10)] and [(15, 18)]. *)
Lemma toggleFold_unsorted_and_overlapping :
  (createFolds braces_text None (Some braces_matcher) [] = Some braces
   ∧ valid_table (foldPositions braces)
   ∧ foldedRanges (sets (run [(6%nat, None); (1%nat, None)] braces))
     = [(16, 19); (1, 13)]
   ∧ ¬ ascending [(16, 19); (1, 13)]
   ∧ laminar (foldPositions braces)
   ∧ visible_calls [(1%nat, None); (2%nat, None)] braces = false
   ∧ foldedRanges (sets (run [(1%nat, None); (2%nat, None)] braces))
     = [(1, 13); (3, 11)]
   ∧ ¬ non_overlapping [(1, 13); (3, 11)])
  ∧ (let calls := [(2%nat, None); (3%nat, None); (1%nat, None); (4%nat, None);
                   (1%nat, None)] in
     provided crossing_text [(4, 13); (5, 10); (12, 20); (15, 18)]
     = Some (fresh crossing_text crossing_table)
     ∧ valid_table crossing_table
     ∧ ¬ laminar crossing_table
     ∧ visible_calls calls (fresh crossing_text crossing_table) = true
     ∧ foldedRanges (sets (run calls (fresh crossing_text crossing_table)))
       = [(12, 20); (5, 10); (15, 18)]
     ∧ ¬ non_overlapping [(12, 20); (5, 10); (15, 18)]
     ∧ ¬ non_overlapping (sort_by_start [(12, 20); (5, 10); (15, 18)])).
Proof.
  split.
  - split; [by vm_compute|]. split; [apply braces_table_valid|].
    split; [by vm_compute|]. split.
    { intros H. inversion H as [|? ? _ Hhd]; subst.
      inversion Hhd; subst. simpl in *. lia. }
    split; [apply braces_table_laminar|].
    split; [by vm_compute|]. split; [by vm_compute|].
    simpl. intros [H _]. inversion H as [|? ? Hd _]; subst.
    unfold disjoint in Hd. simpl in Hd. lia.
  - intros calls. split; [by vm_compute|]. split; [apply crossing_table_valid|].
    split.
    { intros H.
      destruct (H 1%nat 3%nat (4, 13) (12, 20) eq_refl eq_refl)
        as [H1 | [H1 | [H1 | H1]]]; [done|..];
        unfold disjoint, nested in H1; simpl in H1; lia. }
    split; [by vm_compute|]. split; [by vm_compute|].
    assert (¬ disjoint (12, 20) (15, 18)) as Hcross.
    { unfold disjoint. simpl. lia. }
    split.
    + simpl. intros [H _]. inversion H as [|? ? _ H']; subst.
      by inversion H'; subst.
    + vm_compute sort_by_start. simpl. intros (_ & H & _).
      by inversion H; subst.
Qed.

(** C1, as amended: after any sequence of public [toggleFold] calls that
    starts from the empty sets, over a fixed table of valid ranges, every
    folded range is valid and no two folded ranges start at the same
    offset; the set is enumerated in insertion order, and the copy that
    [update] sorts holds the same ranges in strictly ascending order of
    start.  When any two anchors of the table are disjoint or one inside the
    other, and every call, folding or unfolding, is made on a line whose
    anchor starts at an offset that is not hidden at the time of the call,
    the folded ranges are pairwise disjoint, in the set and in the sorted
    copy.  Over any table of valid ranges, folding one more line keeps
    disjoint ranges disjoint when the start of its anchor is not hidden. *)
Theorem toggleFold_sequence_invariant (text : jsstring) (fp : gmap nat range)
    (calls : list (nat * option bool)) :
  valid_table fp →
  let c := run calls (fresh text fp) in
  let ranges := foldedRanges (sets c) in
  Forall valid ranges
  ∧ NoDup ranges.*1
  ∧ sort_by_start ranges ≡ₚ ranges
  ∧ strictly_ascending (sort_by_start ranges)
  ∧ (laminar fp → visible_calls calls (fresh text fp) = true →
       non_overlapping ranges ∧ non_overlapping (sort_by_start ranges))
  ∧ (∀ line s e force,
       fp !! line = Some (s, e) → line ∉ foldedLines (sets c) →
       force ≠ Some false → non_overlapping ranges → ¬ hidden ranges s →
       non_overlapping
         (foldedRanges (sets (snd (folding.toggleFold c line force))))).
Proof.
  intros Hfp c ranges.
  pose proof (run_ok calls (fresh text fp) Hfp (fresh_inv text fp)) as Hinv.
  simpl in Hinv. fold c in Hinv. destruct Hinv as [_ _ Hv Hst]. fold ranges in Hv, Hst.
  split; [done|]. split; [done|]. split; [apply sort_by_start_perm|].
  split; [by apply sort_by_start_strict|]. split.
  - intros Hlam Hvis.
    assert (gated fp (sets c)) as Hg.
    { apply run_gated; [done | apply gated_empty | done]. }
    pose proof (gated_disjoint _ _ (gated_gated_inv fp Hfp Hlam _ Hg)) as Hd.
    split; [done|].
    eapply non_overlapping_perm; [symmetry; apply sort_by_start_perm | done].
  - intros line s e force Hline Hnot Hforce Hd Hvis.
    assert (foldPositions c = fp) as Hc by apply (run_frame calls (fresh text fp)).
    unfold folding.toggleFold. rewrite Hc, Hline.
    apply Set_has_false in Hnot. rewrite Hnot.
    assert (folding.differs false force = true) as ->.
    { destruct force as [[]|]; simpl; done. }
    unfold toggleFold. rewrite Hline, Hnot. unfold addFold. rewrite Hline.
    simpl. apply addFold_range_non_overlapping; try done.
    by apply (Hfp line (s, e)).
Qed.

Lemma toggleFold_sequence_invariant_witness :
  valid_table braces_table
  ∧ laminar braces_table
  ∧ visible_calls [(2%nat, None); (6%nat, None); (1%nat, None); (1%nat, None)]
                  braces = true
  ∧ foldedRanges
      (sets (run [(2%nat, None); (6%nat, None); (1%nat, None); (1%nat, None)]
                 braces))
    = [(16, 19); (3, 11)]
  ∧ non_overlapping
      (foldedRanges
         (sets (run [(2%nat, None); (6%nat, None); (1%nat, None); (1%nat, None)]
                    braces)))
  ∧ strictly_ascending
      (sort_by_start
         (foldedRanges
            (sets (run [(2%nat, None); (6%nat, None); (1%nat, None);
                        (1%nat, None)] braces)))).
Proof.
  pose proof (toggleFold_sequence_invariant braces_text braces_table
                [(2%nat, None); (6%nat, None); (1%nat, None); (1%nat, None)]
                braces_table_valid) as (_ & _ & _ & Hs & Hd & _).
  split; [exact braces_table_valid|]. split; [exact braces_table_laminar|].
  split; [reflexivity|]. split; [reflexivity|].
  split; [exact (proj1 (Hd braces_table_laminar eq_refl)) | exact Hs].
Defined.

(** The folded ranges of a state as the toggles of the view leave it: the
    anchors of the folded lines that lie within no other anchor of a folded
    line. *)
Lemma gated_inv_outermost fp st (r : range) :
  gated_inv fp st →
  r ∈ foldedRanges st
  ↔ ∃ l, l ∈ foldedLines st ∧ fp !! l = Some r
         ∧ ∀ l' (r' : range), l' ∈ foldedLines st → fp !! l' = Some r' →
             within r r' → r' = r.
Proof.
  intros [[_ _ Hv _] Hdis Hanch Hcov _]. split.
  - intros Hr. destruct (Hanch r Hr) as (l & Hl & Hlr).
    exists l. split; [done|]. split; [done|].
    intros l' r' Hl' Hr' Hw.
    destruct (Hcov l' r' Hl' Hr') as (c & Hc & Hw').
    destruct (non_overlapping_elem _ r c Hdis Hv Hr Hc) as [<-|Hd].
    + destruct r, r'. unfold within in *. simpl in *. f_equal; lia.
    + rewrite Forall_forall in Hv. specialize (Hv r Hr).
      unfold valid, within, disjoint in *. lia.
  - intros (l & Hl & Hlr & Hmax).
    destruct (Hcov l r Hl Hlr) as (c & Hc & Hw).
    destruct (Hanch c Hc) as (l' & Hl' & Hlc).
    by rewrite <- (Hmax l' c Hl' Hlc Hw).
Qed.

Lemma strictly_ascending_head (x : range) l :
  strictly_ascending (x :: l) → Forall (λ y : range, x.1 < y.1) l.
Proof.
  unfold strictly_ascending. revert x.
  induction l as [|y l IH]; intros x Hs; [constructor|].
  inversion Hs as [|? ? Hs' Hhd]; subst. inversion Hhd as [|? ? Hxy]; subst.
  constructor; [done|].
  eapply Forall_impl; [apply (IH y Hs')|]. simpl. intros z Hz. lia.
Qed.

(** Two lists in strictly ascending order of start that hold the same
    ranges are the same list. *)
Lemma strictly_ascending_unique l1 : ∀ l2,
  strictly_ascending l1 → strictly_ascending l2 → l1 ≡ₚ l2 → l1 = l2.
Proof.
  induction l1 as [|x l1 IH]; intros l2 H1 H2 Hp.
  - by apply Permutation_nil_l in Hp.
  - destruct l2 as [|y l2]; [by apply Permutation_nil_r in Hp|].
    pose proof (strictly_ascending_head _ _ H1) as Hx.
    pose proof (strictly_ascending_head _ _ H2) as Hy.
    rewrite Forall_forall in Hx, Hy.
    assert (x = y) as ->.
    { destruct (decide (x = y)) as [|Hne]; [done|]. exfalso.
      assert (x ∈ y :: l2) as Hin1 by (rewrite <- Hp; by left).
      assert (y ∈ x :: l1) as Hin2 by (rewrite Hp; by left).
      apply elem_of_cons in Hin1 as [?|Hin1]; [done|].
      apply elem_of_cons in Hin2 as [?|Hin2]; [done|].
      specialize (Hx y Hin2). specialize (Hy x Hin1). lia. }
    f_equal. apply IH.
    + unfold strictly_ascending in *. by inversion H1.
    + unfold strictly_ascending in *. by inversion H2.
    + by apply Permutation_cons_inv in Hp.
Qed.

(** X19: over a table of valid anchors of which any two are disjoint or
    one inside the other, the folded ranges that the toggles of the view
    leave depend only on which lines are folded, not on the order of the
    toggles: two histories that leave the same lines folded leave the same
    ranges, up to their order in the set, hence the same positions and the
    same view. *)
Theorem gated_ranges_determined (fp : gmap nat range) (code : jsstring)
    (st1 st2 : store) :
  valid_table fp → laminar fp → gated fp st1 → gated fp st2 →
  (∀ l, l ∈ foldedLines st1 ↔ l ∈ foldedLines st2) →
  foldedRanges st1 ≡ₚ foldedRanges st2
  ∧ (∀ pos, getPosition (foldedRanges st1) pos = getPosition (foldedRanges st2) pos)
  ∧ update_value code (foldedRanges st1) = update_value code (foldedRanges st2).
Proof.
  intros Hv Hl Hg1 Hg2 Hlines.
  pose proof (gated_gated_inv fp Hv Hl st1 Hg1) as Hinv1.
  pose proof (gated_gated_inv fp Hv Hl st2 Hg2) as Hinv2.
  assert (NoDup (foldedRanges st1).*1) as Hs1 by apply Hinv1.
  assert (NoDup (foldedRanges st2).*1) as Hs2 by apply Hinv2.
  assert (foldedRanges st1 ≡ₚ foldedRanges st2) as Hperm.
  { apply NoDup_Permutation.
    - by apply NoDup_fmap_1 in Hs1.
    - by apply NoDup_fmap_1 in Hs2.
    - intros r. rewrite (gated_inv_outermost fp st1 r Hinv1).
      rewrite (gated_inv_outermost fp st2 r Hinv2).
      split; intros (l & Hin & Hlr & Hmax); exists l;
        (split; [by apply Hlines|]); (split; [done|]);
        intros l' r' Hl'; apply Hmax; by apply Hlines. }
  split; [done|]. split; [intros pos; by apply getPosition_perm|].
  unfold update_value.
  assert (sort_by_start (foldedRanges st1) = sort_by_start (foldedRanges st2)) as ->;
    [|done].
  apply strictly_ascending_unique.
  - by apply sort_by_start_strict.
  - by apply sort_by_start_strict.
  - by rewrite !sort_by_start_perm.
Qed.

Ltac nothing_hides :=
  let r := fresh "r" in
  let Hr := fresh "Hr" in
  let H1 := fresh "H" in
  let H2 := fresh "H" in
  intros (r & Hr & H1 & H2); vm_compute in Hr;
  match type of Hr with list_elem_of ?x ?l => change (x ∈ l) in Hr end;
  in_cases; simpl in *; lia.

Lemma gated_ranges_determined_witness :
  foldedRanges
    (snd (toggleFold braces_table 6 (snd (toggleFold braces_table 1 emptyStore))))
  ≡ₚ foldedRanges
       (snd (toggleFold braces_table 1 (snd (toggleFold braces_table 6 emptyStore)))).
Proof.
  refine (proj1 (gated_ranges_determined braces_table braces_text _ _
                   braces_table_valid braces_table_laminar _ _ _)).
  - apply (gated_toggle braces_table _ 6 (16, 19)); [|reflexivity|nothing_hides].
    apply (gated_toggle braces_table _ 1 (1, 13)); [|reflexivity|nothing_hides].
    apply gated_empty.
  - apply (gated_toggle braces_table _ 1 (1, 13)); [|reflexivity|nothing_hides].
    apply (gated_toggle braces_table _ 6 (16, 19)); [|reflexivity|nothing_hides].
    apply gated_empty.
  - intros l. vm_compute foldedLines. rewrite !elem_of_cons. tauto.
Defined.

(** * [createFolds] on a matcher whose pairs are in range *)

Lemma tagFolds_defined value tags pairs : ∀ i folds,
  (i + length pairs <= length tags)%nat →
  (∀ k j, pairs !! k = Some (Some j) → (j < length tags)%nat) →
  is_Some (tagFolds value tags pairs i folds).
Proof.
  induction pairs as [|p pairs IH]; intros i folds Hlen Hj; simpl; [by eexists|].
  assert (∀ folds', is_Some (tagFolds value tags pairs (S i) folds')) as Hrest.
  { intros folds'. apply IH; [simpl in Hlen; lia|].
    intros k j Hk. by apply (Hj (S k)). }
  destruct p as [j|]; [|done].
  destruct (i <? j)%nat; [|done].
  destruct (lookup_lt_is_Some_2 tags i) as [ti ->]; [simpl in Hlen; lia|].
  destruct (lookup_lt_is_Some_2 tags j) as [tj ->]; [by apply (Hj 0%nat)|].
  simpl. by destruct (isMultiline _ _ _).
Qed.

Lemma bracketFolds_defined value brackets pairs : ∀ i folds,
  (i + length pairs <= length brackets)%nat →
  (∀ k j, pairs !! k = Some (Some j) → (j < length brackets)%nat) →
  is_Some (bracketFolds value brackets pairs i folds).
Proof.
  induction pairs as [|p pairs IH]; intros i folds Hlen Hj; simpl; [by eexists|].
  assert (∀ folds', is_Some (bracketFolds value brackets pairs (S i) folds'))
    as Hrest.
  { intros folds'. apply IH; [simpl in Hlen; lia|].
    intros k j Hk. by apply (Hj (S k)). }
  destruct p as [j|]; [|done].
  destruct (i <? j)%nat; [|done].
  destruct (lookup_lt_is_Some_2 brackets i) as [bi ->]; [simpl in Hlen; lia|].
  simpl. destruct (bool_decide _); [|done].
  destruct (lookup_lt_is_Some_2 brackets j) as [bj ->]; [by apply (Hj 0%nat)|].
  simpl. by destruct (isMultiline _ _ _).
Qed.

(** X20: the loops of [createFolds] over the pairs of the tag matcher and
    of the bracket matcher read no tag or bracket that does not exist when
    the pairs, if there are any, point to elements of their arrays; then,
    whatever ranges the providers return, [createFolds] leaves an instance
    with the value of the editor as full text and as view, and nothing
    folded. *)
Theorem createFolds_defined (text : jsstring)
    (matchTags : option TagMatcher) (matchBrackets : option BracketMatcher)
    (providers : list FoldingRangeProvider) :
  (∀ m, matchTags = Some m → pairs_in_range (tags m) (tag_pairs m)) →
  (∀ m, matchBrackets = Some m → pairs_in_range (brackets m) (bracket_pairs m)) →
  ∃ c, createFolds text matchTags matchBrackets providers = Some c
       ∧ folding.fullCode c = text ∧ value c = text ∧ sets c = emptyStore.
Proof.
  intros Ht Hb. unfold createFolds, collectFolds.
  assert (is_Some (match matchTags with
                   | Some m => tagFolds text (tags m) (tag_pairs m) 0 []
                   | None => Some []
                   end)) as [folds1 ->].
  { destruct matchTags as [m|]; [|by eexists].
    destruct (Ht m eq_refl) as [Hlen Hj]. by apply tagFolds_defined. }
  simpl.
  assert (is_Some (match matchBrackets with
                   | Some m =>
                       bracketFolds text (brackets m) (bracket_pairs m) 0 folds1
                   | None => Some folds1
                   end)) as [folds2 ->].
  { destruct matchBrackets as [m|]; [|by eexists].
    destruct (Hb m eq_refl) as [Hlen Hj]. by apply bracketFolds_defined. }
  simpl. by eexists.
Qed.

Lemma createFolds_defined_witness :
  ∃ c, createFolds braces_text None (Some braces_matcher) [] = Some c
       ∧ folding.fullCode c = braces_text ∧ value c = braces_text
       ∧ sets c = emptyStore.
Proof.
  apply (createFolds_defined braces_text None (Some braces_matcher) []).
  - intros m H. discriminate H.
  - intros m [= <-]. split; [simpl; lia|].
    intros i j Hi. simpl in *.
    repeat (destruct i as [|i]; [injection Hi as <-; lia|]). discriminate Hi.
Defined.
